(** * dmlc-core: sparse rows, row blocks and the row-block container

    A shallow embedding of
      - [include/dmlc/data.h]      ([Row], [RowBlock]),
      - [src/data/row_block.h]     ([RowBlockContainer]),
      - [src/data/basic_row_iter.h] ([BasicRowIter]),
      - the progress report that the reading loop of [BasicRowIter] shares
        with the reading-speed test,
    followed by the properties of the data model that are proved (or
    refuted) on it.

    Conventions of the embedding.
      - A [size_t] is a [Z] in [0, 2^64); every addition, subtraction or
        product the source performs on [size_t] values is written with
        [wrap64]. Loop counters, which stay below their bound, and
        positions in arrays are naturals.
      - A [real_t] (a C [float]) is only ever copied, stored and compared by
        the modelled code, so it is represented by its 32-bit pattern.
      - An unsigned index type is described by its [sizeof]; narrowing casts
        are written out as reductions modulo [2 ^ digits].
      - A [std::vector<T>] is a [list T]; a [const T*] into an array is the
        list of the elements from the pointer onwards, and a pointer that
        may be [NULL] is an [option].
      - A call either returns ([Done]), stops in a failed [CHECK] or a library
        exception ([Fatal], carrying the object as it is at that point), or
        leaves the behaviour undefined ([Undefined]: an access outside an
        array, falling off the end of a value-returning function). *)

From stdpp Require Import base numbers option list.
From Stdlib Require Import ZArith Lia.
From Stdlib Require SpecFloat.

#[local] Set Warnings "-clear-no-such-hyp".

Local Open Scope Z_scope.

(** ** Machine integers *)

Abbreviation size_t := Z (only parsing).
Abbreviation real_t := Z (only parsing).

Definition wrap64 (z : Z) : size_t := z mod 2 ^ 64.

(** [1.0f], [0.0f], [0.5f] and [2.0f] as binary32 bit patterns. *)
Definition one_f : real_t := 0x3F800000.
Definition zero_f : real_t := 0.
Definition half_f : real_t := 0x3F000000.
Definition two_f : real_t := 0x40000000.

Definition sizeof_size_t : Z := 8.
Definition sizeof_real_t : Z := 4.

(** The unsigned integer types an index can have. *)
Inductive UnsignedType : Set := uint8_t | uint16_t | uint32_t | uint64_t.
Existing Class UnsignedType.

Definition sizeof (T : UnsignedType) : Z :=
  match T with uint8_t => 1 | uint16_t => 2 | uint32_t => 4 | uint64_t => 8 end.

(** [std::numeric_limits<T>::digits], [std::numeric_limits<T>::max()] and
    [static_cast<T>(x)] of an unsigned [x]. *)
Definition digits (T : UnsignedType) : Z := 8 * sizeof T.
Definition numeric_max (T : UnsignedType) : Z := 2 ^ digits T - 1.
Definition static_cast (T : UnsignedType) (x : Z) : Z := x mod 2 ^ digits T.

(** [typedef unsigned index_t;] *)
Definition index_t : UnsignedType := uint32_t.

(** ** Outcomes of a call *)

Inductive condition : Set :=
| IndexOverflow   (* "index exceed numeric bound of current type" *)
| OutOfRange      (* a row id or feature id outside its bound *)
| CorruptData     (* "Bad RowBlock format" *)
| Inconsistent    (* a consistency CHECK of GetBlock *)
| LengthError.    (* std::length_error of a vector that cannot grow *)

Inductive outcome (S A : Type) : Type :=
| Done (a : A)
| Fatal (c : condition) (s : S)
| Undefined.

Arguments Done {S A} a.
Arguments Fatal {S A} c s.
Arguments Undefined {S A}.

Definition bind {S A B} (m : outcome S A) (k : A → outcome S B) : outcome S B :=
  match m with
  | Done a => k a
  | Fatal c s => Fatal c s
  | Undefined => Undefined
  end.

Notation "'let*' x := m 'in' k" := (bind m (fun x => k))
  (at level 10, x pattern, m at level 100, k at level 200).

(** [CHECK(b)]: continue when [b] holds, otherwise stop with the object [s]. *)
Definition CHECK {S} (b : bool) (c : condition) (s : S) : outcome S unit :=
  if b then Done tt else Fatal c s.

(** [for (size_t i = lo; i < lo + n; ++i) body]. *)
Fixpoint for_loop {S St} (n : nat) (i : nat) (body : nat → St → outcome S St) (st : St)
  : outcome S St :=
  match n with
  | O => Done st
  | Datatypes.S n' => let* st' := body i st in for_loop n' (Datatypes.S i) body st'
  end.

(** ** Arrays and vectors *)

Module Vec.
Section Vec.
Context {A : Type}.

Definition size (v : list A) : size_t := Z.of_nat (length v).

(** The largest size a [size_t] can report; an implementation's
    [max_size()] is at most this. *)
Definition max_size : Z := 2 ^ 64 - 1.

(** [p[i]] read through a pointer into an array. *)
Definition read {S} (p : list A) (i : nat) : outcome S A :=
  match p !! i with
  | Some x => Done x
  | None => Undefined
  end.

(** [p[i] = x]. *)
Definition store {S} (v : list A) (i : nat) (x : A) : outcome S (list A) :=
  if decide (i < length v)%nat then Done (<[i := x]> v) else Undefined.

(** [v.back()]. *)
Definition back {S} (v : list A) : outcome S A :=
  match last v with
  | Some x => Done x
  | None => Undefined
  end.

(** [v.push_back(x)], with the object [s] it belongs to. *)
Definition push_back {S} (s : S) (v : list A) (x : A) : outcome S (list A) :=
  if size v <? max_size then Done (v ++ [x]) else Fatal LengthError s.

(** [v.resize(n)], new elements value-initialised to [d]. *)
Definition resize (v : list A) (n : size_t) (d : A) : list A :=
  take (Z.to_nat n) v ++ replicate (Z.to_nat n - length v) d.

(** [std::memcpy(BeginPtr(dst) + pos, src, n * sizeof(T))]: the byte
    count is a [size_t] product. *)
Definition memcpy {S} (dst : list A) (pos : nat) (src : list A) (n : size_t) (sz : Z)
  : outcome S (list A) :=
  let k := Z.to_nat (wrap64 (n * sz) / sz) in
  if decide (k = 0)%nat then Done dst
  else if decide (pos + k ≤ length dst ∧ k ≤ length src)%nat
       then Done (take pos dst ++ take k src ++ drop (pos + k) dst)
       else Undefined.
End Vec.
End Vec.

(** ** [Row<IndexType>] *)

Module Row.
Record t := mk {
  label : real_t;
  length : size_t;
  index : list Z;
  value : option (list real_t)
}.

(** The arrays behind the two pointers hold at least [length] entries,
    and feature ids are unsigned. *)
Definition valid (r : t) : Prop :=
  0 <= length r < 2 ^ 64 ∧
  (Z.to_nat (length r) ≤ List.length (index r))%nat ∧
  Forall (λ x, 0 <= x) (index r) ∧
  ∀ v, value r = Some v → (Z.to_nat (length r) ≤ List.length v)%nat.

(** The feature ids and values of the row proper. *)
Definition ids (r : t) : list Z := take (Z.to_nat (length r)) (index r).
Definition vals (r : t) : option (list real_t) :=
  take (Z.to_nat (length r)) <$> value r.

Definition get_index (r : t) (i : size_t) : outcome unit Z :=
  Vec.read (index r) (Z.to_nat i).

Definition get_value (r : t) (i : size_t) : outcome unit real_t :=
  match value r with
  | None => Done one_f
  | Some v => Vec.read v (Z.to_nat i)
  end.

Section SDot.
(** The weight type [V] with [static_cast<V>(0)], [+=] and [*]; the
    product is computed in [V], as it is for a floating [V] ([SDot_loops]
    takes the statements of the loops for any weight type). *)
Context {V : Type} (zero : V) (add : V → V → V) (mul : V → real_t → V).

(** The two loops of [SDot]: the final value of the local [sum]. *)
Definition SDot_sum (r : t) (weight : list V) (size : size_t) : outcome unit V :=
  match value r with
  | None =>
      for_loop (Z.to_nat (length r)) 0 (λ i sum,
        let* x := Vec.read (index r) i in
        let* _ := CHECK (x <? size) OutOfRange tt in
        let* w := Vec.read weight (Z.to_nat x) in
        Done (add sum w)) zero
  | Some value =>
      for_loop (Z.to_nat (length r)) 0 (λ i sum,
        let* x := Vec.read (index r) i in
        let* _ := CHECK (x <? size) OutOfRange tt in
        let* w := Vec.read weight (Z.to_nat x) in
        let* v := Vec.read value i in
        Done (add sum (mul w v))) zero
  end.

(** The sum the loops are written to compute: [weight[index[i]]] for a row
    without values, [weight[index[i]] * value[i]] for a row with values. *)
Definition weight_at (weight : list V) (x : Z) : V :=
  default zero (weight !! Z.to_nat x).

Definition weighted_sum (r : t) (weight : list V) : V :=
  match value r with
  | None => foldl (λ sum x, add sum (weight_at weight x)) zero (ids r)
  | Some v =>
      foldl (λ sum xv, add sum (mul (weight_at weight xv.1) xv.2)) zero (zip (ids r) v)
  end.

(** [SDot] itself: after the loops control reaches the closing brace of
    a function returning [V]; there is no [return] statement. *)
Definition SDot (r : t) (weight : list V) (size : size_t) : outcome unit V :=
  let* sum := SDot_sum r weight size in
  Undefined.
End SDot.
End Row.

(** A list of offsets that never goes down. *)
Definition nondecreasing (l : list Z) : Prop :=
  ∀ i j x y, (i ≤ j)%nat → l !! i = Some x → l !! j = Some y → x <= y.

(** ** [RowBlock<IndexType>] *)

Module RowBlock.
Record t := mk {
  size : size_t;
  offset : list size_t;
  label : list real_t;
  index : list Z;
  value : option (list real_t)
}.

(** Number of entries of the block, when [offset] has a slot for it. *)
Definition ndata (b : t) : Z := default 0 (offset b !! Z.to_nat (size b)).

(** The layout a block has: [offset] holds [size + 1] non-decreasing
    entries starting at 0, the other arrays hold what [offset] and [size]
    announce, feature ids are unsigned, and the [real_t] arrays lie in the
    address space. *)
Definition valid (b : t) : Prop :=
  0 <= size b ∧
  length (offset b) = Datatypes.S (Z.to_nat (size b)) ∧
  offset b !! 0%nat = Some 0 ∧
  nondecreasing (offset b) ∧
  (Z.to_nat (size b) ≤ length (label b))%nat ∧
  (Z.to_nat (ndata b) ≤ length (index b))%nat ∧
  Forall (λ x, 0 <= x) (index b) ∧
  (∀ v, value b = Some v → (Z.to_nat (ndata b) ≤ length v)%nat) ∧
  sizeof_real_t * size b < 2 ^ 64 ∧
  sizeof_real_t * ndata b < 2 ^ 64.

(** [operator[]]. *)
Definition subscript (b : t) (rowid : size_t) : outcome unit Row.t :=
  let* _ := CHECK (rowid <? size b) OutOfRange tt in
  let* lbl := Vec.read (label b) (Z.to_nat rowid) in
  let* hi := Vec.read (offset b) (Z.to_nat (wrap64 (rowid + 1))) in
  let* lo := Vec.read (offset b) (Z.to_nat rowid) in
  Done {| Row.label := lbl;
          Row.length := wrap64 (hi - lo);
          Row.index := drop (Z.to_nat lo) (index b);
          Row.value := drop (Z.to_nat lo) <$> value b |}.
End RowBlock.

(** ** The binary stream *)

Module Stream.
(** A stream is the sequence of its bytes: those written so far, or those
    still to be read. *)
Definition t := list Z.

(** [x] in [n] bytes, least significant byte first, and back. *)

Fixpoint le_bytes (n : nat) (x : Z) : list Z :=
  match n with
  | O => []
  | Datatypes.S n' => x mod 256 :: le_bytes n' (x / 256)
  end.

Fixpoint le_value (bs : list Z) : Z :=
  match bs with
  | [] => 0
  | b :: bs' => b + 256 * le_value bs'
  end.

Fixpoint decode (sz : nat) (n : nat) (bs : list Z) : list Z :=
  match n with
  | O => []
  | Datatypes.S n' => le_value (take sz bs) :: decode sz n' (drop sz bs)
  end.

(** Modelled from the spec: [Stream::Write] of a [std::vector<T>], of
    [dmlc/io.h], which is not among the sources. A vector is written as a
    length-prefixed sequence: a 64-bit element count, then the elements,
    each in [sz = sizeof(T)] bytes. *)
Definition Write (sz : Z) (vec : list Z) (fo : t) : t :=
  fo ++ le_bytes 8 (Vec.size vec) ++ mjoin (le_bytes (Z.to_nat sz) <$> vec).

(** Modelled from the spec: [Stream::Read] into a [std::vector<T>], of
    [dmlc/io.h], which is not among the sources. The count is read, then
    that many elements of [sz] bytes; the read fails ([None]) when the
    sequence cannot be fully read. *)
Definition Read (sz : Z) (fi : t) : option (list Z * t) :=
  if decide (8 ≤ length fi)%nat then
    let n := le_value (take 8 fi) in
    let body := drop 8 fi in
    if decide (n * sz <= Z.of_nat (length body)) then
      Some (decode (Z.to_nat sz) (Z.to_nat n) body, drop (Z.to_nat (n * sz)) body)
    else None
  else None.
End Stream.

(** ** [RowBlockContainer<IndexType>] *)

Module RowBlockContainer.
Record t := mk {
  offset : list size_t;
  label : list real_t;
  index : list Z;
  value : list real_t;
  max_index : Z
}.

Definition set_offset (c : t) (v : list size_t) : t :=
  {| offset := v; label := label c; index := index c; value := value c;
     max_index := max_index c |}.
Definition set_label (c : t) (v : list real_t) : t :=
  {| offset := offset c; label := v; index := index c; value := value c;
     max_index := max_index c |}.
Definition set_index (c : t) (v : list Z) : t :=
  {| offset := offset c; label := label c; index := v; value := value c;
     max_index := max_index c |}.
Definition set_value (c : t) (v : list real_t) : t :=
  {| offset := offset c; label := label c; index := index c; value := v;
     max_index := max_index c |}.
Definition set_max_index (c : t) (m : Z) : t :=
  {| offset := offset c; label := label c; index := index c; value := value c;
     max_index := m |}.

Definition Clear (c : t) : t :=
  {| offset := [0]; label := []; index := []; value := []; max_index := 0 |}.

Definition Size (c : t) : size_t := wrap64 (Vec.size (offset c) - 1).

Definition GetBlock (c : t) : outcome t RowBlock.t :=
  let* _ := CHECK (wrap64 (Vec.size (label c) + 1) =? Vec.size (offset c)) Inconsistent c in
  let* back := Vec.back (offset c) in
  let* _ := CHECK (back =? Vec.size (index c)) Inconsistent c in
  let* _ := CHECK ((back =? Vec.size (value c)) || (Vec.size (value c) =? 0))
                  Inconsistent c in
  Done {| RowBlock.size := wrap64 (Vec.size (offset c) - 1);
          RowBlock.offset := offset c;
          RowBlock.label := label c;
          RowBlock.index := index c;
          RowBlock.value := if Vec.size (value c) =? 0 then None else Some (value c) |}.

Section IndexType.
Context {IndexType : UnsignedType}.

(** One turn of the index loop shared by both [Push] overloads: the bound
    check and the narrowing cast. *)
Definition narrow (c : t) (x : Z) : outcome t Z :=
  let* _ := CHECK (x <? numeric_max IndexType) IndexOverflow c in
  Done (static_cast IndexType x).

(** The body of the index loop of [Push(Row<I>)]. *)
Definition push_index (src : list Z) (i : nat) (c : t) : outcome t t :=
  let* x := Vec.read src i in
  let* findex := narrow c x in
  let* index' := Vec.push_back c (index c) findex in
  Done (set_max_index (set_index c index') (Z.max (max_index c) findex)).

(** The body of the value loop of [Push(Row<I>)]. *)
Definition push_value (src : list Z) (i : nat) (c : t) : outcome t t :=
  let* v := Vec.read src i in
  let* value' := Vec.push_back c (value c) v in
  Done (set_value c value').

(** [Push(Row<I> row)]. *)
Definition Push (c : t) (row : Row.t) : outcome t t :=
  let* label' := Vec.push_back c (label c) (Row.label row) in
  let c := set_label c label' in
  let* c := for_loop (Z.to_nat (Row.length row)) 0 (push_index (Row.index row)) c in
  let* c := match Row.value row with
            | None => Done c
            | Some rvalue =>
                for_loop (Z.to_nat (Row.length row)) 0 (push_value rvalue) c
            end in
  let* offset' := Vec.push_back c (offset c) (Vec.size (index c)) in
  Done (set_offset c offset').

(** The body of the index loop of [Push(RowBlock<I>)]: [ihead[i] = findex]. *)
Definition copy_index (src : list Z) (ihead : nat) (i : nat) (c : t) : outcome t t :=
  let* x := Vec.read src i in
  let* findex := narrow c x in
  let* index' := Vec.store (index c) (ihead + i) findex in
  Done (set_max_index (set_index c index') (Z.max (max_index c) findex)).

(** The body of the offset loop of [Push(RowBlock<I>)]:
    [ohead[i] = shift + batch.offset[i + 1]]. *)
Definition copy_offset (src : list Z) (ohead : nat) (shift : Z) (i : nat) (c : t)
  : outcome t t :=
  let* o := Vec.read src (i + 1) in
  let* offset' := Vec.store (offset c) (ohead + i) (wrap64 (shift + o)) in
  Done (set_offset c offset').

(** [Push(RowBlock<I> batch)]. *)
Definition PushBlock (c : t) (batch : RowBlock.t) : outcome t t :=
  let size := Vec.size (label c) in
  let c := set_label c (Vec.resize (label c)
                          (wrap64 (Vec.size (label c) + RowBlock.size batch)) zero_f) in
  let* label' := Vec.memcpy (label c) (Z.to_nat size) (RowBlock.label batch)
                            (RowBlock.size batch) sizeof_real_t in
  let c := set_label c label' in
  let* ndata := Vec.read (RowBlock.offset batch) (Z.to_nat (RowBlock.size batch)) in
  let c := set_index c (Vec.resize (index c) (wrap64 (Vec.size (index c) + ndata)) 0) in
  let* ihead := Vec.back (offset c) in
  let* c := for_loop (Z.to_nat ndata) 0
              (copy_index (RowBlock.index batch) (Z.to_nat ihead)) c in
  let* c := match RowBlock.value batch with
            | None => Done c
            | Some bvalue =>
                let c := set_value c (Vec.resize (value c)
                                        (wrap64 (Vec.size (value c) + ndata)) zero_f) in
                let* value' := Vec.memcpy (value c) (Z.to_nat size) bvalue
                                          ndata sizeof_real_t in
                Done (set_value c value')
            end in
  let* shift := Vec.read (offset c) (Z.to_nat size) in
  let c := set_offset c (Vec.resize (offset c)
                           (wrap64 (Vec.size (offset c) + RowBlock.size batch)) 0) in
  for_loop (Z.to_nat (RowBlock.size batch)) 0
    (copy_offset (RowBlock.offset batch) (Z.to_nat size + 1) shift) c.

(** [Save(Stream *fo)]. *)
Definition Save (c : t) (fo : Stream.t) : Stream.t :=
  let fo := Stream.Write sizeof_size_t (offset c) fo in
  let fo := Stream.Write sizeof_real_t (label c) fo in
  let fo := Stream.Write (sizeof IndexType) (index c) fo in
  Stream.Write sizeof_real_t (value c) fo.

(** [CHECK(fi->Read(&vec)) << "Bad RowBlock format"]. *)
Definition checked_read (c : t) (sz : Z) (fi : Stream.t) : outcome t (list Z * Stream.t) :=
  match Stream.Read sz fi with
  | Some r => Done r
  | None => Fatal CorruptData c
  end.

(** [Load(Stream *fi)]. *)
Definition Load (c : t) (fi : Stream.t) : outcome t (t * Stream.t) :=
  let* (offset', fi) := checked_read c sizeof_size_t fi in
  let c := set_offset c offset' in
  let* (label', fi) := checked_read c sizeof_real_t fi in
  let c := set_label c label' in
  let* (value', fi) := checked_read c sizeof_real_t fi in
  let c := set_value c value' in
  let* (index', fi) := checked_read c (sizeof IndexType) fi in
  let c := set_index c index' in
  Done (c, fi).

(** The load that the stream format describes, with the four arrays read
    back in the order they are written: offset, label, index, value. It is
    what [Load] is compared with. *)
Definition Load_as_specified (c : t) (fi : Stream.t) : outcome t (t * Stream.t) :=
  let* (offset', fi) := checked_read c sizeof_size_t fi in
  let c := set_offset c offset' in
  let* (label', fi) := checked_read c sizeof_real_t fi in
  let c := set_label c label' in
  let* (index', fi) := checked_read c (sizeof IndexType) fi in
  let c := set_index c index' in
  let* (value', fi) := checked_read c sizeof_real_t fi in
  let c := set_value c value' in
  Done (c, fi).

(** Every entry is a value of the type of its array, and every array
    length is a [uint64_t]. *)
Definition storable (c : t) : Prop :=
  Forall (λ x, 0 <= x < 2 ^ 64) (offset c) ∧
  Forall (λ x, 0 <= x < 2 ^ 32) (label c) ∧
  Forall (λ x, 0 <= x < 2 ^ digits IndexType) (index c) ∧
  Forall (λ x, 0 <= x < 2 ^ 32) (value c) ∧
  Vec.size (offset c) < 2 ^ 64 ∧ Vec.size (label c) < 2 ^ 64 ∧
  Vec.size (index c) < 2 ^ 64 ∧ Vec.size (value c) < 2 ^ 64.
End IndexType.
End RowBlockContainer.

(** ** [BasicRowIter<IndexType>] *)

Module BasicRowIter.
(** The member [num_col] is declared but neither written nor read. *)
Record t := mk {
  at_head_ : bool;
  row_ : RowBlock.t;
  data_ : RowBlockContainer.t
}.

Definition BeforeFirst (it : t) : t :=
  {| at_head_ := true; row_ := row_ it; data_ := data_ it |}.

Definition Next (it : t) : bool * t :=
  if at_head_ it
  then (true, {| at_head_ := false; row_ := row_ it; data_ := data_ it |})
  else (false, it).

Definition Value (it : t) : RowBlock.t := row_ it.

(** [static_cast<size_t>(data_.max_index) + 1]. *)
Definition NumCol (it : t) : size_t :=
  wrap64 (RowBlockContainer.max_index (data_ it) + 1).

Section IndexType.
Context {IndexType : UnsignedType}.

(** The [while (parser->Next()) data_.Push(parser->Value());] loop, on the
    blocks the parser yields. *)
Fixpoint drain (parser : list RowBlock.t) (data : RowBlockContainer.t)
  : outcome RowBlockContainer.t RowBlockContainer.t :=
  match parser with
  | [] => Done data
  | batch :: parser' =>
      let* data := RowBlockContainer.PushBlock data batch in
      drain parser' data
  end.

(** [Init(parser)]; the timer and the log lines do not touch the iterator. *)
Definition Init (it : t) (parser : list RowBlock.t) : outcome RowBlockContainer.t t :=
  let data := RowBlockContainer.Clear (data_ it) in
  let* data := drain parser data in
  let* row := RowBlockContainer.GetBlock data in
  Done {| at_head_ := at_head_ it; row_ := row; data_ := data |}.

(** The constructor: [at_head_(true)], then [Init]. The members start
    out as [uninit] holds them. *)
Definition construct (uninit : t) (parser : list RowBlock.t) : outcome RowBlockContainer.t t :=
  Init {| at_head_ := true; row_ := row_ uninit; data_ := data_ uninit |} parser.
End IndexType.
End BasicRowIter.

(** ** Sequences of operations *)

Module Trace.
Import RowBlockContainer.

(** The mutating operations of a container. *)
Inductive op : Type :=
| OpClear
| OpPush (row : Row.t)
| OpPushBlock (batch : RowBlock.t).

Section IndexType.
Context {IndexType : UnsignedType}.

Definition step (c : t) (o : op) : outcome t t :=
  match o with
  | OpClear => Done (Clear c)
  | OpPush row => Push c row
  | OpPushBlock batch => PushBlock c batch
  end.

(** Runs the operations in order; the first one that does not return ends
    the run. *)
Fixpoint run (ops : list op) (c : t) : outcome t t :=
  match ops with
  | [] => Done c
  | o :: ops' => let* c' := step c o in run ops' c'
  end.
End IndexType.

(** The argument of a push is laid out as its type says. *)
Definition op_valid (o : op) : Prop :=
  match o with
  | OpClear => True
  | OpPush row => Row.valid row
  | OpPushBlock batch => RowBlock.valid batch
  end.

(** The same for blocks only. *)
Definition block_valid (o : op) : Prop :=
  match o with
  | OpPushBlock batch => RowBlock.valid batch
  | _ => True
  end.

Definition is_push (o : op) : Prop :=
  match o with
  | OpClear => False
  | _ => True
  end.

(** Does the operation hand over explicit values? [None] when it hands
    over no entry at all. *)
Definition op_has_value (o : op) : option bool :=
  match o with
  | OpClear => None
  | OpPush row => Some (bool_decide (is_Some (Row.value row)))
  | OpPushBlock batch => Some (bool_decide (is_Some (RowBlock.value batch)))
  end.

(** The feature ids an operation hands to the container. *)
Definition op_ids (o : op) : list Z :=
  match o with
  | OpClear => []
  | OpPush row => Row.ids row
  | OpPushBlock batch => take (Z.to_nat (RowBlock.ndata batch)) (RowBlock.index batch)
  end.

(** Every push hands over explicit values, or none does. *)
Definition uniform (ops : list op) : Prop :=
  ∃ hv : bool, Forall (λ o, ∀ h, op_has_value o = Some h → h = hv) ops.
End Trace.

(** The largest of the feature ids [l], 0 when there is none. *)
Definition max_id (l : list Z) : Z := foldr Z.max 0 l.

(** ** A block assembled from rows *)

(** The offsets of the rows laid out one after the other from [start]. *)
Fixpoint offsets_from (start : Z) (rows : list Row.t) : list Z :=
  match rows with
  | [] => []
  | r :: rows' =>
      (start + Row.length r) :: offsets_from (start + Row.length r) rows'
  end.

(** The block that holds the rows [rows] in order, with a value array when
    [hv] says so. *)
Definition assemble (hv : bool) (rows : list Row.t) : RowBlock.t :=
  {| RowBlock.size := Z.of_nat (length rows);
     RowBlock.offset := 0 :: offsets_from 0 rows;
     RowBlock.label := Row.label <$> rows;
     RowBlock.index := rows ≫= Row.ids;
     RowBlock.value :=
       if hv then Some (rows ≫= λ r, default [] (Row.vals r)) else None |}.

(** [n] calls of [Next] in a row: the answers, and the iterator after them. *)
Fixpoint Nexts (n : nat) (it : BasicRowIter.t) : list bool * BasicRowIter.t :=
  match n with
  | O => ([], it)
  | Datatypes.S n' =>
      let (b, it') := BasicRowIter.Next it in
      let (bs, it'') := Nexts n' it' in
      (b :: bs, it'')
  end.

(** ** Rows and blocks to try the operations on *)

(** Two rows with explicit values, the block that holds them, a row whose
    second feature id is the maximum of [index_t], and a container whose
    vectors are all empty. Labels and values are bit patterns. *)
Definition row_a : Row.t := Row.mk one_f 2 [1; 3] (Some [5; 6]).
Definition row_b : Row.t := Row.mk 7 1 [2] (Some [9]).
Definition block_ab : RowBlock.t :=
  RowBlock.mk 2 [0; 2; 3] [one_f; 7] [1; 3; 2] (Some [5; 6; 9]).
Definition row_overflow : Row.t := Row.mk one_f 2 [1; 4294967295] None.
Definition blank : RowBlockContainer.t := RowBlockContainer.mk [] [] [] [] 0.

(** The container after [row_b] and [block_ab] have been pushed. *)
Definition container_b_ab : RowBlockContainer.t :=
  RowBlockContainer.mk [0; 1; 3; 4] [7; one_f; 7] [2; 1; 3; 2] [9; 5; 6; 9] 3.

(** ** Closed forms of the results *)

Module Result.
Import RowBlockContainer.
(** No vector is longer than a vector can be. *)
Definition fits (c : t) : Prop :=
  Vec.size (offset c) <= Vec.max_size ∧ Vec.size (label c) <= Vec.max_size ∧
  Vec.size (index c) <= Vec.max_size ∧ Vec.size (value c) <= Vec.max_size.

(** What every push relies on and re-establishes. *)
Definition coherent (c : t) : Prop :=
  length (offset c) = Datatypes.S (length (label c)) ∧
  last (offset c) = Some (Vec.size (index c)) ∧
  (length (value c) ≤ length (index c))%nat ∧
  fits c.

(** [coherent], with [offset] starting at 0 and never going down. *)
Definition offsets_ok (c : t) : Prop :=
  coherent c ∧ offset c !! 0%nat = Some 0 ∧ nondecreasing (offset c).

(** [coherent], with a value for every index ([hv]) or no value at all. *)
Definition values_ok (hv : bool) (c : t) : Prop :=
  coherent c ∧ length (value c) = if hv then length (index c) else 0%nat.

Section IndexType.
Context {IndexType : UnsignedType}.

(** [coherent], with [max_index] an id that passed the bound check. *)
Definition max_index_ok (c : t) : Prop :=
  coherent c ∧ 0 <= max_index c < numeric_max IndexType.

(** The container after the ids [xs] have been narrowed and appended. *)
Definition append_ids (c : t) (xs : list Z) : t :=
  set_max_index (set_index c (index c ++ (static_cast IndexType <$> xs)))
                (foldl Z.max (max_index c) (static_cast IndexType <$> xs)).

(** The container after the ids [xs] have been narrowed and written from
    position [p] on. *)
Definition write_ids (c : t) (p : nat) (xs : list Z) : t :=
  set_max_index
    (set_index c (take p (index c) ++ (static_cast IndexType <$> xs)
                  ++ drop (p + length xs) (index c)))
    (foldl Z.max (max_index c) (static_cast IndexType <$> xs)).

(** The container after the offsets [os], each moved by [shift], have been
    written from position [p] on. *)
Definition write_offsets (c : t) (p : nat) (shift : Z) (os : list Z) : t :=
  set_offset c (take p (offset c) ++ ((λ o, wrap64 (shift + o)) <$> os)
                ++ drop (p + length os) (offset c)).

(** The container a successful [Push(Row)] returns. *)
Definition push_result (c : t) (row : Row.t) : t :=
  {| offset := offset c ++ [Vec.size (index c) + Z.of_nat (length (Row.ids row))];
     label := label c ++ [Row.label row];
     index := index c ++ (static_cast IndexType <$> Row.ids row);
     value := value c ++ default [] (Row.vals row);
     max_index := foldl Z.max (max_index c) (static_cast IndexType <$> Row.ids row) |}.

(** The container a successful [Push(RowBlock)] returns, when it starts
    from a container whose [offset] ends at the length of [index]. *)
Definition block_result (c : t) (b : RowBlock.t) : t :=
  let n := Z.to_nat (RowBlock.size b) in
  let nd := Z.to_nat (RowBlock.ndata b) in
  {| offset := offset c
               ++ ((λ o, Vec.size (index c) + o) <$> take n (drop 1 (RowBlock.offset b)));
     label := label c ++ take n (RowBlock.label b);
     index := index c ++ (static_cast IndexType <$> take nd (RowBlock.index b));
     value := match RowBlock.value b with
              | None => value c
              | Some bvalue =>
                  let v := value c ++ replicate nd zero_f in
                  take (length (label c)) v ++ take nd bvalue
                  ++ drop (length (label c) + nd) v
              end;
     max_index := foldl Z.max (max_index c)
                    (static_cast IndexType <$> take nd (RowBlock.index b)) |}.

(** The container after the rows [rows] have been pushed one by one. *)
Definition pushes_result (c : t) (rows : list Row.t) : t :=
  {| offset := offset c ++ offsets_from (Vec.size (index c)) rows;
     label := label c ++ (Row.label <$> rows);
     index := index c ++ (static_cast IndexType <$> (rows ≫= Row.ids));
     value := value c ++ (rows ≫= λ r, default [] (Row.vals r));
     max_index := foldl Z.max (max_index c)
                    (static_cast IndexType <$> (rows ≫= Row.ids)) |}.

(** The room [Push(Row)] needs in the four vectors. *)
Definition push_room (c : t) (row : Row.t) : Prop :=
  Vec.size (label c) < Vec.max_size ∧
  Vec.size (index c) + Row.length row <= Vec.max_size ∧
  Vec.size (value c) + Row.length row <= Vec.max_size ∧
  Vec.size (offset c) < Vec.max_size.
End IndexType.
End Result.

(** The row with every value written out as [1.0f], which is what an absent
    value array stands for. *)
Definition with_ones (r : Row.t) : Row.t :=
  {| Row.label := Row.label r; Row.length := Row.length r; Row.index := Row.index r;
     Row.value := Some (replicate (Z.to_nat (Row.length r)) one_f) |}.

(** The views [b[r]], [b[r + 1]], ..., [n] of them, and all views of a block:
    [for (size_t r = 0; r < b.size; ++r) b[r]]. *)
Fixpoint views_from (b : RowBlock.t) (r : Z) (n : nat) : outcome unit (list Row.t) :=
  match n with
  | O => Done []
  | Datatypes.S n' =>
      let* row := RowBlock.subscript b r in
      let* rows := views_from b (r + 1) n' in
      Done (row :: rows)
  end.

Definition views (b : RowBlock.t) : outcome unit (list Row.t) :=
  views_from b 0 (Z.to_nat (RowBlock.size b)).

(** ** [SDot] for any weight type, and for [float] weights *)

(** The loops of [SDot] with the two statements that update [sum] taken as
    they are written: [add sum w] is [sum += weight[index[i]]] and
    [add_product sum w v] is [sum += weight[index[i]] * value[i]]. For a
    floating weight type the product is computed in that type and the
    second is [add sum (mul w v)], as in [Row.SDot_sum]; for an integral
    weight type the product is a [float], [sum] is converted to [float] for
    the sum and the result is converted back, which is an operation of its
    own. *)
Definition SDot_loops {V : Type} (zero : V) (add : V → V → V)
    (add_product : V → V → real_t → V) (r : Row.t) (weight : list V) (size : size_t)
  : outcome unit V :=
  match Row.value r with
  | None =>
      for_loop (Z.to_nat (Row.length r)) 0 (λ i sum,
        let* x := Vec.read (Row.index r) i in
        let* _ := CHECK (x <? size) OutOfRange tt in
        let* w := Vec.read weight (Z.to_nat x) in
        Done (add sum w)) zero
  | Some value =>
      for_loop (Z.to_nat (Row.length r)) 0 (λ i sum,
        let* x := Vec.read (Row.index r) i in
        let* _ := CHECK (x <? size) OutOfRange tt in
        let* w := Vec.read weight (Z.to_nat x) in
        let* v := Vec.read value i in
        Done (add_product sum w v)) zero
  end.

(** A [float] (IEEE 754 binary32: 24 bits of precision, exponents below
    128) from its bit pattern, and the sum and the product of [float]s,
    rounded to nearest. *)
Definition float_of_bits (b : real_t) : SpecFloat.spec_float :=
  let s := Z.testbit b 31 in
  let e := (b / 2 ^ 23) mod 2 ^ 8 in
  let m := b mod 2 ^ 23 in
  if e =? 0 then
    if m =? 0 then SpecFloat.S754_zero s
    else SpecFloat.S754_finite s (Z.to_pos m) (-149)
  else if e =? 255 then
    if m =? 0 then SpecFloat.S754_infinity s else SpecFloat.S754_nan
  else SpecFloat.S754_finite s (Z.to_pos (m + 2 ^ 23)) (e - 150).

Definition float_add : SpecFloat.spec_float → SpecFloat.spec_float → SpecFloat.spec_float :=
  SpecFloat.SFadd 24 128.
Definition float_mul : SpecFloat.spec_float → SpecFloat.spec_float → SpecFloat.spec_float :=
  SpecFloat.SFmul 24 128.

(** [static_cast<float>(0)] and [sum += w * v] of [SDot<float>]. *)
Definition float_zero : SpecFloat.spec_float := SpecFloat.S754_zero false.
Definition float_add_product (sum w : SpecFloat.spec_float) (v : real_t)
  : SpecFloat.spec_float :=
  float_add sum (float_mul w (float_of_bits v)).

(** [7.0f]. *)
Definition seven_f : real_t := 0x40E00000.

(** ** What a sequence of operations hands over *)

(** The number of rows an operation hands to the container, and their
    labels. *)
Definition op_rows (o : Trace.op) : Z :=
  match o with
  | Trace.OpClear => 0
  | Trace.OpPush _ => 1
  | Trace.OpPushBlock batch => RowBlock.size batch
  end.

Definition op_labels (o : Trace.op) : list real_t :=
  match o with
  | Trace.OpClear => []
  | Trace.OpPush row => [Row.label row]
  | Trace.OpPushBlock batch => take (Z.to_nat (RowBlock.size batch)) (RowBlock.label batch)
  end.

(** The rows handed over since the last [Clear], [n] being the number
    before the operations. *)
Fixpoint rows_since_clear (n : Z) (ops : list Trace.op) : Z :=
  match ops with
  | [] => n
  | Trace.OpClear :: ops' => rows_since_clear 0 ops'
  | o :: ops' => rows_since_clear (n + op_rows o) ops'
  end.

(** The entries ([f] of each operation) handed over since the last [Clear],
    [acc] being those before the operations. *)
Fixpoint since_clear {A} (f : Trace.op → list A) (acc : list A) (ops : list Trace.op)
  : list A :=
  match ops with
  | [] => acc
  | Trace.OpClear :: ops' => since_clear f [] ops'
  | o :: ops' => since_clear f (acc ++ f o) ops'
  end.

(** What the pushes keep of [index] and [max_index]: every feature id held
    passed the bound check, and [max_index] is the largest of them. *)
Definition ids_ok {IndexType : UnsignedType} (c : RowBlockContainer.t) : Prop :=
  Result.coherent c ∧
  Forall (λ x, 0 <= x < numeric_max IndexType) (RowBlockContainer.index c) ∧
  RowBlockContainer.max_index c = max_id (RowBlockContainer.index c).

(** ** The progress report of the reading loops *)

(** [Init] of [BasicRowIter] and the reading-speed test run the same report
    in their [while (parser->Next())] loop: [bytes_expect] starts at
    [10UL << 20UL]; with [bytes_read] what the parser reports after a block,
    a line with [bytes_read >> 20UL] is logged when
    [bytes_read >= bytes_expect], and [bytes_expect] then grows by
    [10UL << 20UL]. The rate on the line is a quotient by the time elapsed
    and is left out. *)
Module Progress.
Definition ten_MB : size_t := Z.shiftl 10 20.

Record t := mk {
  bytes_expect : size_t;
  lines : list Z
}.

Definition start : t := {| bytes_expect := ten_MB; lines := [] |}.

(** One turn of the loop. *)
Definition report (st : t) (bytes_read : size_t) : t :=
  if bytes_expect st <=? bytes_read
  then {| bytes_expect := wrap64 (bytes_expect st + ten_MB);
          lines := lines st ++ [Z.shiftr bytes_read 20] |}
  else st.

(** The loop, on what the parser reports block after block. *)
Definition reports (reads : list size_t) : t := foldl report start reads.

(** No block moves [bytes_read] back, or forward by more than 10 MB. *)
Fixpoint paced (prev : Z) (reads : list size_t) : Prop :=
  match reads with
  | [] => True
  | r :: reads' => prev <= r <= prev + ten_MB ∧ paced r reads'
  end.
End Progress.

(** ** More rows, blocks and containers to try the operations on *)

(** The containers after [row_a], after [row_b], and after [row_a] and
    [row_b] have been pushed into a cleared container; the block that holds
    [row_b]; the container after that block has been pushed onto [row_a];
    a block without rows; a row without entries and the container that
    holds it; a block with the maximum of [index_t] as a feature id. *)
Definition container_a : RowBlockContainer.t :=
  RowBlockContainer.mk [0; 2] [one_f] [1; 3] [5; 6] 3.
Definition container_b : RowBlockContainer.t :=
  RowBlockContainer.mk [0; 1] [7] [2] [9] 2.
Definition container_ab : RowBlockContainer.t :=
  RowBlockContainer.mk [0; 2; 3] [one_f; 7] [1; 3; 2] [5; 6; 9] 3.
Definition block_b : RowBlock.t := RowBlock.mk 1 [0; 1] [7] [2] (Some [9]).
Definition container_a_block_b : RowBlockContainer.t :=
  RowBlockContainer.mk [0; 2; 3] [one_f; 7] [1; 3; 2] [5; 9; 0] 3.
Definition block_none : RowBlock.t := RowBlock.mk 0 [0] [] [] None.
Definition row_none : Row.t := Row.mk one_f 0 [] (Some []).
Definition container_none : RowBlockContainer.t :=
  RowBlockContainer.mk [0; 0] [one_f] [] [] 0.
Definition block_overflow : RowBlock.t :=
  RowBlock.mk 1 [0; 1] [one_f] [4294967295] None.

(** The container that [row_b] leaves when it is pushed before any
    [Clear], and the block that [container_b_ab] exports. *)
Definition container_b_unclear : RowBlockContainer.t :=
  RowBlockContainer.mk [1] [7] [2] [9] 2.
Definition block_b_ab : RowBlock.t :=
  RowBlock.mk 3 [0; 1; 3; 4] [7; one_f; 7] [2; 1; 3; 2] (Some [9; 5; 6; 9]).

(** A weight type to try [SDot] on: integers, a value counting as the
    multiple of [1.0f] it is. *)
Definition mul_Z (w : Z) (v : real_t) : Z := w * (v / one_f).

(** * Properties *)

(** ** Arithmetic of the machine types *)

Lemma wrap64_small z : 0 <= z < 2 ^ 64 → wrap64 z = z.
Proof. intros. unfold wrap64. by apply Z.mod_small. Qed.

Lemma wrap64_range z : 0 <= wrap64 z < 2 ^ 64.
Proof. unfold wrap64. apply Z.mod_pos_bound. lia. Qed.

Lemma wrap64_le z : 0 <= z → wrap64 z <= z.
Proof. intros. unfold wrap64. apply Z.mod_le; lia. Qed.

Lemma wrap64_ge_small z : 0 <= z → z <= wrap64 z → z < 2 ^ 64.
Proof. intros H0 Hle. pose proof (wrap64_range z). lia. Qed.

Lemma numeric_max_range (T : UnsignedType) : 0 < numeric_max T < 2 ^ 64.
Proof. destruct T; vm_compute; split; reflexivity. Qed.

Lemma static_cast_small (T : UnsignedType) x :
  0 <= x < numeric_max T → static_cast T x = x.
Proof.
  intros. unfold static_cast. apply Z.mod_small. unfold numeric_max in *. lia.
Qed.

Lemma static_cast_range (T : UnsignedType) x : 0 <= static_cast T x <= numeric_max T.
Proof.
  unfold static_cast, numeric_max.
  assert (0 < 2 ^ digits T) by (destruct T; reflexivity).
  pose proof (Z.mod_pos_bound x (2 ^ digits T)). lia.
Qed.

Lemma memcpy_count n : 0 <= n → sizeof_real_t * n < 2 ^ 64 →
  wrap64 (n * sizeof_real_t) / sizeof_real_t = n.
Proof.
  intros. unfold sizeof_real_t in *. rewrite wrap64_small by lia.
  by apply Z.div_mul.
Qed.

(** ** Outcomes *)

Lemma bind_Done {S A B} (m : outcome S A) (k : A → outcome S B) b :
  bind m k = Done b ↔ ∃ a, m = Done a ∧ k a = Done b.
Proof.
  destruct m; simpl; split; try naive_solver.
Qed.

Lemma CHECK_Done {S} (b : bool) c (s : S) u : CHECK b c s = Done u ↔ b = true.
Proof. destruct b, u; simpl; naive_solver. Qed.

Lemma read_Done {S A} (p : list A) i x :
  Vec.read (S := S) p i = Done x ↔ p !! i = Some x.
Proof. unfold Vec.read. destruct (p !! i); naive_solver. Qed.

Lemma back_Done {S A} (v : list A) x :
  Vec.back (S := S) v = Done x ↔ last v = Some x.
Proof. unfold Vec.back. destruct (last v); naive_solver. Qed.

Lemma store_Done {S A} (v : list A) i x v' :
  Vec.store (S := S) v i x = Done v' ↔ (i < length v)%nat ∧ v' = <[i := x]> v.
Proof. unfold Vec.store. case_decide; naive_solver. Qed.

Lemma push_back_Done {S A} (s : S) (v : list A) x v' :
  Vec.push_back s v x = Done v' ↔ Vec.size v < Vec.max_size ∧ v' = v ++ [x].
Proof.
  unfold Vec.push_back. destruct (Z.ltb_spec (Vec.size v) Vec.max_size); naive_solver lia.
Qed.

Lemma memcpy_Done {S} (dst : list Z) pos (src : list Z) n dst' :
  0 <= n → sizeof_real_t * n < 2 ^ 64 →
  Vec.memcpy (S := S) dst pos src n sizeof_real_t = Done dst' ↔
  (n = 0 ∧ dst' = dst) ∨
  (0 < n ∧ (pos + Z.to_nat n ≤ length dst)%nat ∧ (Z.to_nat n ≤ length src)%nat ∧
   dst' = take pos dst ++ take (Z.to_nat n) src ++ drop (pos + Z.to_nat n) dst).
Proof.
  intros H0 Hn. unfold Vec.memcpy. rewrite memcpy_count by done.
  repeat case_decide; naive_solver lia.
Qed.

Lemma for_loop_S {S St} n i (body : nat → St → outcome S St) st :
  for_loop (Datatypes.S n) i body st
  = let* st' := body i st in for_loop n (Datatypes.S i) body st'.
Proof. done. Qed.

Lemma for_loop_add {S St} n m i (body : nat → St → outcome S St) st :
  for_loop (n + m) i body st
  = let* st' := for_loop n i body st in for_loop m (i + n) body st'.
Proof.
  revert i st. induction n as [|n IH]; intros i st.
  - simpl. by rewrite Nat.add_0_r.
  - simpl. destruct (body i st) as [st'| |]; simpl; [|done..].
    rewrite IH. by replace (Datatypes.S i + n)%nat with (i + Datatypes.S n)%nat by lia.
Qed.

(** ** Lists *)

Lemma take_drop_S {A} (l : list A) n i x :
  l !! i = Some x →
  take (Datatypes.S n) (drop i l) = x :: take n (drop (Datatypes.S i) l).
Proof.
  intros Hx. rewrite (drop_S _ _ _ Hx). reflexivity.
Qed.

Lemma take_drop_None {A} (l : list A) n i :
  l !! i = None → take n (drop i l) = [].
Proof.
  intros Hx. apply lookup_ge_None in Hx. rewrite drop_ge by done. by destruct n.
Qed.

Lemma resize_length {A} (v : list A) n d :
  0 <= n → length (Vec.resize v n d) = Z.to_nat n.
Proof.
  intros. unfold Vec.resize. rewrite length_app, length_take, length_replicate. lia.
Qed.

Lemma resize_grow {A} (v : list A) n d :
  Vec.size v <= n → Vec.resize v n d = v ++ replicate (Z.to_nat n - length v) d.
Proof.
  unfold Vec.size, Vec.resize. intros. rewrite take_ge by lia. done.
Qed.

Lemma resize_same {A} (v : list A) d : Vec.resize v (Vec.size v) d = v.
Proof.
  rewrite resize_grow by lia. unfold Vec.size.
  replace (Z.to_nat (Z.of_nat (length v)) - length v)%nat with 0%nat by lia.
  apply app_nil_r.
Qed.

Lemma nondecreasing_app l k :
  nondecreasing l → nondecreasing k →
  (∀ x y, x ∈ l → y ∈ k → x <= y) → nondecreasing (l ++ k).
Proof.
  intros Hl Hk Hlk i j x y Hij Hi Hj.
  apply lookup_app_Some in Hi as [Hi|[Hil Hi]];
    apply lookup_app_Some in Hj as [Hj|[Hjl Hj]].
  - by eapply Hl.
  - eapply Hlk; by eapply list_elem_of_lookup_2.
  - apply lookup_lt_Some in Hj. lia.
  - eapply (Hk (i - length l)%nat (j - length l)%nat); [lia|done..].
Qed.

Lemma nondecreasing_le_last l x y :
  nondecreasing l → last l = Some y → x ∈ l → x <= y.
Proof.
  intros Hl Hy Hx. apply list_elem_of_lookup in Hx as [i Hi].
  rewrite last_lookup in Hy.
  eapply Hl; [|done..]. apply lookup_lt_Some in Hi. lia.
Qed.

(** The first entry that is not below a bound. *)
Lemma first_overflow (l : list Z) (m : Z) :
  Exists (λ x, m <= x) l →
  ∃ k x, l !! k = Some x ∧ m <= x ∧ Forall (λ y, y < m) (take k l).
Proof.
  induction l as [|y l IH]; intros Hex; [by apply Exists_nil in Hex|].
  destruct (decide (m <= y)) as [Hy|Hy].
  - exists 0%nat, y. by rewrite take_0.
  - apply Exists_cons in Hex as [?|Hex]; [done|].
    destruct (IH Hex) as (k & x & Hk & Hx & Hall).
    exists (Datatypes.S k), x. split_and!; [done..|].
    simpl. apply Forall_cons. split; [lia|done].
Qed.

(** ** Views: [Row] and [RowBlock] *)

(** C7. On a row whose arrays hold [length] entries, the value accessor
    returns at every position [0 <= i < length]: [1.0f] when the value
    array is absent, and [value[i]] when it is present. *)
Theorem get_value_total (r : Row.t) (i : size_t) :
  Row.valid r →
  0 <= i < Row.length r →
  match Row.value r with
  | None => Row.get_value r i = Done one_f
  | Some v => ∃ x, v !! Z.to_nat i = Some x ∧ Row.get_value r i = Done x
  end.
Proof.
  intros (Hlen & _ & _ & Hval) Hi. unfold Row.get_value.
  destruct (Row.value r) as [v|]; [|done].
  specialize (Hval v eq_refl).
  destruct (lookup_lt_is_Some_2 v (Z.to_nat i)) as [x Hx]; [lia|].
  exists x. unfold Vec.read. by rewrite Hx.
Qed.

Lemma get_value_total_witness :
  match Row.value (Row.mk one_f 2 [1; 3] (Some [5; 6])) with
  | None => Row.get_value (Row.mk one_f 2 [1; 3] (Some [5; 6])) 1 = Done one_f
  | Some v => ∃ x, v !! Z.to_nat 1 = Some x
                   ∧ Row.get_value (Row.mk one_f 2 [1; 3] (Some [5; 6])) 1 = Done x
  end.
Proof.
  apply (get_value_total (Row.mk one_f 2 [1; 3] (Some [5; 6])) 1).
  - repeat split; simpl; try lia.
    + repeat constructor; lia.
    + intros v [= <-]. simpl. lia.
  - simpl. lia.
Defined.

(** C8. On a block laid out as [RowBlock.valid] says, [operator[]] at a
    row id [r < size] returns the view with [label[r]], length
    [offset[r+1] - offset[r]], and the index and value arrays entered at
    [offset[r]] (an absent value array stays absent); at [r >= size] it
    stops with OutOfRange. The accessor is a function of the block alone
    and returns nothing but the view. *)
Theorem subscript_spec (b : RowBlock.t) (r : size_t) :
  RowBlock.valid b →
  0 <= r →
  (r < RowBlock.size b →
     ∃ lbl lo hi,
       RowBlock.label b !! Z.to_nat r = Some lbl ∧
       RowBlock.offset b !! Z.to_nat r = Some lo ∧
       RowBlock.offset b !! Z.to_nat (r + 1) = Some hi ∧
       0 <= lo <= hi ∧
       RowBlock.subscript b r =
         Done {| Row.label := lbl;
                 Row.length := hi - lo;
                 Row.index := drop (Z.to_nat lo) (RowBlock.index b);
                 Row.value := drop (Z.to_nat lo) <$> RowBlock.value b |}) ∧
  (RowBlock.size b <= r → RowBlock.subscript b r = Fatal OutOfRange tt).
Proof.
  intros (Hsz & Hoff & H0 & Hmono & Hlab & _ & _ & _ & Hs64 & Hnd) Hr.
  unfold sizeof_real_t in *. split.
  - intros Hlt. unfold RowBlock.subscript.
    destruct (lookup_lt_is_Some_2 (RowBlock.label b) (Z.to_nat r)) as [lbl Hl]; [lia|].
    destruct (lookup_lt_is_Some_2 (RowBlock.offset b) (Z.to_nat r)) as [lo Hlo]; [lia|].
    destruct (lookup_lt_is_Some_2 (RowBlock.offset b) (Z.to_nat (r + 1))) as [hi Hhi]; [lia|].
    destruct (lookup_lt_is_Some_2 (RowBlock.offset b) (Z.to_nat (RowBlock.size b)))
      as [nd Hz]; [lia|].
    assert (Hle : lo <= hi) by (eapply (Hmono (Z.to_nat r) (Z.to_nat (r + 1))); [lia|done..]).
    assert (H0lo : 0 <= lo) by (eapply (Hmono 0%nat (Z.to_nat r)); [lia|done..]).
    assert (Hhi64 : hi <= nd).
    { eapply (Hmono (Z.to_nat (r + 1)) (Z.to_nat (RowBlock.size b))); [lia|done..]. }
    unfold RowBlock.ndata in Hnd. rewrite Hz in Hnd. simpl in Hnd.
    exists lbl, lo, hi. repeat split; try done.
    rewrite <- (wrap64_small (r + 1)) in Hhi by lia.
    unfold CHECK. destruct (Z.ltb_spec r (RowBlock.size b)); [|lia]. simpl.
    apply read_Done in Hl as ->, Hhi as ->, Hlo as ->. simpl.
    by rewrite wrap64_small by lia.
  - intros Hge. unfold RowBlock.subscript, CHECK.
    destruct (Z.ltb_spec r (RowBlock.size b)); [lia|]. done.
Qed.

Lemma subscript_spec_witness :
  (1 < RowBlock.size (RowBlock.mk 2 [0; 2; 3] [one_f; 7] [1; 3; 2] (Some [5; 6; 9])) →
     ∃ lbl lo hi,
       [one_f; 7] !! Z.to_nat 1 = Some lbl ∧
       [0; 2; 3] !! Z.to_nat 1 = Some lo ∧
       [0; 2; 3] !! Z.to_nat (1 + 1) = Some hi ∧
       0 <= lo <= hi ∧
       RowBlock.subscript (RowBlock.mk 2 [0; 2; 3] [one_f; 7] [1; 3; 2] (Some [5; 6; 9])) 1 =
         Done {| Row.label := lbl;
                 Row.length := hi - lo;
                 Row.index := drop (Z.to_nat lo) [1; 3; 2];
                 Row.value := drop (Z.to_nat lo) <$> Some [5; 6; 9] |}) ∧
  (RowBlock.size (RowBlock.mk 2 [0; 2; 3] [one_f; 7] [1; 3; 2] (Some [5; 6; 9])) <= 1 →
     RowBlock.subscript (RowBlock.mk 2 [0; 2; 3] [one_f; 7] [1; 3; 2] (Some [5; 6; 9])) 1
     = Fatal OutOfRange tt).
Proof.
  apply (subscript_spec (RowBlock.mk 2 [0; 2; 3] [one_f; 7] [1; 3; 2] (Some [5; 6; 9])) 1).
  - unfold RowBlock.valid, RowBlock.ndata. simpl. repeat split; try lia.
    + intros [|[|[|i]]] [|[|[|j]]] x y; simpl; intros; simplify_eq; lia.
    + repeat constructor; lia.
    + intros v [= <-]. simpl. lia.
  - lia.
Defined.

(** ** The loops of [SDot] *)

Section SDotLoops.
Context {V : Type} (zero : V) (add : V → V → V) (mul : V → Z → V).

Lemma SDot_plain_loop (idx : list Z) (weight : list V) (size : Z) n i acc :
  (i + n ≤ length idx)%nat →
  Forall (λ x, 0 <= x < size) (take n (drop i idx)) →
  (Z.to_nat size ≤ length weight)%nat →
  for_loop (S := unit) n i (λ i sum,
    let* x := Vec.read idx i in
    let* _ := CHECK (x <? size) OutOfRange tt in
    let* w := Vec.read weight (Z.to_nat x) in
    Done (add sum w)) acc
  = Done (foldl (λ sum x, add sum (Row.weight_at zero weight x)) acc (take n (drop i idx))).
Proof.
  revert i acc. induction n as [|n IH]; intros i acc Hlen Hall Hw; [done|].
  destruct (lookup_lt_is_Some_2 idx i) as [x Hx]; [lia|].
  rewrite (take_drop_S _ _ _ _ Hx) in Hall |- *.
  apply Forall_cons in Hall as [Hxr Hall].
  destruct (lookup_lt_is_Some_2 weight (Z.to_nat x)) as [w Hwx]; [lia|].
  rewrite for_loop_S. rewrite (proj2 (read_Done _ _ _) Hx). cbn [bind].
  unfold CHECK. destruct (Z.ltb_spec x size); [|lia]. cbn [bind].
  rewrite (proj2 (read_Done _ _ _) Hwx). cbn [bind].
  rewrite IH by (done || lia). simpl. unfold Row.weight_at. by rewrite Hwx.
Qed.

Lemma SDot_valued_loop (idx val : list Z) (weight : list V) (size : Z) n i acc :
  (i + n ≤ length idx)%nat → (i + n ≤ length val)%nat →
  Forall (λ x, 0 <= x < size) (take n (drop i idx)) →
  (Z.to_nat size ≤ length weight)%nat →
  for_loop (S := unit) n i (λ i sum,
    let* x := Vec.read idx i in
    let* _ := CHECK (x <? size) OutOfRange tt in
    let* w := Vec.read weight (Z.to_nat x) in
    let* v := Vec.read val i in
    Done (add sum (mul w v))) acc
  = Done (foldl (λ sum xv, add sum (mul (Row.weight_at zero weight xv.1) xv.2)) acc
            (zip (take n (drop i idx)) (drop i val))).
Proof.
  revert i acc. induction n as [|n IH]; intros i acc Hlen Hlenv Hall Hw; [done|].
  destruct (lookup_lt_is_Some_2 idx i) as [x Hx]; [lia|].
  destruct (lookup_lt_is_Some_2 val i) as [v Hv]; [lia|].
  rewrite (take_drop_S _ _ _ _ Hx) in Hall |- *.
  apply Forall_cons in Hall as [Hxr Hall].
  destruct (lookup_lt_is_Some_2 weight (Z.to_nat x)) as [w Hwx]; [lia|].
  rewrite for_loop_S. rewrite (proj2 (read_Done _ _ _) Hx). cbn [bind].
  unfold CHECK. destruct (Z.ltb_spec x size); [|lia]. cbn [bind].
  rewrite (proj2 (read_Done _ _ _) Hwx). cbn [bind].
  rewrite (proj2 (read_Done _ _ _) Hv). cbn [bind].
  rewrite IH by (done || lia). rewrite (drop_S _ _ _ Hv). simpl.
  unfold Row.weight_at. by rewrite Hwx.
Qed.

(** What the loops of [SDot] do on a row laid out as rows are, with a
    weight vector of at least [size] entries: with every feature id below
    [size] they finish with the weighted sum in [sum]; with a feature id
    that is not below [size] they stop with OutOfRange. *)
Lemma SDot_sum_spec (r : Row.t) (weight : list V) (size : Z) :
  Row.valid r → (Z.to_nat size ≤ length weight)%nat →
  (Forall (λ x, x < size) (Row.ids r) →
     Row.SDot_sum zero add mul r weight size
     = Done (Row.weighted_sum zero add mul r weight)) ∧
  (Exists (λ x, size <= x) (Row.ids r) →
     Row.SDot_sum zero add mul r weight size = Fatal OutOfRange tt).
Proof.
  intros (Hlen & Hidx & Hpos & Hval) Hw.
  assert (Hrange : ∀ k, (k ≤ Z.to_nat (Row.length r))%nat →
            Forall (λ x, x < size) (take k (Row.ids r)) →
            Forall (λ x, 0 <= x < size) (take k (drop 0 (Row.index r)))).
  { intros k Hk Hall. unfold Row.ids in Hall.
    rewrite take_take, Nat.min_l in Hall by done. rewrite drop_0.
    apply Forall_and. split; [by apply Forall_take|done]. }
  split.
  - intros Hall. rewrite <- (take_ge (Row.ids r) (Z.to_nat (Row.length r))) in Hall
      by (unfold Row.ids; rewrite length_take; lia).
    apply Hrange in Hall; [|done].
    unfold Row.SDot_sum, Row.weighted_sum, Row.ids.
    destruct (Row.value r) as [v|].
    + rewrite SDot_valued_loop; [by rewrite !drop_0|simpl; lia| |done..].
      simpl. by apply Hval.
    + rewrite SDot_plain_loop; [by rewrite drop_0|simpl; lia|done..].
  - intros Hex. destruct (first_overflow _ _ Hex) as (k & x & Hk & Hx & Hall).
    pose proof (lookup_lt_Some _ _ _ Hk) as Hklt.
    unfold Row.ids in Hk, Hklt. rewrite length_take in Hklt.
    apply lookup_take_Some in Hk as [Hk _].
    apply Hrange in Hall; [|lia].
    unfold Row.SDot_sum.
    replace (Z.to_nat (Row.length r))
      with (k + Datatypes.S (Z.to_nat (Row.length r) - Datatypes.S k))%nat by lia.
    destruct (Row.value r) as [v|].
    + rewrite for_loop_add, SDot_valued_loop; [|simpl; lia| |done..].
      * cbn [bind]. rewrite for_loop_S. simpl.
        rewrite (proj2 (read_Done _ _ _) Hk). cbn [bind]. unfold CHECK.
        destruct (Z.ltb_spec x size); [lia|done].
      * specialize (Hval v eq_refl). simpl. lia.
    + rewrite for_loop_add, SDot_plain_loop; [|simpl; lia|done..].
      cbn [bind]. rewrite for_loop_S. simpl.
      rewrite (proj2 (read_Done _ _ _) Hk). cbn [bind]. unfold CHECK.
      destruct (Z.ltb_spec x size); [lia|done].
Qed.
End SDotLoops.

(** C6. [SDot] accumulates the weighted sum in its local [sum] and checks
    every feature id against the bound, but control then reaches the end of
    the function without a [return]: on the row with the single id 0 and no
    value array, and a weight vector of length 1, the loops finish with
    [sum = 0 + weight[0]] and the call itself has no defined result. *)
Theorem SDot_has_no_return {V : Type} (zero : V) (add : V → V → V) (mul : V → Z → V)
    (w : V) :
  Row.SDot_sum zero add mul (Row.mk one_f 1 [0] None) [w] 1 = Done (add zero w) ∧
  Row.SDot zero add mul (Row.mk one_f 1 [0] None) [w] 1 = Undefined.
Proof. split; reflexivity. Qed.

(** No call of [SDot] returns a value. *)
Lemma SDot_never_Done {V : Type} (zero : V) (add : V → V → V) (mul : V → Z → V)
    (r : Row.t) (weight : list V) (size : size_t) (v : V) :
  Row.SDot zero add mul r weight size ≠ Done v.
Proof.
  unfold Row.SDot. by destruct (Row.SDot_sum zero add mul r weight size).
Qed.

(** ** The drain iterator *)

Lemma Nexts_at_tail (n : nat) (it : BasicRowIter.t) :
  BasicRowIter.at_head_ it = false → Nexts n it = (replicate n false, it).
Proof.
  intros Hit. induction n as [|n IH]; [done|].
  simpl. unfold BasicRowIter.Next. rewrite Hit. by rewrite IH.
Qed.

Lemma Nexts_at_head (n : nat) (it : BasicRowIter.t) :
  BasicRowIter.at_head_ it = true →
  (Nexts (Datatypes.S n) it).1 = true :: replicate n false ∧
  BasicRowIter.Value (Nexts (Datatypes.S n) it).2 = BasicRowIter.Value it.
Proof.
  intros Hit. simpl. unfold BasicRowIter.Next. rewrite Hit.
  by rewrite Nexts_at_tail.
Qed.

Lemma construct_at_head {IndexType : UnsignedType} uninit parser it :
  BasicRowIter.construct uninit parser = Done it → BasicRowIter.at_head_ it = true.
Proof.
  unfold BasicRowIter.construct, BasicRowIter.Init. simpl.
  destruct (BasicRowIter.drain _ _) as [data| |]; simpl; [|done..].
  destruct (RowBlockContainer.GetBlock data) as [row| |]; simpl; [|done..].
  by intros [= <-].
Qed.

(** C10. After the constructor has returned, and after every call of
    [BeforeFirst], the first [Next] answers [true] and all later ones
    answer [false], and the block handed out stays the same; on an input
    without any block the constructor returns and the block of the single
    pass has no row. *)
Theorem Next_true_exactly_once {IndexType : UnsignedType} :
  (∀ uninit parser it n,
     BasicRowIter.construct uninit parser = Done it →
     (Nexts (Datatypes.S n) it).1 = true :: replicate n false ∧
     BasicRowIter.Value (Nexts (Datatypes.S n) it).2 = BasicRowIter.Value it) ∧
  (∀ it n,
     (Nexts (Datatypes.S n) (BasicRowIter.BeforeFirst it)).1 = true :: replicate n false ∧
     BasicRowIter.Value (Nexts (Datatypes.S n) (BasicRowIter.BeforeFirst it)).2
     = BasicRowIter.Value it) ∧
  (∀ uninit, ∃ it,
     BasicRowIter.construct uninit [] = Done it ∧
     RowBlock.size (BasicRowIter.Value it) = 0).
Proof.
  split; [|split].
  - intros uninit parser it n Hit. apply Nexts_at_head. by eapply construct_at_head.
  - intros it n. by apply (Nexts_at_head n (BasicRowIter.BeforeFirst it)).
  - intros uninit. eexists. split; reflexivity.
Qed.

Lemma Next_true_exactly_once_witness :
  (Nexts 3 (BasicRowIter.mk true
              (RowBlock.mk 1 [0; 1] [one_f] [5] None)
              (RowBlockContainer.mk [0; 1] [one_f] [5] [] 5))).1
  = [true; false; false].
Proof.
  apply (proj1 (Next_true_exactly_once (IndexType := index_t))
           (BasicRowIter.mk false (RowBlock.mk 0 [] [] [] None)
              (RowBlockContainer.mk [] [] [] [] 0))
           [RowBlock.mk 1 [0; 1] [one_f] [5] None]
           (BasicRowIter.mk true
              (RowBlock.mk 1 [0; 1] [one_f] [5] None)
              (RowBlockContainer.mk [0; 1] [one_f] [5] [] 5))
           2%nat).
  vm_compute. reflexivity.
Defined.

(** ** The loops of the two pushes *)

Section Loops.
Import RowBlockContainer Result.
Context {IndexType : UnsignedType}.

Lemma set_index_id c : set_max_index (set_index c (index c ++ [])) (max_index c) = c.
Proof. destruct c. unfold set_max_index, set_index. simpl. by rewrite app_nil_r. Qed.

Ltac outcome_iff :=
  repeat setoid_rewrite bind_Done;
  repeat first
    [ setoid_rewrite read_Done | setoid_rewrite CHECK_Done
    | setoid_rewrite push_back_Done | setoid_rewrite store_Done
    | setoid_rewrite back_Done | setoid_rewrite Z.ltb_lt ].

Lemma push_index_Done src i c c1 :
  push_index src i c = Done c1 ↔
  ∃ x, src !! i = Some x ∧ x < numeric_max IndexType ∧
       Vec.size (index c) < Vec.max_size ∧ c1 = append_ids c [x].
Proof.
  unfold push_index. outcome_iff. unfold append_ids. simpl. naive_solver.
Qed.

Lemma push_index_loop src n i c c' :
  for_loop n i (push_index src) c = Done c' ↔
  length (take n (drop i src)) = n ∧
  Forall (λ x, x < numeric_max IndexType) (take n (drop i src)) ∧
  (n = 0%nat ∨ Vec.size (index c) + Z.of_nat n <= Vec.max_size) ∧
  c' = append_ids c (take n (drop i src)).
Proof.
  revert i c c'. induction n as [|n IH]; intros i c c'.
  - simpl. unfold append_ids. simpl. rewrite set_index_id. naive_solver.
  - rewrite for_loop_S, bind_Done. setoid_rewrite push_index_Done. setoid_rewrite IH.
    destruct (src !! i) as [x|] eqn:Hx.
    + rewrite (take_drop_S _ _ _ _ Hx). simpl. rewrite Forall_cons.
      assert (Happ : ∀ xs, append_ids (append_ids c [x]) xs = append_ids c (x :: xs)).
      { intros xs. unfold append_ids. simpl. by rewrite <- app_assoc. }
      assert (Hsz : Vec.size (index (append_ids c [x])) = Vec.size (index c) + 1).
      { unfold append_ids, Vec.size. simpl. rewrite length_app. simpl. lia. }
      split.
      * intros (c1 & (x' & [= <-] & Hlt & Hroom1 & ->) & Hlen & Hall & Hroom & ->).
        rewrite Hsz in Hroom. rewrite Happ.
        split_and!; [by f_equal|done|done|right; lia|done].
      * intros (Hlen & (Hlt & Hall) & Hroom & ->).
        exists (append_ids c [x]). rewrite Hsz, Happ.
        split_and!; [exists x; split_and!; [done|done|lia|done] |lia|done| |done].
        destruct n; [by left|right; lia].
    + rewrite (take_drop_None _ _ _ Hx). simpl. naive_solver.
Qed.

Lemma push_value_Done src i c c1 :
  push_value src i c = Done c1 ↔
  ∃ x, src !! i = Some x ∧ Vec.size (value c) < Vec.max_size ∧
       c1 = set_value c (value c ++ [x]).
Proof. unfold push_value. outcome_iff. naive_solver. Qed.

Lemma set_value_id c : set_value c (value c ++ []) = c.
Proof. destruct c. unfold set_value. simpl. by rewrite app_nil_r. Qed.

Lemma push_value_loop src n i c c' :
  for_loop n i (push_value src) c = Done c' ↔
  length (take n (drop i src)) = n ∧
  (n = 0%nat ∨ Vec.size (value c) + Z.of_nat n <= Vec.max_size) ∧
  c' = set_value c (value c ++ take n (drop i src)).
Proof.
  revert i c c'. induction n as [|n IH]; intros i c c'.
  - simpl. rewrite set_value_id. naive_solver.
  - rewrite for_loop_S, bind_Done. setoid_rewrite push_value_Done. setoid_rewrite IH.
    destruct (src !! i) as [x|] eqn:Hx.
    + rewrite (take_drop_S _ _ _ _ Hx). simpl.
      assert (Happ : ∀ xs, set_value (set_value c (value c ++ [x]))
                             (value (set_value c (value c ++ [x])) ++ xs)
                           = set_value c (value c ++ x :: xs)).
      { intros xs. unfold set_value. simpl. by rewrite <- app_assoc. }
      assert (Hsz : Vec.size (value (set_value c (value c ++ [x])))
                    = Vec.size (value c) + 1).
      { unfold Vec.size. simpl. rewrite length_app. simpl. lia. }
      split.
      * intros (c1 & (x' & [= <-] & Hroom1 & ->) & Hlen & Hroom & ->).
        rewrite Hsz in Hroom. rewrite Happ.
        split_and!; [by f_equal|right; lia|done].
      * intros (Hlen & Hroom & ->).
        exists (set_value c (value c ++ [x])). rewrite Hsz, Happ.
        split_and!; [exists x; split_and!; [done|lia|done] |lia| |done].
        destruct n; [by left|right; lia].
    + rewrite (take_drop_None _ _ _ Hx). simpl. naive_solver.
Qed.

Lemma copy_index_Done src p i c c1 :
  copy_index src p i c = Done c1 ↔
  ∃ x, src !! i = Some x ∧ x < numeric_max IndexType ∧
       (p + i < length (index c))%nat ∧ c1 = write_ids c (p + i) [x].
Proof.
  unfold copy_index. outcome_iff. unfold write_ids. simpl.
  split.
  - intros (x & Hx & y & (_ & Hlt & [= <-]) & idx & (Hp & ->) & [= <-]).
    exists x. split_and!; [done..|].
    rewrite insert_take_drop by done.
    by replace (p + i + 1)%nat with (Datatypes.S (p + i)) by lia.
  - intros (x & Hx & Hlt & Hp & ->).
    exists x. split; [done|]. eexists. split; [by exists tt|].
    eexists. split; [done|].
    rewrite insert_take_drop by done.
    by replace (p + i + 1)%nat with (Datatypes.S (p + i)) by lia.
Qed.

Lemma write_ids_nil c p : (p ≤ length (index c))%nat → write_ids c p [] = c.
Proof.
  intros. destruct c. unfold write_ids, set_max_index, set_index. simpl.
  by rewrite Nat.add_0_r, take_drop.
Qed.

Lemma write_ids_cons c p x xs :
  (p < length (index c))%nat →
  write_ids (write_ids c p [x]) (Datatypes.S p) xs = write_ids c p (x :: xs).
Proof.
  intros Hp. unfold write_ids. simpl.
  set (y := static_cast IndexType x). set (ys := static_cast IndexType <$> xs).
  set (l := index c) in *.
  assert (Hlen : length (take p l) = p) by (rewrite length_take; lia).
  assert (Ht : take (Datatypes.S p) (take p l ++ y :: drop (p + 1) l) = take p l ++ [y]).
  { rewrite take_app_ge by lia. rewrite Hlen.
    replace (Datatypes.S p - p)%nat with 1%nat by lia. simpl. by rewrite take_0. }
  assert (Hd : drop (Datatypes.S (p + length xs)) (take p l ++ y :: drop (p + 1) l)
               = drop (p + Datatypes.S (length xs)) l).
  { rewrite drop_app_ge by lia. rewrite Hlen.
    replace (Datatypes.S (p + length xs) - p)%nat with (Datatypes.S (length xs)) by lia.
    simpl. rewrite drop_drop. f_equal. lia. }
  rewrite Ht, Hd, <- app_assoc. done.
Qed.

Lemma write_ids_length c p xs :
  (p + length xs ≤ length (index c))%nat →
  length (index (write_ids c p xs)) = length (index c).
Proof.
  intros. unfold write_ids. simpl.
  rewrite !length_app, length_take, length_fmap, length_drop. lia.
Qed.

Lemma copy_index_loop src p n i c c' :
  for_loop n i (copy_index src p) c = Done c' ↔
  length (take n (drop i src)) = n ∧
  Forall (λ x, x < numeric_max IndexType) (take n (drop i src)) ∧
  (n = 0%nat ∨ p + i + n ≤ length (index c))%nat ∧
  (n = 0%nat → c' = c) ∧
  (n ≠ 0%nat → c' = write_ids c (p + i) (take n (drop i src))).
Proof.
  revert i c c'. induction n as [|n IH]; intros i c c'.
  - simpl. naive_solver.
  - rewrite for_loop_S, bind_Done. setoid_rewrite copy_index_Done. setoid_rewrite IH.
    destruct (src !! i) as [x|] eqn:Hx.
    + rewrite (take_drop_S _ _ _ _ Hx). simpl. rewrite Forall_cons.
      split.
      * intros (c1 & (x' & [= <-] & Hlt & Hp & ->) & Hlen & Hall & Hroom & H0 & Hn).
        rewrite write_ids_length in Hroom by (simpl; lia).
        split_and!; [by f_equal|done|done|right; lia|done|].
        intros _. destruct n as [|n].
        -- rewrite (H0 eq_refl). by destruct (drop _ _).
        -- rewrite Hn by done.
           replace (p + Datatypes.S i)%nat with (Datatypes.S (p + i)) by lia.
           by rewrite write_ids_cons.
      * intros (Hlen & (Hlt & Hall) & Hroom & _ & Hn).
        exists (write_ids c (p + i) [x]).
        rewrite write_ids_length by (simpl; lia).
        split_and!.
        -- exists x. split_and!; [done|done|lia|done].
        -- lia.
        -- done.
        -- destruct n; [by left|right; lia].
        -- intros ->. rewrite Hn by done. by destruct (drop _ _).
        -- intros Hn0. rewrite Hn by done.
           replace (p + Datatypes.S i)%nat with (Datatypes.S (p + i)) by lia.
           rewrite write_ids_cons; [done|lia].
    + rewrite (take_drop_None _ _ _ Hx). simpl. naive_solver.
Qed.

Lemma copy_offset_Done src p shift i c c1 :
  copy_offset src p shift i c = Done c1 ↔
  ∃ o, src !! (i + 1)%nat = Some o ∧ (p + i < length (offset c))%nat ∧
       c1 = write_offsets c (p + i) shift [o].
Proof.
  unfold copy_offset. outcome_iff. unfold write_offsets. simpl.
  split.
  - intros (o & Ho & off & (Hp & ->) & [= <-]).
    exists o. split_and!; [done..|].
    rewrite insert_take_drop by done.
    by replace (p + i + 1)%nat with (Datatypes.S (p + i)) by lia.
  - intros (o & Ho & Hp & ->).
    exists o. split; [done|]. eexists. split; [done|].
    rewrite insert_take_drop by done.
    by replace (p + i + 1)%nat with (Datatypes.S (p + i)) by lia.
Qed.

Lemma write_offsets_cons c p shift o os :
  (p < length (offset c))%nat →
  write_offsets (write_offsets c p shift [o]) (Datatypes.S p) shift os
  = write_offsets c p shift (o :: os).
Proof.
  intros Hp. unfold write_offsets. simpl.
  set (y := wrap64 (shift + o)). set (ys := (λ o, wrap64 (shift + o)) <$> os).
  set (l := offset c) in *.
  assert (Hlen : length (take p l) = p) by (rewrite length_take; lia).
  assert (Ht : take (Datatypes.S p) (take p l ++ y :: drop (p + 1) l) = take p l ++ [y]).
  { rewrite take_app_ge by lia. rewrite Hlen.
    replace (Datatypes.S p - p)%nat with 1%nat by lia. simpl. by rewrite take_0. }
  assert (Hd : drop (Datatypes.S (p + length os)) (take p l ++ y :: drop (p + 1) l)
               = drop (p + Datatypes.S (length os)) l).
  { rewrite drop_app_ge by lia. rewrite Hlen.
    replace (Datatypes.S (p + length os) - p)%nat with (Datatypes.S (length os)) by lia.
    simpl. rewrite drop_drop. f_equal. lia. }
  rewrite Ht, Hd, <- app_assoc. done.
Qed.

Lemma write_offsets_length c p shift os :
  (p + length os ≤ length (offset c))%nat →
  length (offset (write_offsets c p shift os)) = length (offset c).
Proof.
  intros. unfold write_offsets. simpl.
  rewrite !length_app, length_take, length_fmap, length_drop. lia.
Qed.

Lemma copy_offset_loop src p shift n i c c' :
  for_loop n i (copy_offset src p shift) c = Done c' ↔
  length (take n (drop (i + 1) src)) = n ∧
  (n = 0%nat ∨ p + i + n ≤ length (offset c))%nat ∧
  (n = 0%nat → c' = c) ∧
  (n ≠ 0%nat → c' = write_offsets c (p + i) shift (take n (drop (i + 1) src))).
Proof.
  revert i c c'. induction n as [|n IH]; intros i c c'.
  - simpl. naive_solver.
  - rewrite for_loop_S, bind_Done. setoid_rewrite copy_offset_Done. setoid_rewrite IH.
    replace (Datatypes.S i + 1)%nat with (Datatypes.S (i + 1)) by lia.
    destruct (src !! (i + 1)%nat) as [o|] eqn:Ho.
    + rewrite (take_drop_S _ _ _ _ Ho). simpl.
      split.
      * intros (c1 & (o' & [= <-] & Hp & ->) & Hlen & Hroom & H0 & Hn).
        rewrite write_offsets_length in Hroom by (simpl; lia).
        split_and!; [by f_equal|right; lia|done|].
        intros _. destruct n as [|n].
        -- rewrite (H0 eq_refl). by destruct (drop _ _).
        -- rewrite Hn by done.
           replace (p + Datatypes.S i)%nat with (Datatypes.S (p + i)) by lia.
           by rewrite write_offsets_cons.
      * intros (Hlen & Hroom & _ & Hn).
        exists (write_offsets c (p + i) shift [o]).
        rewrite write_offsets_length by (simpl; lia).
        split_and!.
        -- exists o. split_and!; [done|lia|done].
        -- lia.
        -- destruct n; [by left|right; lia].
        -- intros ->. rewrite Hn by done. by destruct (drop _ _).
        -- intros Hn0. rewrite Hn by done.
           replace (p + Datatypes.S i)%nat with (Datatypes.S (p + i)) by lia.
           rewrite write_offsets_cons; [done|lia].
    + rewrite (take_drop_None _ _ _ Ho). simpl. naive_solver.
Qed.

(** [Push(Row)] returns: exactly when every access stays inside the row's
    arrays, every id passes the bound check and the vectors have room. *)
Lemma Push_Done c row c' :
  Push c row = Done c' ↔
  Vec.size (label c) < Vec.max_size ∧
  length (Row.ids row) = Z.to_nat (Row.length row) ∧
  Forall (λ x, x < numeric_max IndexType) (Row.ids row) ∧
  (Z.to_nat (Row.length row) = 0%nat
   ∨ Vec.size (index c) + Z.of_nat (Z.to_nat (Row.length row)) <= Vec.max_size) ∧
  (∀ v, Row.value row = Some v →
        length (take (Z.to_nat (Row.length row)) v) = Z.to_nat (Row.length row) ∧
        (Z.to_nat (Row.length row) = 0%nat
         ∨ Vec.size (value c) + Z.of_nat (Z.to_nat (Row.length row)) <= Vec.max_size)) ∧
  Vec.size (offset c) < Vec.max_size ∧
  c' = push_result c row.
Proof.
  unfold Push. rewrite bind_Done. setoid_rewrite push_back_Done.
  setoid_rewrite bind_Done. setoid_rewrite push_index_loop.
  setoid_rewrite bind_Done. setoid_rewrite bind_Done. setoid_rewrite push_back_Done.
  unfold push_result, Row.ids, Row.vals. rewrite drop_0.
  destruct (Row.value row) as [v|] eqn:Hv; simpl.
  - setoid_rewrite push_value_loop. rewrite drop_0. simpl.
    unfold append_ids, Vec.size. simpl.
    split.
    + intros (? & (Hl & ->) & ? & (Hlen & Hall & Hroom & ->) & ? & (Hlenv & Hroomv & ->)
              & ? & (Ho & ->) & [= <-]). simpl in *.
      split_and!; [done..| |done|].
      * intros ? [= <-]. done.
      * unfold set_offset, set_value. simpl.
        by rewrite length_app, length_fmap, Nat2Z.inj_add.
    + intros (Hl & Hlen & Hall & Hroom & Hval & Ho & ->).
      destruct (Hval v eq_refl) as [Hlenv Hroomv].
      eexists. split; [done|]. eexists. split; [done|]. eexists. split; [done|].
      eexists. split; [done|]. simpl.
      unfold set_offset, set_value. simpl.
      by rewrite length_app, length_fmap, Nat2Z.inj_add.
  - unfold append_ids, Vec.size. simpl.
    split.
    + intros (? & (Hl & ->) & ? & (Hlen & Hall & Hroom & ->) & ? & [= <-]
              & ? & (Ho & ->) & [= <-]). simpl in *.
      split_and!; [done..| |done|].
      * intros ? [=].
      * unfold set_offset. simpl.
        by rewrite app_nil_r, length_app, length_fmap, Nat2Z.inj_add.
    + intros (Hl & Hlen & Hall & Hroom & Hval & Ho & ->).
      eexists. split; [done|]. eexists. split; [done|]. eexists. split; [done|].
      eexists. split; [done|]. simpl.
      unfold set_offset. simpl.
      by rewrite app_nil_r, length_app, length_fmap, Nat2Z.inj_add.
Qed.

(** A row laid out as rows are, with every feature id below the maximum
    and room in the vectors, is appended. *)
Lemma Push_in_range c row :
  Row.valid row → push_room c row →
  Forall (λ x, x < numeric_max IndexType) (Row.ids row) →
  Push c row = Done (push_result c row).
Proof.
  intros (Hlen & Hidx & Hpos & Hval) (Hrl & Hri & Hrv & Hro) Hall.
  assert (Hids : length (Row.ids row) = Z.to_nat (Row.length row)).
  { unfold Row.ids. by rewrite length_take_le. }
  apply Push_Done. split_and!; try done.
  - right. lia.
  - intros v Hv. specialize (Hval v Hv). split; [by rewrite length_take_le|right; lia].
Qed.

Lemma resize_no_wrap {A} (v : list A) n d :
  0 <= n → Vec.size v + n < 2 ^ 64 →
  Vec.resize v (wrap64 (Vec.size v + n)) d = v ++ replicate (Z.to_nat n) d.
Proof.
  intros Hn Hlt. unfold Vec.size in *. rewrite wrap64_small by lia.
  rewrite resize_grow by (unfold Vec.size; lia). do 2 f_equal. lia.
Qed.

Lemma resize_zero {A} (v : list A) d :
  Vec.size v <= Vec.max_size → Vec.resize v (wrap64 (Vec.size v + 0)) d = v.
Proof.
  intros Hv. rewrite Z.add_0_r, wrap64_small; [apply resize_same|].
  unfold Vec.size, Vec.max_size in *. lia.
Qed.

(** If [n > 0] entries fit behind position [pos] after the vector has been
    resized by [n], the size did not wrap. *)
Lemma resize_room {A} (v : list A) n d pos :
  0 < n → n < 2 ^ 64 → Vec.size v <= Vec.max_size →
  (pos + Z.to_nat n ≤ length (Vec.resize v (wrap64 (Vec.size v + n)) d))%nat ↔
  Vec.size v + n < 2 ^ 64 ∧ (pos ≤ length v)%nat.
Proof.
  intros Hn Hn64 Hv. rewrite resize_length by apply wrap64_range.
  unfold Vec.size, Vec.max_size in *.
  destruct (decide (Z.of_nat (length v) + n < 2 ^ 64)) as [Hlt|Hge].
  - rewrite wrap64_small by lia. lia.
  - unfold wrap64.
    assert ((Z.of_nat (length v) + n) mod 2 ^ 64 = Z.of_nat (length v) + n - 2 ^ 64).
    { symmetry. apply (Z.mod_unique _ _ 1); lia. }
    lia.
Qed.

Lemma write_at_end {A} (v : list A) k d xs :
  length xs = k →
  take (length v) (v ++ replicate k d) ++ xs ++ drop (length v + k) (v ++ replicate k d)
  = v ++ xs.
Proof.
  intros <-. rewrite take_app_length.
  rewrite drop_ge by (rewrite length_app, length_replicate; lia).
  by rewrite app_nil_r.
Qed.

(** [v.resize(v.size() + n)] followed by a [memcpy] of [n] entries to
    position [pos]. *)
Lemma grow_memcpy {S} (v src : list Z) pos n v' :
  0 <= n → sizeof_real_t * n < 2 ^ 64 → (Z.to_nat n ≤ length src)%nat →
  Vec.size v <= Vec.max_size →
  Vec.memcpy (S := S) (Vec.resize v (wrap64 (Vec.size v + n)) zero_f) pos src n
             sizeof_real_t = Done v' ↔
  (n = 0 ∨ (Vec.size v + n < 2 ^ 64 ∧ (pos ≤ length v)%nat)) ∧
  v' = take pos (v ++ replicate (Z.to_nat n) zero_f) ++ take (Z.to_nat n) src
       ++ drop (pos + Z.to_nat n) (v ++ replicate (Z.to_nat n) zero_f).
Proof.
  intros Hn H4 Hsrc Hv. rewrite memcpy_Done by done.
  destruct (decide (n = 0)) as [->|Hn0].
  - rewrite resize_zero by done. simpl. rewrite app_nil_r, Nat.add_0_r, take_drop.
    naive_solver lia.
  - unfold sizeof_real_t in H4.
    rewrite resize_room by lia.
    split.
    + intros [[? _]|(_ & [Hlt Hpos] & _ & ->)]; [lia|].
      rewrite resize_no_wrap by lia. naive_solver.
    + intros ([?|[Hlt Hpos]] & ->); [lia|]. right.
      rewrite resize_no_wrap by lia. split_and!; [lia|done..].
Qed.

(** [index.resize(index.size() + ndata)] followed by the index loop that
    starts writing at the old end. *)
Lemma grow_copy_index c src nd c' :
  0 <= nd < 2 ^ 64 → (Z.to_nat nd ≤ length src)%nat →
  Vec.size (index c) <= Vec.max_size →
  for_loop (Z.to_nat nd) 0 (copy_index src (length (index c)))
    (set_index c (Vec.resize (index c) (wrap64 (Vec.size (index c) + nd)) 0)) = Done c' ↔
  Forall (λ x, x < numeric_max IndexType) (take (Z.to_nat nd) src) ∧
  (nd = 0 ∨ Vec.size (index c) + nd < 2 ^ 64) ∧
  c' = append_ids c (take (Z.to_nat nd) src).
Proof.
  intros Hnd Hsrc Hv. rewrite copy_index_loop. rewrite drop_0. simpl.
  rewrite length_take_le by done.
  destruct (decide (nd = 0)) as [->|Hn0].
  - rewrite resize_zero by done. simpl. unfold append_ids. simpl.
    rewrite set_index_id. destruct c. naive_solver.
  - rewrite Nat.add_0_r.
    pose proof (resize_room (index c) nd 0 (length (index c))) as Hroom.
    rewrite Hroom by lia. clear Hroom.
    split.
    + intros (_ & Hall & [?|[Hlt _]] & _ & Hc); [lia|].
      rewrite Hc by lia. split_and!; [done|by right|].
      unfold write_ids, append_ids. simpl.
      rewrite resize_no_wrap by lia. rewrite length_take_le by done.
      rewrite write_at_end by (rewrite length_fmap, length_take; lia). done.
    + intros (Hall & [?|Hlt] & ->); [lia|].
      split_and!; [done|done|right; split; [done|lia]|lia|].
      intros _. unfold write_ids, append_ids. simpl.
      rewrite resize_no_wrap by lia. rewrite length_take_le by done.
      rewrite write_at_end by (rewrite length_fmap, length_take; lia). done.
Qed.

(** [offset.resize(offset.size() + n)] followed by the offset loop. *)
Lemma grow_copy_offset c src n shift c' :
  0 <= n < 2 ^ 64 → (Z.to_nat n + 1 ≤ length src)%nat →
  Vec.size (offset c) <= Vec.max_size →
  for_loop (Z.to_nat n) 0 (copy_offset src (length (offset c)) shift)
    (set_offset c (Vec.resize (offset c) (wrap64 (Vec.size (offset c) + n)) 0)) = Done c' ↔
  (n = 0 ∨ Vec.size (offset c) + n < 2 ^ 64) ∧
  c' = set_offset c (offset c ++ ((λ o, wrap64 (shift + o)) <$> take (Z.to_nat n) (drop 1 src))).
Proof.
  intros Hn Hsrc Hv. rewrite copy_offset_loop. simpl.
  rewrite length_take_le by (rewrite length_drop; lia).
  destruct (decide (n = 0)) as [->|Hn0].
  - rewrite resize_zero by done. simpl. rewrite app_nil_r.
    destruct c. naive_solver.
  - rewrite Nat.add_0_r.
    pose proof (resize_room (offset c) n 0 (length (offset c))) as Hroom.
    rewrite Hroom by lia. clear Hroom.
    split.
    + intros (_ & [?|[Hlt _]] & _ & Hc); [lia|].
      rewrite Hc by lia. split_and!; [by right|].
      unfold write_offsets. simpl.
      rewrite resize_no_wrap by lia. rewrite length_take_le by (rewrite length_drop; lia).
      unfold set_offset. simpl. f_equal.
      apply write_at_end. rewrite length_fmap, length_take, length_drop. lia.
    + intros ([?|Hlt] & ->); [lia|].
      split_and!; [done|right; split; [done|lia]|lia|].
      intros _. unfold write_offsets. simpl.
      rewrite resize_no_wrap by lia. rewrite length_take_le by (rewrite length_drop; lia).
      unfold set_offset. simpl. f_equal. symmetry.
      apply write_at_end. rewrite length_fmap, length_take, length_drop. lia.
Qed.

Lemma PushBlock_Done c b c' :
  coherent c → RowBlock.valid b →
  PushBlock c b = Done c' ↔
  Forall (λ x, x < numeric_max IndexType)
         (take (Z.to_nat (RowBlock.ndata b)) (RowBlock.index b)) ∧
  (RowBlock.size b = 0 ∨ Vec.size (offset c) + RowBlock.size b < 2 ^ 64) ∧
  (RowBlock.ndata b = 0 ∨ Vec.size (index c) + RowBlock.ndata b < 2 ^ 64) ∧
  (∀ bv, RowBlock.value b = Some bv →
         RowBlock.ndata b = 0 ∨ (length (label c) ≤ length (value c))%nat) ∧
  c' = block_result c b.
Proof.
  intros (Hoff & Hlast & Hval & Hfo & Hfl & Hfi & Hfv)
         (Hsz & Hboff & Hb0 & Hbmono & Hblab & Hbidx & Hbpos & Hbval & Hs4 & Hnd4).
  unfold RowBlock.ndata in *.
  destruct (lookup_lt_is_Some_2 (RowBlock.offset b) (Z.to_nat (RowBlock.size b)))
    as [nd Hnd]; [lia|].
  rewrite Hnd in *. simpl in *.
  assert (H0nd : 0 <= nd) by (eapply (Hbmono 0%nat); [|done..]; lia).
  assert (Hnd64 : nd < 2 ^ 64) by (unfold sizeof_real_t in *; lia).
  assert (HN64 : RowBlock.size b < 2 ^ 64) by (unfold sizeof_real_t in *; lia).
  assert (Hsize : Z.to_nat (Vec.size (label c)) = length (label c)).
  { unfold Vec.size. lia. }
  assert (Hshift : offset c !! length (label c) = Some (Vec.size (index c))).
  { rewrite <- Hlast, last_lookup. f_equal. lia. }
  assert (Hbase : (length (label c) + 1)%nat = length (offset c)) by lia.
  assert (Hihead : Z.to_nat (Vec.size (index c)) = length (index c)).
  { unfold Vec.size. lia. }
  unfold PushBlock.
  cbn [offset label index value max_index
       set_offset set_label set_index set_value set_max_index].
  rewrite Hsize.
  assert (Hlab : take (length (label c))
                   (label c ++ replicate (Z.to_nat (RowBlock.size b)) zero_f)
                 ++ take (Z.to_nat (RowBlock.size b)) (RowBlock.label b)
                 ++ drop (length (label c) + Z.to_nat (RowBlock.size b))
                      (label c ++ replicate (Z.to_nat (RowBlock.size b)) zero_f)
                 = label c ++ take (Z.to_nat (RowBlock.size b)) (RowBlock.label b)).
  { apply write_at_end. rewrite length_take. lia. }
  assert (Hobound : Forall (λ o, 0 <= o <= nd) (RowBlock.offset b)).
  { apply Forall_lookup. intros i o Ho. split.
    - eapply (Hbmono 0%nat i); [lia|done..].
    - eapply (Hbmono i (Z.to_nat (RowBlock.size b))); [|done..].
      apply lookup_lt_Some in Ho. lia. }
  assert (Hwrap : (nd = 0 ∨ Vec.size (index c) + nd < 2 ^ 64) →
            (λ o, wrap64 (Vec.size (index c) + o))
              <$> take (Z.to_nat (RowBlock.size b)) (drop 1 (RowBlock.offset b))
            = (λ o, Vec.size (index c) + o)
              <$> take (Z.to_nat (RowBlock.size b)) (drop 1 (RowBlock.offset b))).
  { intros Hroom. apply Forall_fmap_ext_1.
    apply Forall_take, Forall_drop. eapply Forall_impl; [exact Hobound|].
    intros o Ho. simpl. apply wrap64_small.
    unfold Vec.size, Vec.max_size in *. lia. }
  split.
  - intros H.
    apply bind_Done in H as (label' & HL & H).
    apply grow_memcpy in HL as [HLroom ->]; [|done..].
    rewrite Hlab in H.
    rewrite (proj2 (read_Done _ _ _) Hnd) in H. cbn [bind] in H.
    rewrite (proj2 (back_Done _ _) Hlast) in H. cbn [bind] in H.
    apply bind_Done in H as (c2 & HI & H).
    rewrite Hihead in HI.
    match type of HI with for_loop _ _ _ (set_index ?c1 _) = _ =>
      apply (grow_copy_index c1) in HI as (Hall & HIroom & ->); [|done..] end.
    apply bind_Done in H as (c3 & HV & H).
    cbn [offset label index value max_index append_ids
         set_offset set_label set_index set_value set_max_index] in HV.
    assert (HV' : (∀ bv, RowBlock.value b = Some bv →
                     nd = 0 ∨ (length (label c) ≤ length (value c))%nat) ∧
                  offset c3 = offset c ∧
                  c3 = set_offset (block_result c b) (offset c)).
    { unfold block_result, RowBlock.ndata. rewrite Hnd. simpl.
      destruct (RowBlock.value b) as [bv|] eqn:Hbv.
      - apply bind_Done in HV as (v' & HM & [= <-]).
        apply grow_memcpy in HM as [HVroom ->]; [|try done..].
        + split; [|done].
          intros ? [= <-]. destruct HVroom as [?|[_ ?]]; [by left|right].
          unfold Vec.size in *. lia.
        + by apply Hbval.
      - injection HV as <-. split; [|done]. by intros ? [=]. }
    destruct HV' as (HVroom & Hoff3 & ->).
    cbn [offset label index value max_index append_ids block_result
         set_offset set_label set_index set_value set_max_index] in H.
    rewrite (proj2 (read_Done _ _ _) Hshift) in H. cbn [bind] in H.
    rewrite Hbase in H.
    match type of H with for_loop _ _ _ (set_offset ?c1 _) = _ =>
      apply (grow_copy_offset c1) in H as (HOroom & ->); [|done|lia|done] end.
    cbn [offset label index value max_index append_ids block_result
         set_offset set_label set_index set_value set_max_index] in HOroom, HIroom |- *.
    rewrite Hwrap by done.
    split_and!; done.
  - intros (Hall & HOroom & HIroom & HVroom & ->).
    assert (HL : ∀ S, Vec.memcpy (S := S)
                   (Vec.resize (label c) (wrap64 (Vec.size (label c) + RowBlock.size b))
                      zero_f)
                   (length (label c)) (RowBlock.label b) (RowBlock.size b) sizeof_real_t
                 = Done (label c ++ take (Z.to_nat (RowBlock.size b)) (RowBlock.label b))).
    { intros S. apply grow_memcpy; [done..|]. split; [|done].
      destruct HOroom as [?|?]; [by left|right]. unfold Vec.size in *. lia. }
    rewrite HL. cbn [bind].
    rewrite (proj2 (read_Done _ _ _) Hnd). cbn [bind].
    rewrite (proj2 (back_Done _ _) Hlast). cbn [bind].
    rewrite Hihead.
    match goal with |- context [for_loop ?n ?i ?body (set_index ?c1 ?r)] =>
      assert (HI : for_loop n i body (set_index c1 r)
                   = Done (append_ids c1 (take (Z.to_nat nd) (RowBlock.index b))))
        by (apply (grow_copy_index c1); [done..|]; split_and!; done)
    end.
    rewrite HI.
    cbn [bind offset label index value max_index append_ids
         set_offset set_label set_index set_value set_max_index].
    match goal with |- context [Done (append_ids ?a ?xs)] =>
      set (c2 := append_ids a xs) end.
    assert (HV : ∀ S (k : t → outcome S t),
              bind (match RowBlock.value b with
                    | None => Done c2
                    | Some bvalue =>
                        let* value' :=
                          Vec.memcpy
                            (Vec.resize (value c) (wrap64 (Vec.size (value c) + nd))
                               zero_f)
                            (length (label c)) bvalue nd sizeof_real_t in
                        Done (set_value
                                (set_value c2
                                   (Vec.resize (value c)
                                      (wrap64 (Vec.size (value c) + nd)) zero_f))
                                value')
                    end) k
              = k (set_offset (block_result c b) (offset c))).
    { intros S k. unfold block_result, RowBlock.ndata. rewrite Hnd. simpl.
      destruct (RowBlock.value b) as [bv|] eqn:Hbv; [|done].
      assert (HM : Vec.memcpy (S := S)
                     (Vec.resize (value c) (wrap64 (Vec.size (value c) + nd)) zero_f)
                     (length (label c)) bv nd sizeof_real_t
                   = Done (take (length (label c))
                             (value c ++ replicate (Z.to_nat nd) zero_f)
                           ++ take (Z.to_nat nd) bv
                           ++ drop (length (label c) + Z.to_nat nd)
                                (value c ++ replicate (Z.to_nat nd) zero_f))).
      { apply grow_memcpy; [done|done|by apply Hbval|done|]. split; [|done].
        destruct (HVroom bv eq_refl) as [?|?]; [by left|right].
        split; [|done].
        destruct HIroom as [?|?]; unfold Vec.size, Vec.max_size in *; lia. }
      rewrite HM. done. }
    rewrite HV.
    cbn [bind offset label index value max_index append_ids block_result
         set_offset set_label set_index set_value set_max_index].
    rewrite (proj2 (read_Done _ _ _) Hshift). cbn [bind].
    rewrite Hbase.
    match goal with |- for_loop _ _ _ (set_offset ?c1 _) = _ =>
      apply (grow_copy_offset c1); [done|lia|done|] end.
    cbn [bind offset label index value max_index append_ids block_result
         set_offset set_label set_index set_value set_max_index].
    rewrite Hwrap by done. done.
Qed.
End Loops.

(** ** What the pushes preserve *)

Section Invariants.
Import RowBlockContainer Result.
Context {IndexType : UnsignedType}.

Lemma coherent_Clear c : coherent (Clear c).
Proof. repeat split; simpl; try done; unfold Vec.size, Vec.max_size; simpl; lia. Qed.

Lemma Push_coherent c row c' : coherent c → Push c row = Done c' → coherent c'.
Proof.
  intros (Hoff & Hlast & Hval & Hfo & Hfl & Hfi & Hfv).
  rewrite Push_Done. intros (Hl & Hlen & _ & Hroom & Hv & Ho & ->).
  unfold coherent, fits, push_result, Vec.size in *. simpl.
  rewrite !length_app, length_fmap, Hlen. simpl.
  assert (Hvlen : (length (default [] (Row.vals row)) ≤ Z.to_nat (Row.length row))%nat ∧
                  Z.of_nat (length (value c)) + Z.of_nat (length (default [] (Row.vals row)))
                  <= Vec.max_size).
  { unfold Row.vals. destruct (Row.value row) as [v|]; simpl; [|lia].
    destruct (Hv v eq_refl) as [-> ?]. lia. }
  split_and!; try lia.
  rewrite last_snoc. f_equal. lia.
Qed.

Lemma block_offsets_length b :
  RowBlock.valid b →
  length (take (Z.to_nat (RowBlock.size b)) (drop 1 (RowBlock.offset b)))
  = Z.to_nat (RowBlock.size b).
Proof.
  intros (_ & Hlen & _). rewrite length_take, length_drop. lia.
Qed.

Lemma block_offsets_bound b :
  RowBlock.valid b → Forall (λ o, 0 <= o <= RowBlock.ndata b) (RowBlock.offset b).
Proof.
  intros (Hsz & Hlen & H0 & Hmono & _). unfold RowBlock.ndata.
  destruct (lookup_lt_is_Some_2 (RowBlock.offset b) (Z.to_nat (RowBlock.size b)))
    as [nd Hnd]; [lia|]. rewrite Hnd. simpl.
  apply Forall_lookup. intros i o Ho. split.
  - eapply (Hmono 0%nat i); [lia|done..].
  - eapply (Hmono i (Z.to_nat (RowBlock.size b))); [|done..].
    apply lookup_lt_Some in Ho. lia.
Qed.

(** The last offset a block appends is the old end moved by [ndata]. *)
Lemma block_offsets_last b (s : Z) (l : list Z) :
  RowBlock.valid b → last l = Some s →
  (RowBlock.size b = 0 → RowBlock.ndata b = 0) ∧
  last (l ++ ((λ o, s + o) <$> take (Z.to_nat (RowBlock.size b))
                                    (drop 1 (RowBlock.offset b))))
  = Some (s + RowBlock.ndata b).
Proof.
  intros Hb Hl. pose proof (block_offsets_length b Hb) as Hlen.
  destruct Hb as (Hsz & Hboff & H0 & _). unfold RowBlock.ndata.
  destruct (decide (RowBlock.size b = 0)) as [Hz|Hnz].
  - rewrite Hz in *. change (Z.to_nat 0) with 0%nat. rewrite H0, take_0. simpl.
    rewrite app_nil_r, Z.add_0_r. done.
  - split; [done|].
    destruct (lookup_lt_is_Some_2 (RowBlock.offset b) (Z.to_nat (RowBlock.size b)))
      as [nd Hnd]; [lia|]. rewrite Hnd. simpl.
    rewrite last_lookup, length_app, length_fmap, Hlen.
    rewrite lookup_app_r by lia.
    rewrite list_lookup_fmap, lookup_take_lt by lia. rewrite lookup_drop.
    replace (1 + (Init.Nat.pred (length l + Z.to_nat (RowBlock.size b)) - length l))%nat
      with (Z.to_nat (RowBlock.size b)) by lia.
    by rewrite Hnd.
Qed.

Lemma block_value_length c b :
  RowBlock.valid b →
  (∀ bv, RowBlock.value b = Some bv →
         RowBlock.ndata b = 0 ∨ (length (label c) ≤ length (value c))%nat) →
  length (value (block_result c b))
  = (length (value c)
     + match RowBlock.value b with
       | Some _ => Z.to_nat (RowBlock.ndata b)
       | None => 0
       end)%nat.
Proof.
  intros (_ & _ & _ & _ & _ & _ & _ & Hbval & _) Hroom. unfold block_result. simpl.
  destruct (RowBlock.value b) as [bv|]; [|lia].
  specialize (Hbval bv eq_refl).
  rewrite !length_app, !length_take, length_drop, length_app, length_replicate.
  destruct (Hroom bv eq_refl) as [->|?]; lia.
Qed.

Lemma block_result_lengths c b :
  RowBlock.valid b →
  length (offset (block_result c b)) = (length (offset c) + Z.to_nat (RowBlock.size b))%nat ∧
  length (label (block_result c b)) = (length (label c) + Z.to_nat (RowBlock.size b))%nat ∧
  length (index (block_result c b)) = (length (index c) + Z.to_nat (RowBlock.ndata b))%nat.
Proof.
  intros Hb. pose proof (block_offsets_length b Hb) as Holen.
  destruct Hb as (Hsz & Hboff & Hb0 & Hbmono & Hblab & Hbidx & _).
  unfold block_result. simpl.
  rewrite !length_app, !length_fmap, Holen, !length_take. lia.
Qed.

Lemma PushBlock_coherent c b c' :
  coherent c → RowBlock.valid b → PushBlock c b = Done c' → coherent c'.
Proof.
  intros Hc Hb. rewrite (PushBlock_Done _ _ _ Hc Hb).
  intros (_ & HOroom & HIroom & HVroom & ->).
  pose proof (block_value_length c b Hb HVroom) as Hvlen.
  destruct (block_result_lengths c b Hb) as (Holen & Hllen & Hilen).
  destruct Hc as (Hoff & Hlast & Hval & Hfo & Hfl & Hfi & Hfv).
  destruct (block_offsets_last b _ _ Hb Hlast) as [Hnd0 Hblast].
  pose proof (block_offsets_bound b Hb) as Hbound.
  destruct Hb as (Hsz & Hboff & Hb0 & Hbmono & Hblab & Hbidx & Hbpos & Hbval & Hs4 & Hnd4).
  assert (H0nd : 0 <= RowBlock.ndata b).
  { apply (Forall_lookup_1 _ _ _ _ Hbound) in Hb0. lia. }
  unfold coherent, fits, Vec.size, Vec.max_size in *.
  rewrite Hvlen, Holen, Hllen, Hilen.
  split_and!; try lia.
  - etrans; [exact Hblast|]. f_equal. lia.
  - destruct (RowBlock.value b); lia.
  - destruct (RowBlock.value b); [|lia].
    destruct HIroom as [->|?]; lia.
Qed.

Lemma step_coherent c o c' :
  coherent c → Trace.block_valid o → Trace.step c o = Done c' → coherent c'.
Proof.
  intros Hc Ho. destruct o as [|row|b]; simpl.
  - intros [= <-]. apply coherent_Clear.
  - by apply Push_coherent.
  - by apply PushBlock_coherent.
Qed.

(** An invariant of every step is an invariant of every run. *)
Lemma run_invariant (P : t → Prop) (valid : Trace.op → Prop) :
  (∀ c o c', P c → valid o → Trace.step c o = Done c' → P c') →
  ∀ ops c c', P c → Forall valid ops → Trace.run ops c = Done c' → P c'.
Proof.
  intros Hstep ops. induction ops as [|o ops IH]; intros c c' Hc Hops.
  - by intros [= <-].
  - simpl. rewrite bind_Done. intros (c1 & H1 & Hrun).
    apply Forall_cons in Hops as [Ho Hops].
    eapply IH; [|done..]. by eapply Hstep.
Qed.

Lemma run_coherent ops c0 c :
  Forall Trace.block_valid ops → Trace.run ops (Clear c0) = Done c → coherent c.
Proof.
  intros Hops. apply (run_invariant coherent Trace.block_valid); [|apply coherent_Clear|done].
  intros. by eapply step_coherent.
Qed.
End Invariants.

(** ** The container invariants *)

Section Claims.
Import RowBlockContainer Result.
Context {IndexType : UnsignedType}.

Lemma nondecreasing_take_drop l n k :
  nondecreasing l → nondecreasing (take n (drop k l)).
Proof.
  intros Hl i j x y Hij Hi Hj.
  apply lookup_take_Some in Hi as [Hi _]. apply lookup_take_Some in Hj as [Hj _].
  rewrite lookup_drop in Hi, Hj. eapply (Hl (k + i)%nat (k + j)%nat); [lia|done..].
Qed.

Lemma nondecreasing_shift (s : Z) l :
  nondecreasing l → nondecreasing ((λ o, s + o) <$> l).
Proof.
  intros Hl i j x y Hij Hi Hj.
  apply list_lookup_fmap_Some in Hi as (x' & -> & Hi).
  apply list_lookup_fmap_Some in Hj as (y' & -> & Hj).
  specialize (Hl i j x' y' Hij Hi Hj). lia.
Qed.

Lemma nondecreasing_singleton x : nondecreasing [x].
Proof.
  intros [|i] [|j] a b _ Hi Hj; simplify_eq/=; lia.
Qed.

Lemma step_offsets_ok c o c' :
  offsets_ok c → Trace.block_valid o → Trace.step c o = Done c' → offsets_ok c'.
Proof.
  intros (Hc & H0 & Hmono) Ho Hstep.
  split; [by eapply step_coherent|].
  assert (Hlast := proj1 (proj2 Hc)).
  destruct o as [|row|b]; simpl in Hstep.
  - injection Hstep as <-. split; [done|]. apply nondecreasing_singleton.
  - apply Push_Done in Hstep as (_ & _ & _ & _ & _ & _ & ->). simpl. split.
    + by apply lookup_app_l_Some.
    + apply nondecreasing_app; [done|apply nondecreasing_singleton|].
      intros x y Hx ->%list_elem_of_singleton.
      pose proof (nondecreasing_le_last _ _ _ Hmono Hlast Hx). lia.
  - simpl in Ho. apply (PushBlock_Done _ _ _ Hc Ho) in Hstep as (_ & _ & _ & _ & ->).
    simpl. split.
    + by apply lookup_app_l_Some.
    + apply nondecreasing_app; [done| |].
      * apply nondecreasing_shift, nondecreasing_take_drop. apply Ho.
      * intros x y Hx Hy. apply list_elem_of_fmap in Hy as (o & -> & Hy).
        pose proof (nondecreasing_le_last _ _ _ Hmono Hlast Hx).
        apply subseteq_take, subseteq_drop in Hy.
        pose proof (block_offsets_bound b Ho) as Hb.
        rewrite Forall_forall in Hb. specialize (Hb o Hy). lia.
Qed.

(** C4. Whatever sequence of [Clear], [Push(Row)] and [Push(RowBlock)]
    has returned on a cleared container (the blocks pushed being laid out
    as blocks are): [offset] starts with 0, never goes down, and ends with
    the length of [index]. *)
Theorem offset_invariant (ops : list Trace.op) (c0 c : t) :
  Forall Trace.block_valid ops →
  Trace.run ops (Clear c0) = Done c →
  offset c !! 0%nat = Some 0 ∧
  nondecreasing (offset c) ∧
  last (offset c) = Some (Vec.size (index c)).
Proof.
  intros Hops Hrun.
  assert (Hok : offsets_ok c).
  { eapply (run_invariant offsets_ok Trace.block_valid); [|
      split; [apply coherent_Clear|split; [done|apply nondecreasing_singleton]] |done..].
    intros. by eapply step_offsets_ok. }
  destruct Hok as ((_ & Hlast & _) & H0 & Hmono). done.
Qed.

Lemma step_values_ok hv c o c' :
  values_ok hv c → Trace.block_valid o →
  (∀ h, Trace.op_has_value o = Some h → h = hv) →
  Trace.step c o = Done c' → values_ok hv c'.
Proof.
  intros (Hc & Hv) Ho Hhv Hstep.
  split; [by eapply step_coherent|].
  destruct o as [|row|b]; simpl in Hstep, Hhv.
  - injection Hstep as <-. by destruct hv.
  - apply Push_Done in Hstep as (_ & Hlen & _ & _ & Hval & _ & ->). simpl.
    rewrite !length_app, length_fmap, Hlen, Hv. unfold Row.vals.
    specialize (Hhv _ eq_refl). subst hv.
    destruct (Row.value row) as [v|]; simpl.
    + destruct (Hval v eq_refl) as [-> _]. done.
    + lia.
  - simpl in Ho. apply (PushBlock_Done _ _ _ Hc Ho) in Hstep as (_ & _ & _ & HVroom & ->).
    rewrite (block_value_length c b Ho HVroom).
    destruct (block_result_lengths c b Ho) as (_ & _ & ->).
    specialize (Hhv _ eq_refl). subst hv. rewrite Hv.
    destruct (RowBlock.value b) as [v|]; simpl; [done|lia].
Qed.

Lemma run_values_ok hv ops c0 c :
  Forall Trace.block_valid ops →
  Forall (λ o, ∀ h, Trace.op_has_value o = Some h → h = hv) ops →
  Trace.run ops (Clear c0) = Done c → values_ok hv c.
Proof.
  intros Hops Hhv Hrun.
  eapply (run_invariant (values_ok hv)
            (λ o, Trace.block_valid o ∧ ∀ h, Trace.op_has_value o = Some h → h = hv));
    [| |by apply Forall_and|done].
  - intros c1 o c2 Hc1 [Ho Hh]. by apply step_values_ok.
  - split; [apply coherent_Clear|]. by destruct hv.
Qed.


Lemma foldl_max_ge (l : list Z) m : m <= foldl Z.max m l.
Proof.
  revert m. induction l as [|x l IH]; intros m; simpl; [lia|].
  specialize (IH (Z.max m x)). lia.
Qed.

Lemma foldl_max_id (l : list Z) m :
  0 <= m → foldl Z.max m l = Z.max m (max_id l).
Proof.
  revert m. induction l as [|x l IH]; intros m Hm; simpl; [lia|].
  rewrite IH by lia. unfold max_id. lia.
Qed.

Lemma max_id_nonneg l : 0 <= max_id l.
Proof. unfold max_id. induction l; simpl; lia. Qed.

Lemma max_id_app l k : max_id (l ++ k) = Z.max (max_id l) (max_id k).
Proof.
  unfold max_id. induction l as [|x l IH]; simpl.
  - pose proof (max_id_nonneg k). unfold max_id in *. lia.
  - rewrite IH. lia.
Qed.

Lemma max_id_bound l m :
  0 <= m → Forall (λ x, x < m) l → 0 <= max_id l ∧ (m = 0 ∨ max_id l < m).
Proof.
  intros Hm. unfold max_id. induction 1 as [|x l Hx Hl IH]; simpl; lia.
Qed.

Lemma narrow_ids_exact (l : list Z) :
  Forall (λ x, 0 <= x) l → Forall (λ x, x < numeric_max IndexType) l →
  static_cast IndexType <$> l = l.
Proof.
  intros H0 Hlt. induction l as [|x l IH]; [done|].
  apply Forall_cons in H0 as [? ?]. apply Forall_cons in Hlt as [? ?].
  rewrite fmap_cons, IH by done. f_equal. by apply static_cast_small.
Qed.

(** What a push does to [max_index]. *)
Lemma step_max_index c o c' :
  coherent c → Trace.op_valid o → Trace.is_push o → Trace.step c o = Done c' →
  Forall (λ x, x < numeric_max IndexType) (Trace.op_ids o) ∧
  max_index c' = foldl Z.max (max_index c) (Trace.op_ids o).
Proof.
  intros Hc Ho Hpush Hstep. destruct o as [|row|b]; [done|..]; simpl in *.
  - apply Push_Done in Hstep as (_ & _ & Hall & _ & _ & _ & ->). simpl.
    split; [done|]. rewrite narrow_ids_exact; [done| |done].
    apply Forall_take, Ho.
  - apply (PushBlock_Done _ _ _ Hc Ho) in Hstep as (Hall & _ & _ & _ & ->). simpl.
    split; [done|]. rewrite narrow_ids_exact; [done| |done].
    apply Forall_take, Ho.
Qed.

Lemma op_valid_block o : Trace.op_valid o → Trace.block_valid o.
Proof. by destruct o. Qed.

Lemma run_max_index ops c c' :
  max_index_ok c → Forall Trace.op_valid ops → Forall Trace.is_push ops →
  Trace.run ops c = Done c' →
  max_index_ok c' ∧ max_index c' = Z.max (max_index c) (max_id (ops ≫= Trace.op_ids)).
Proof.
  revert c. induction ops as [|o ops IH]; intros c [Hc Hm] Hvalid Hpush.
  - intros [= <-]. split; [done|]. unfold max_id. simpl.
    lia.
  - simpl. rewrite bind_Done. intros (c1 & Hstep & Hrun).
    apply Forall_cons in Hvalid as [Ho Hvalid]. apply Forall_cons in Hpush as [Hp Hpush].
    destruct (step_max_index _ _ _ Hc Ho Hp Hstep) as [Hall Hmax].
    rewrite foldl_max_id in Hmax by lia.
    destruct (max_id_bound _ (numeric_max IndexType) ltac:(lia) Hall) as [? ?].
    assert (Hok1 : max_index_ok c1).
    { split; [eapply step_coherent; [done|by apply op_valid_block|done]|lia]. }
    destruct (IH c1 Hok1 Hvalid Hpush Hrun) as [Hok' ->].
    split; [done|]. rewrite max_id_app, Hmax, <- Z.max_assoc. reflexivity.
Qed.

(** C9. After pushes that have returned on a cleared container,
    [max_index] is the largest feature id handed over (0 when there is
    none); a further push never lowers it; and [NumCol] of an iterator that
    holds the container is [max_index + 1]. *)
Theorem max_index_running_maximum (ops : list Trace.op) (c0 c : t) :
  Forall Trace.op_valid ops → Forall Trace.is_push ops →
  Trace.run ops (Clear c0) = Done c →
  max_index c = max_id (ops ≫= Trace.op_ids) ∧
  (∀ o c', Trace.op_valid o → Trace.is_push o → Trace.step c o = Done c' →
           max_index c <= max_index c') ∧
  (∀ it, BasicRowIter.data_ it = c → BasicRowIter.NumCol it = max_index c + 1).
Proof.
  intros Hvalid Hpush Hrun.
  pose proof (numeric_max_range IndexType) as Hmax.
  assert (Hok0 : max_index_ok (Clear c0)).
  { split; [apply coherent_Clear|simpl; lia]. }
  destruct (run_max_index _ _ _ Hok0 Hvalid Hpush Hrun) as [[Hc Hm] Heq].
  split_and!.
  - rewrite Heq. apply Z.max_r. apply max_id_nonneg.
  - intros o c' Ho Hp Hstep.
    destruct (step_max_index _ _ _ Hc Ho Hp Hstep) as [_ ->]. apply foldl_max_ge.
  - intros it <-. unfold BasicRowIter.NumCol. apply wrap64_small. lia.
Qed.
End Claims.


(** ** Overflow of the index type *)

Section Overflow.
Import RowBlockContainer Result.
Context {IndexType : UnsignedType}.

Lemma push_index_overflow src i c x :
  src !! i = Some x → numeric_max IndexType <= x →
  push_index src i c = Fatal IndexOverflow c.
Proof.
  intros Hx Hge. unfold push_index, narrow, CHECK.
  rewrite (proj2 (read_Done _ _ _) Hx). simpl.
  destruct (Z.ltb_spec x (numeric_max IndexType)); [lia|done].
Qed.

(** The index loop of [Push(Row)] stops at the first id that does not pass
    the check, with the ids before it appended. *)
Lemma push_index_loop_overflow src n c k x :
  (k < n)%nat → src !! k = Some x → numeric_max IndexType <= x →
  Forall (λ y, y < numeric_max IndexType) (take k src) →
  Vec.size (index c) + Z.of_nat k <= Vec.max_size →
  for_loop n 0 (push_index src) c = Fatal IndexOverflow (append_ids c (take k src)).
Proof.
  intros Hk Hx Hge Hall Hroom.
  replace n with (k + Datatypes.S (n - Datatypes.S k))%nat by lia.
  rewrite for_loop_add.
  assert (Hfirst : for_loop k 0 (push_index src) c = Done (append_ids c (take k src))).
  { apply push_index_loop. rewrite drop_0. split_and!; [|done|by right|done].
    rewrite length_take_le; [done|]. apply lookup_lt_Some in Hx. lia. }
  rewrite Hfirst. simpl. by rewrite (push_index_overflow _ _ _ x).
Qed.

(** C3, amended. A row that is laid out as rows are and for which the
    vectors have room: if one of its feature ids is the maximum of the
    index type or above, [Push] stops with IndexOverflow at the first such
    id, [offset] and [value] are as before, and the label of the row and
    the ids in front of that first id have been appended ([max_index]
    raised to the largest of them); if all its ids are below the maximum,
    [Push] returns. *)
Theorem Push_overflow (c : t) (row : Row.t) :
  Row.valid row → push_room c row →
  (Exists (λ x, numeric_max IndexType <= x) (Row.ids row) →
     ∃ k x c',
       Row.ids row !! k = Some x ∧ numeric_max IndexType <= x ∧
       Forall (λ y, y < numeric_max IndexType) (take k (Row.ids row)) ∧
       Push c row = Fatal IndexOverflow c' ∧
       offset c' = offset c ∧ value c' = value c ∧
       label c' = label c ++ [Row.label row] ∧
       index c' = index c ++ take k (Row.ids row) ∧
       max_index c' = foldl Z.max (max_index c) (take k (Row.ids row))) ∧
  (Forall (λ x, x < numeric_max IndexType) (Row.ids row) →
     Push c row = Done (push_result c row)).
Proof.
  intros (Hlen & Hidx & Hpos & Hval) (Hrl & Hri & Hrv & Hro).
  assert (Hids : length (Row.ids row) = Z.to_nat (Row.length row)).
  { unfold Row.ids. by rewrite length_take_le. }
  split.
  - intros Hex. destruct (first_overflow _ _ Hex) as (k & x & Hk & Hx & Hall).
    pose proof (lookup_lt_Some _ _ _ Hk) as Hklt.
    exists k, x,
      (append_ids (set_label c (label c ++ [Row.label row])) (take k (Row.ids row))).
    split; [done|]. split; [done|]. split; [done|].
    assert (Hexact : static_cast IndexType <$> take k (Row.ids row) = take k (Row.ids row)).
    { apply narrow_ids_exact; [|done]. unfold Row.ids. by do 2 apply Forall_take. }
    unfold Row.ids in *.
    apply lookup_take_Some in Hk as [Hk _]. rewrite take_take in Hall, Hexact |- *.
    replace (k `min` Z.to_nat (Row.length row))%nat with k in * by lia.
    split_and!; try done.
    + unfold Push.
      rewrite (proj2 (push_back_Done c (label c) (Row.label row) _) (conj Hrl eq_refl)).
      simpl.
      rewrite (push_index_loop_overflow _ _ _ k x); [done|lia|done..| simpl; lia].
    + simpl. by rewrite Hexact.
    + simpl. by rewrite Hexact.
  - intros Hall. apply Push_Done. split_and!; try done.
    + right. lia.
    + intros v Hv. specialize (Hval v Hv). split; [by rewrite length_take_le|right; lia].
Qed.
End Overflow.

(** C3, as stated, fails: a row whose only feature id is the maximum of
    [index_t] stops [Push] with IndexOverflow, but the label of the row has
    already been appended at that point. *)
Lemma Push_overflow_not_atomic :
  RowBlockContainer.Push (IndexType := index_t)
    (RowBlockContainer.mk [0] [] [] [] 0)
    (Row.mk one_f 1 [4294967295] None)
  = Fatal IndexOverflow (RowBlockContainer.mk [0] [one_f] [] [] 0)
  ∧ RowBlockContainer.mk [0] [one_f] [] [] 0 ≠ RowBlockContainer.mk [0] [] [] [] 0.
Proof. split; [reflexivity | discriminate]. Qed.

(** ** Overflow in a pushed block, and the checks of [GetBlock] *)

Section BlockOverflow.
Import RowBlockContainer Result.
Context {IndexType : UnsignedType}.

Lemma copy_index_overflow src p i c x :
  src !! i = Some x → numeric_max IndexType <= x →
  copy_index src p i c = Fatal IndexOverflow c.
Proof.
  intros Hx Hge. unfold copy_index, narrow, CHECK.
  rewrite (proj2 (read_Done _ _ _) Hx). simpl.
  destruct (Z.ltb_spec x (numeric_max IndexType)); [lia|done].
Qed.

Lemma copy_index_loop_overflow src p n c k x :
  (k < n)%nat → src !! k = Some x → numeric_max IndexType <= x →
  Forall (λ y, y < numeric_max IndexType) (take k src) →
  (p + k ≤ length (index c))%nat →
  for_loop n 0 (copy_index src p) c = Fatal IndexOverflow (write_ids c p (take k src)).
Proof.
  intros Hk Hx Hge Hall Hroom.
  pose proof (lookup_lt_Some _ _ _ Hx) as Hlt.
  replace n with (k + Datatypes.S (n - Datatypes.S k))%nat by lia.
  rewrite for_loop_add.
  assert (Hfirst : for_loop k 0 (copy_index src p) c = Done (write_ids c p (take k src))).
  { apply copy_index_loop. rewrite drop_0, Nat.add_0_r.
    split_and!; [by rewrite length_take_le by lia|done| | |done].
    - destruct k; [by left|right; lia].
    - intros ->. rewrite take_0, write_ids_nil; [done|lia]. }
  rewrite Hfirst. simpl. by rewrite (copy_index_overflow _ _ _ _ x).
Qed.

(** A block with a feature id at or above the maximum of the index type:
    [Push(RowBlock)] stops with IndexOverflow after the labels have been
    copied and [index] has been resized. *)
Lemma PushBlock_overflow c b :
  coherent c → RowBlock.valid b →
  Vec.size (offset c) + RowBlock.size b < 2 ^ 64 →
  Vec.size (index c) + RowBlock.ndata b < 2 ^ 64 →
  Exists (λ x, numeric_max IndexType <= x)
         (take (Z.to_nat (RowBlock.ndata b)) (RowBlock.index b)) →
  ∃ c', PushBlock c b = Fatal IndexOverflow c' ∧
        offset c' = offset c ∧ value c' = value c ∧
        label c' = label c ++ take (Z.to_nat (RowBlock.size b)) (RowBlock.label b) ∧
        length (index c') = (length (index c) + Z.to_nat (RowBlock.ndata b))%nat.
Proof.
  intros (Hoff & Hlast & Hval & Hfo & Hfl & Hfi & Hfv) Hb HOroom HIroom Hex.
  pose proof (block_offsets_bound b Hb) as Hbound.
  destruct Hb as (Hsz & Hboff & Hb0 & Hbmono & Hblab & Hbidx & Hbpos & Hbval & Hs4 & Hnd4).
  assert (H0nd : 0 <= RowBlock.ndata b).
  { apply (Forall_lookup_1 _ _ _ _ Hbound) in Hb0. lia. }
  unfold RowBlock.ndata in *.
  destruct (lookup_lt_is_Some_2 (RowBlock.offset b) (Z.to_nat (RowBlock.size b)))
    as [nd Hnd]; [lia|].
  rewrite Hnd in *. simpl in *.
  destruct (first_overflow _ _ Hex) as (k & x & Hk & Hx & Hall).
  apply lookup_take_Some in Hk as [Hk Hklt].
  rewrite take_take, Nat.min_l in Hall by lia.
  assert (Hsize : Z.to_nat (Vec.size (label c)) = length (label c)).
  { unfold Vec.size. lia. }
  assert (Hihead : Z.to_nat (Vec.size (index c)) = length (index c)).
  { unfold Vec.size. lia. }
  unfold PushBlock.
  cbn [offset label index value max_index
       set_offset set_label set_index set_value set_max_index].
  rewrite Hsize.
  assert (HL : Vec.memcpy (S := t)
                 (Vec.resize (label c) (wrap64 (Vec.size (label c) + RowBlock.size b))
                    zero_f)
                 (length (label c)) (RowBlock.label b) (RowBlock.size b) sizeof_real_t
               = Done (label c ++ take (Z.to_nat (RowBlock.size b)) (RowBlock.label b))).
  { apply grow_memcpy; [done..|]. split.
    - right. unfold Vec.size in *. lia.
    - symmetry. apply write_at_end. rewrite length_take. lia. }
  rewrite HL. cbn [bind].
  rewrite (proj2 (read_Done _ _ _) Hnd). cbn [bind].
  rewrite (proj2 (back_Done _ _) Hlast). cbn [bind].
  rewrite Hihead.
  rewrite (copy_index_loop_overflow _ _ _ _ k x); [|done..|].
  - cbn [bind]. eexists. split; [done|].
    unfold write_ids. simpl. split_and!; [done..|].
    rewrite !length_app, length_take, length_fmap, length_take, length_drop.
    rewrite resize_length by apply wrap64_range.
    rewrite wrap64_small by (unfold Vec.size in *; lia).
    unfold Vec.size. lia.
  - simpl. rewrite resize_length by apply wrap64_range.
    rewrite wrap64_small by (unfold Vec.size in *; lia).
    unfold Vec.size. lia.
Qed.

(** After a run whose pushes all carried explicit values, or none did,
    the three consistency checks of [GetBlock] pass. *)
Lemma GetBlock_after_uniform_run (ops : list Trace.op) (c0 c : t) :
  Forall Trace.block_valid ops → Trace.uniform ops →
  Trace.run ops (Clear c0) = Done c →
  GetBlock c
  = Done {| RowBlock.size := Z.of_nat (length (label c));
            RowBlock.offset := offset c;
            RowBlock.label := label c;
            RowBlock.index := index c;
            RowBlock.value := if Vec.size (value c) =? 0 then None else Some (value c) |}.
Proof.
  intros Hops [hv Hhv] Hrun.
  destruct (run_values_ok hv _ _ _ Hops Hhv Hrun) as [(Hoff & Hlast & _ & Hfo & _) Hv0].
  assert (Hlen : (length (label c) + 1 = length (offset c))%nat) by lia.
  assert (Hv : length (value c) = length (index c) ∨ length (value c) = 0%nat)
    by (destruct hv; [by left|by right]).
  unfold GetBlock, CHECK, Vec.size, Vec.max_size in *.
  rewrite wrap64_small by lia.
  destruct (Z.eqb_spec (Z.of_nat (length (label c)) + 1) (Z.of_nat (length (offset c))));
    [|lia]. cbn [bind].
  rewrite (proj2 (back_Done _ _) Hlast). cbn [bind].
  rewrite Z.eqb_refl. cbn [bind].
  assert (Hc : (Z.of_nat (length (index c)) =? Z.of_nat (length (value c)))
               || (Z.of_nat (length (value c)) =? 0) = true).
  { apply orb_true_iff. destruct Hv as [Hv|Hv]; [left|right]; apply Z.eqb_eq; lia. }
  rewrite Hc. cbn [bind]. rewrite wrap64_small by lia. do 2 f_equal. lia.
Qed.
End BlockOverflow.

(** ** Rows pushed one by one, and as one block *)

Section Merge.
Import RowBlockContainer Result.
Context {IndexType : UnsignedType}.

Lemma valid_ids_length (r : Row.t) :
  Row.valid r → Z.of_nat (length (Row.ids r)) = Row.length r.
Proof.
  intros (Hlen & Hidx & _). unfold Row.ids. rewrite length_take_le by done. lia.
Qed.

Lemma offsets_from_length s rows : length (offsets_from s rows) = length rows.
Proof. revert s. induction rows as [|r rows IH]; intros s; simpl; [done|]. by rewrite IH. Qed.

Lemma offsets_from_last s rows :
  Forall Row.valid rows →
  (s :: offsets_from s rows) !! length rows
  = Some (s + Z.of_nat (length (rows ≫= Row.ids))).
Proof.
  revert s. induction rows as [|r rows IH]; intros s Hrows.
  - simpl. f_equal. lia.
  - apply Forall_cons in Hrows as [Hr Hrows].
    change ((s :: offsets_from s (r :: rows)) !! length (r :: rows))
      with ((s + Row.length r :: offsets_from (s + Row.length r) rows) !! length rows).
    rewrite IH by done. f_equal.
    change ((r :: rows) ≫= Row.ids) with (Row.ids r ++ (rows ≫= Row.ids)).
    rewrite length_app, Nat2Z.inj_add, valid_ids_length by done. lia.
Qed.

Lemma offsets_from_shift s rows :
  (λ o, s + o) <$> offsets_from 0 rows = offsets_from s rows.
Proof.
  assert (H : ∀ a, (λ o, s + o) <$> offsets_from a rows = offsets_from (s + a) rows).
  { induction rows as [|r rows IH]; intros a; simpl; [done|].
    rewrite IH. by rewrite Z.add_assoc. }
  by rewrite H, Z.add_0_r.
Qed.

Lemma assemble_ndata hv rows :
  Forall Row.valid rows →
  RowBlock.ndata (assemble hv rows) = Z.of_nat (length (rows ≫= Row.ids)).
Proof.
  intros Hrows. unfold RowBlock.ndata, assemble. simpl.
  rewrite Nat2Z.id, offsets_from_last by done. simpl. lia.
Qed.

Lemma pushes_result_cons c r rows :
  Row.valid r →
  pushes_result (push_result c r) rows = pushes_result c (r :: rows).
Proof.
  intros Hr. unfold pushes_result, push_result. simpl.
  change ((r :: rows) ≫= Row.ids) with (Row.ids r ++ (rows ≫= Row.ids)).
  change ((r :: rows) ≫= λ r, default [] (Row.vals r))
    with (default [] (Row.vals r) ++ (rows ≫= λ r, default [] (Row.vals r))).
  rewrite fmap_app, foldl_app, <- !app_assoc. simpl.
  unfold Vec.size. rewrite length_app, length_fmap, Nat2Z.inj_add.
  by rewrite valid_ids_length.
Qed.

Lemma pushes_result_nil c : pushes_result c [] = c.
Proof.
  destruct c. unfold pushes_result. simpl. by rewrite !app_nil_r.
Qed.

(** Pushing rows one by one returns exactly when every id passes the bound
    check (the rows being laid out as rows are, and the vectors having
    room), and then with the rows appended. *)
Lemma run_pushes c rows c' :
  Forall Row.valid rows →
  Vec.size (label c) + Z.of_nat (length rows) <= Vec.max_size →
  Vec.size (offset c) + Z.of_nat (length rows) <= Vec.max_size →
  Vec.size (index c) + Z.of_nat (length (rows ≫= Row.ids)) <= Vec.max_size →
  Vec.size (value c) + Z.of_nat (length (rows ≫= Row.ids)) <= Vec.max_size →
  Trace.run (Trace.OpPush <$> rows) c = Done c' ↔
  Forall (λ x, x < numeric_max IndexType) (rows ≫= Row.ids) ∧
  c' = pushes_result c rows.
Proof.
  revert c. induction rows as [|r rows IH]; intros c Hrows Hl Ho Hi Hv.
  - simpl. rewrite pushes_result_nil. naive_solver.
  - apply Forall_cons in Hrows as [Hr Hrows].
    change ((r :: rows) ≫= Row.ids) with (Row.ids r ++ (rows ≫= Row.ids)) in *.
    rewrite length_app, Nat2Z.inj_add, valid_ids_length in Hi, Hv by done.
    simpl in Hl, Ho.
    pose proof Hr as (Hlen & Hidx & Hpos & Hval).
    assert (Hids : length (Row.ids r) = Z.to_nat (Row.length r)).
    { unfold Row.ids. by rewrite length_take_le. }
    assert (Hroom : push_room c r) by (unfold push_room; lia).
    pose proof (Push_in_range c r Hr Hroom) as Hpush.
    rewrite Forall_app. simpl. rewrite bind_Done. split.
    + intros (c1 & H1 & Hrun).
      pose proof H1 as H1'.
      apply Push_Done in H1' as (_ & _ & Hall & _ & _ & _ & ->).
      apply IH in Hrun as [Hall' ->]; [|done|simpl; unfold Vec.size in *..].
      * by rewrite pushes_result_cons.
      * rewrite length_app. simpl. lia.
      * rewrite length_app. simpl. lia.
      * rewrite length_app, length_fmap. lia.
      * rewrite length_app. unfold Row.vals.
        destruct (Row.value r) as [v|]; simpl; [|lia].
        rewrite length_take_le by (by apply Hval). lia.
    + intros ([Hall Hall'] & ->).
      exists (push_result c r). split; [by apply Hpush|].
      apply IH; [done|simpl; unfold Vec.size in *..|].
      * rewrite length_app. simpl. lia.
      * rewrite length_app. simpl. lia.
      * rewrite length_app, length_fmap. lia.
      * rewrite length_app. unfold Row.vals.
        destruct (Row.value r) as [v|]; simpl; [|lia].
        rewrite length_take_le by (by apply Hval). lia.
      * by rewrite pushes_result_cons.
Qed.

Lemma values_length hv rows :
  Forall Row.valid rows →
  Forall (λ r, bool_decide (is_Some (Row.value r)) = hv) rows →
  (rows ≫= λ r, default [] (Row.vals r)) = (if hv then (rows ≫= λ r, default [] (Row.vals r)) else []) ∧
  (length (rows ≫= λ r, default [] (Row.vals r)) ≤ length (rows ≫= Row.ids))%nat.
Proof.
  induction 1 as [|r rows Hr Hrows IH]; intros Hu; [by destruct hv|].
  apply Forall_cons in Hu as [Hur Hu]. destruct (IH Hu) as [IH1 IH2].
  change ((r :: rows) ≫= Row.ids) with (Row.ids r ++ (rows ≫= Row.ids)).
  change ((r :: rows) ≫= λ r, default [] (Row.vals r))
    with (default [] (Row.vals r) ++ (rows ≫= λ r, default [] (Row.vals r))).
  destruct Hr as (Hlen & Hidx & Hpos & Hval).
  rewrite !length_app. unfold Row.vals, Row.ids in *.
  destruct (Row.value r) as [v|] eqn:Hv; simpl.
  - rewrite bool_decide_eq_true_2 in Hur by done. subst hv.
    split; [done|]. rewrite !length_take. specialize (Hval v eq_refl). lia.
  - rewrite bool_decide_eq_false_2 in Hur by (by intros [? ?]). subst hv.
    split; [done|]. lia.
Qed.

(** The block assembled from rows gives the same container as the rows. *)
Lemma block_result_assemble hv rows c0 :
  Forall Row.valid rows →
  Forall (λ r, bool_decide (is_Some (Row.value r)) = hv) rows →
  block_result (Clear c0) (assemble hv rows) = pushes_result (Clear c0) rows.
Proof.
  intros Hrows Hu. unfold block_result, pushes_result.
  rewrite assemble_ndata by done.
  destruct (values_length hv rows Hrows Hu) as [Hv Hvlen].
  simpl. rewrite !Nat2Z.id. f_equal.
  - f_equal. rewrite drop_0, take_ge by (by rewrite offsets_from_length).
    unfold Vec.size. simpl. apply offsets_from_shift.
  - by rewrite take_ge by (by rewrite length_fmap).
  - by rewrite take_ge.
  - destruct hv; [|done].
    rewrite drop_ge by (rewrite length_replicate; lia).
    by rewrite app_nil_r, take_ge.
  - by rewrite take_ge.
Qed.

(** C2. For rows laid out as rows are, all with explicit values or all
    without, and the block assembled from them: pushing the rows one by one
    into a cleared container returns a container exactly when pushing the
    block into a cleared container returns it; and both return when every
    feature id is below the maximum of the index type. *)
Theorem Push_rows_as_block (hv : bool) (rows : list Row.t) (c0 : t) :
  Forall Row.valid rows →
  Forall (λ r, bool_decide (is_Some (Row.value r)) = hv) rows →
  RowBlock.valid (assemble hv rows) →
  (∀ c, Trace.run (Trace.OpPush <$> rows) (Clear c0) = Done c ↔
        PushBlock (Clear c0) (assemble hv rows) = Done c) ∧
  (Forall (λ x, x < numeric_max IndexType) (rows ≫= Row.ids) →
   ∃ c, Trace.run (Trace.OpPush <$> rows) (Clear c0) = Done c ∧
        PushBlock (Clear c0) (assemble hv rows) = Done c).
Proof.
  intros Hrows Hu Hb.
  pose proof (assemble_ndata hv rows Hrows) as Hnd.
  pose proof Hb as (_ & _ & _ & _ & _ & _ & _ & _ & Hs4 & Hnd4).
  rewrite Hnd in Hnd4. unfold sizeof_real_t in *. simpl in Hs4.
  assert (Hrun : ∀ c, Trace.run (Trace.OpPush <$> rows) (Clear c0) = Done c ↔
            Forall (λ x, x < numeric_max IndexType) (rows ≫= Row.ids) ∧
            c = pushes_result (Clear c0) rows).
  { intros c. apply run_pushes; [done|unfold Vec.size, Vec.max_size; simpl; lia..]. }
  assert (Hblock : ∀ c, PushBlock (Clear c0) (assemble hv rows) = Done c ↔
            Forall (λ x, x < numeric_max IndexType) (rows ≫= Row.ids) ∧
            c = pushes_result (Clear c0) rows).
  { intros c. rewrite (PushBlock_Done _ _ _ (coherent_Clear c0) Hb).
    rewrite Hnd, Nat2Z.id, block_result_assemble by done.
    change (RowBlock.index (assemble hv rows)) with (rows ≫= Row.ids).
    rewrite take_ge by done.
    unfold Vec.size. simpl. split; [naive_solver|].
    intros [Hall ->]. split_and!; [done|right; lia|right; lia| |done].
    intros. right. lia. }
  split.
  - intros c. by rewrite Hrun, Hblock.
  - intros Hall. exists (pushes_result (Clear c0) rows).
    split; [by apply Hrun|by apply Hblock].
Qed.
End Merge.

(** The container must be cleared for this: into a container that
    already holds [row_a], the block that holds [row_b] is copied with its
    value at position 1 (the number of rows) instead of position 2 (the end
    of [value]), where pushing [row_b] itself appends it. *)
Lemma PushBlock_after_a_row :
  let c := RowBlockContainer.mk [0; 2] [one_f] [1; 3] [5; 6] 3 in
  RowBlockContainer.Push (IndexType := index_t) (RowBlockContainer.Clear blank) row_a
  = Done c ∧
  RowBlockContainer.Push (IndexType := index_t) c row_b
  = Done (RowBlockContainer.mk [0; 2; 3] [one_f; 7] [1; 3; 2] [5; 6; 9] 3) ∧
  RowBlockContainer.PushBlock (IndexType := index_t) c (assemble true [row_b])
  = Done (RowBlockContainer.mk [0; 2; 3] [one_f; 7] [1; 3; 2] [5; 9; 0] 3).
Proof. repeat split; vm_compute; reflexivity. Qed.

(** ** The binary stream *)

Section Streams.
Import RowBlockContainer.
Context {IndexType : UnsignedType}.

Lemma le_bytes_length n x : length (Stream.le_bytes n x) = n.
Proof. revert x. induction n as [|n IH]; intros x; simpl; [done|]. by rewrite IH. Qed.

Lemma le_value_le_bytes n x :
  0 <= x < 256 ^ Z.of_nat n → Stream.le_value (Stream.le_bytes n x) = x.
Proof.
  revert x. induction n as [|n IH]; intros x Hx.
  - simpl in *. lia.
  - rewrite Nat2Z.inj_succ, Z.pow_succ_r in Hx by lia. simpl.
    rewrite IH.
    + pose proof (Z.div_mod x 256). lia.
    + split; [apply Z.div_pos; lia|].
      apply Z.div_lt_upper_bound; lia.
Qed.

(** The bytes of a vector after its length prefix. *)
Lemma decode_encode sz (vec rest : list Z) :
  Forall (λ x, 0 <= x < 256 ^ Z.of_nat sz) vec →
  Stream.decode sz (length vec) (mjoin (Stream.le_bytes sz <$> vec) ++ rest) = vec ∧
  drop (length vec * sz) (mjoin (Stream.le_bytes sz <$> vec) ++ rest) = rest.
Proof.
  induction 1 as [|x vec Hx Hvec [IH1 IH2]]; [done|].
  assert (E : mjoin (Stream.le_bytes sz <$> x :: vec) ++ rest
              = Stream.le_bytes sz x ++ mjoin (Stream.le_bytes sz <$> vec) ++ rest).
  { rewrite fmap_cons. simpl. by rewrite <- app_assoc. }
  rewrite E. clear E.
  change (Stream.decode sz (length (x :: vec)) ?bs)
    with (Stream.le_value (take sz bs) :: Stream.decode sz (length vec) (drop sz bs)).
  rewrite take_app_length' by (by rewrite le_bytes_length).
  rewrite drop_app_length' by (by rewrite le_bytes_length).
  rewrite le_value_le_bytes, IH1 by done. split; [done|].
  change (length (x :: vec) * sz)%nat with (sz + length vec * sz)%nat.
  rewrite <- drop_drop, drop_app_length' by (by rewrite le_bytes_length). done.
Qed.

(** What has been written is read back, and the stream is left where the
    next vector starts. *)
Lemma Read_Write sz (vec rest : list Z) :
  0 < sz →
  Forall (λ x, 0 <= x < 256 ^ sz) vec → Vec.size vec < 2 ^ 64 →
  Stream.Read sz (Stream.Write sz vec [] ++ rest) = Some (vec, rest).
Proof.
  intros Hsz Hvec Hlen. unfold Stream.Read, Stream.Write.
  rewrite app_nil_l, <- app_assoc.
  assert (H8 : length (Stream.le_bytes 8 (Vec.size vec)) = 8%nat) by apply le_bytes_length.
  rewrite decide_True by (rewrite length_app; lia).
  rewrite take_app_length', drop_app_length' by done.
  rewrite le_value_le_bytes by (unfold Vec.size in *; change (256 ^ Z.of_nat 8) with (2 ^ 64); lia).
  rewrite <- (Z2Nat.id sz) in Hvec by lia.
  destruct (decode_encode (Z.to_nat sz) vec rest Hvec) as [Hdec Hdrop].
  assert (Hbytes : length (mjoin (Stream.le_bytes (Z.to_nat sz) <$> vec))
                   = (length vec * Z.to_nat sz)%nat).
  { clear. induction vec as [|x vec IH]; [done|].
    rewrite fmap_cons.
    change (mjoin (Stream.le_bytes (Z.to_nat sz) x :: (Stream.le_bytes (Z.to_nat sz) <$> vec)))
      with (Stream.le_bytes (Z.to_nat sz) x ++ mjoin (Stream.le_bytes (Z.to_nat sz) <$> vec)).
    rewrite length_app, le_bytes_length, IH. simpl. lia. }
  rewrite decide_True by (rewrite length_app, Hbytes; unfold Vec.size; nia).
  unfold Vec.size. rewrite Nat2Z.id, Hdec.
  replace (Z.to_nat (Z.of_nat (length vec) * sz)) with (length vec * Z.to_nat sz)%nat by nia.
  by rewrite Hdrop.
Qed.

Lemma Save_bytes c :
  Save c [] = Stream.Write sizeof_size_t (offset c) []
              ++ Stream.Write sizeof_real_t (label c) []
              ++ Stream.Write (sizeof IndexType) (index c) []
              ++ Stream.Write sizeof_real_t (value c) [] ++ [].
Proof.
  unfold Save, Stream.Write. by rewrite !app_nil_l, !app_nil_r, <- !app_assoc.
Qed.

Lemma checked_read_Write c sz (vec rest : list Z) :
  0 < sz →
  Forall (λ x, 0 <= x < 256 ^ sz) vec → Vec.size vec < 2 ^ 64 →
  checked_read c sz (Stream.Write sz vec [] ++ rest) = Done (vec, rest).
Proof.
  intros. unfold checked_read. by rewrite Read_Write.
Qed.

Lemma sizeof_range : 0 < sizeof IndexType ∧ 256 ^ sizeof IndexType = 2 ^ digits IndexType.
Proof. destruct IndexType; split; reflexivity. Qed.

(** Read back in the order they were written, the four arrays are the
    ones that were saved. *)
Lemma Load_as_specified_Save c c0 :
  storable c →
  Load_as_specified c0 (Save c [])
  = Done ({| offset := offset c; label := label c; index := index c; value := value c;
             max_index := max_index c0 |}, []).
Proof.
  intros (Ho & Hl & Hi & Hv & Hso & Hsl & Hsi & Hsv).
  destruct sizeof_range as [Hsz Hpow]. rewrite <- Hpow in Hi.
  rewrite Save_bytes. unfold Load_as_specified.
  rewrite checked_read_Write by done. cbn [bind].
  rewrite checked_read_Write by done. cbn [bind].
  rewrite checked_read_Write by done. cbn [bind].
  rewrite checked_read_Write by done. cbn [bind]. done.
Qed.
End Streams.

(** With a 32-bit index type, [Load] hands the saved indices to [value] and
    the saved values to [index], whatever the container. *)
Lemma Load_Save_exchanged c c0 :
  RowBlockContainer.storable (IndexType := uint32_t) c →
  RowBlockContainer.Load (IndexType := uint32_t) c0
    (RowBlockContainer.Save (IndexType := uint32_t) c [])
  = Done ({| RowBlockContainer.offset := RowBlockContainer.offset c;
             RowBlockContainer.label := RowBlockContainer.label c;
             RowBlockContainer.index := RowBlockContainer.value c;
             RowBlockContainer.value := RowBlockContainer.index c;
             RowBlockContainer.max_index := RowBlockContainer.max_index c0 |}, []).
Proof.
  intros (Ho & Hl & Hi & Hv & Hso & Hsl & Hsi & Hsv).
  rewrite Save_bytes. unfold RowBlockContainer.Load.
  rewrite checked_read_Write by done. cbn [bind].
  rewrite checked_read_Write by done. cbn [bind].
  change (sizeof uint32_t) with sizeof_real_t.
  rewrite checked_read_Write by done. cbn [bind].
  rewrite checked_read_Write by done. cbn [bind]. done.
Qed.

(** C1: what [Load] makes of a saved container. The container holds the
    row [1 1:0.5 3:2.0]; [Load] reads the value array before the index
    array, so the bytes of the saved indices come back as values, the bytes
    of the saved values as indices, and the exported blocks differ. *)
Theorem Load_Save_exchanges_index_and_value :
  let c := RowBlockContainer.mk [0; 2] [one_f] [1; 3] [half_f; two_f] 3 in
  let c' := RowBlockContainer.mk [0; 2] [one_f] [half_f; two_f] [1; 3] 0 in
  Trace.run (IndexType := index_t)
    [Trace.OpPush (Row.mk one_f 2 [1; 3] (Some [half_f; two_f]))]
    (RowBlockContainer.Clear (RowBlockContainer.mk [] [] [] [] 0)) = Done c ∧
  RowBlockContainer.Load (IndexType := index_t)
    (RowBlockContainer.mk [] [] [] [] 0)
    (RowBlockContainer.Save (IndexType := index_t) c []) = Done (c', []) ∧
  RowBlockContainer.GetBlock c
  = Done (RowBlock.mk 1 [0; 2] [one_f] [1; 3] (Some [half_f; two_f])) ∧
  RowBlockContainer.GetBlock c'
  = Done (RowBlock.mk 1 [0; 2] [one_f] [half_f; two_f] (Some [1; 3])).
Proof. repeat split; vm_compute; reflexivity. Qed.

(** ** Element access through the views *)

(** The view [b[r]] of a block laid out as blocks are. *)
Lemma subscript_row (b : RowBlock.t) (r : Z) :
  RowBlock.valid b → 0 <= r < RowBlock.size b →
  ∃ lbl lo hi,
    RowBlock.label b !! Z.to_nat r = Some lbl ∧
    RowBlock.offset b !! Z.to_nat r = Some lo ∧
    RowBlock.offset b !! Datatypes.S (Z.to_nat r) = Some hi ∧
    0 <= lo <= hi ∧ hi <= RowBlock.ndata b ∧
    RowBlock.subscript b r =
      Done {| Row.label := lbl;
              Row.length := hi - lo;
              Row.index := drop (Z.to_nat lo) (RowBlock.index b);
              Row.value := drop (Z.to_nat lo) <$> RowBlock.value b |}.
Proof.
  intros (Hsz & Hoff & H0 & Hmono & Hlab & _ & _ & _ & Hs64 & Hnd) Hr.
  unfold sizeof_real_t in *.
  destruct (lookup_lt_is_Some_2 (RowBlock.label b) (Z.to_nat r)) as [lbl Hl]; [lia|].
  destruct (lookup_lt_is_Some_2 (RowBlock.offset b) (Z.to_nat r)) as [lo Hlo]; [lia|].
  destruct (lookup_lt_is_Some_2 (RowBlock.offset b) (Datatypes.S (Z.to_nat r)))
    as [hi Hhi]; [lia|].
  destruct (lookup_lt_is_Some_2 (RowBlock.offset b) (Z.to_nat (RowBlock.size b)))
    as [nd Hz]; [lia|].
  assert (Hle : lo <= hi)
    by (eapply (Hmono (Z.to_nat r) (Datatypes.S (Z.to_nat r))); [lia|done..]).
  assert (H0lo : 0 <= lo) by (eapply (Hmono 0%nat (Z.to_nat r)); [lia|done..]).
  assert (Hhind : hi <= nd).
  { eapply (Hmono (Datatypes.S (Z.to_nat r)) (Z.to_nat (RowBlock.size b))); [lia|done..]. }
  unfold RowBlock.ndata in *. rewrite Hz in *. simpl in Hnd |- *.
  exists lbl, lo, hi. split_and!; try done.
  unfold RowBlock.subscript, CHECK.
  destruct (Z.ltb_spec r (RowBlock.size b)); [|lia]. cbn [bind].
  rewrite (proj2 (read_Done _ _ _) Hl). cbn [bind].
  rewrite wrap64_small by lia.
  replace (Z.to_nat (r + 1)) with (Datatypes.S (Z.to_nat r)) by lia.
  rewrite (proj2 (read_Done _ _ _) Hhi). cbn [bind].
  rewrite (proj2 (read_Done _ _ _) Hlo). cbn [bind].
  by rewrite wrap64_small by lia.
Qed.

(** X1. Reading entry [i] of the view [b[r]] reads entry [offset[r] + i] of
    the arrays of the block, which lies among the [offset[size]] entries of
    the block; without a value array the value read is [1.0f]. *)
Theorem row_view_access (b : RowBlock.t) (r i : Z) (row : Row.t) :
  RowBlock.valid b → 0 <= r →
  RowBlock.subscript b r = Done row →
  0 <= i < Row.length row →
  ∃ lo x,
    RowBlock.offset b !! Z.to_nat r = Some lo ∧
    0 <= lo ∧ lo + i < RowBlock.ndata b ∧
    RowBlock.index b !! Z.to_nat (lo + i) = Some x ∧
    Row.get_index row i = Done x ∧
    match RowBlock.value b with
    | None => Row.get_value row i = Done one_f
    | Some v => ∃ y, v !! Z.to_nat (lo + i) = Some y ∧ Row.get_value row i = Done y
    end.
Proof.
  intros Hb Hr Hrow Hi.
  assert (Hlt : r < RowBlock.size b).
  { unfold RowBlock.subscript, CHECK in Hrow.
    destruct (Z.ltb_spec r (RowBlock.size b)); [done|discriminate]. }
  destruct (subscript_row b r Hb) as (lbl & lo & hi & _ & Hlo & _ & Hlohi & Hhi & Heq); [lia|].
  rewrite Heq in Hrow. injection Hrow as <-. simpl in Hi.
  destruct Hb as (_ & _ & _ & _ & _ & Hidx & _ & Hval & _).
  destruct (lookup_lt_is_Some_2 (RowBlock.index b) (Z.to_nat (lo + i))) as [x Hx]; [lia|].
  exists lo, x. split_and!; [done|lia|lia|done| |].
  - unfold Row.get_index, Vec.read. simpl. rewrite lookup_drop.
    replace (Z.to_nat lo + Z.to_nat i)%nat with (Z.to_nat (lo + i)) by lia.
    by rewrite Hx.
  - unfold Row.get_value. simpl. destruct (RowBlock.value b) as [v|]; simpl; [|done].
    specialize (Hval v eq_refl).
    destruct (lookup_lt_is_Some_2 v (Z.to_nat (lo + i))) as [y Hy]; [lia|].
    exists y. split; [done|]. unfold Vec.read. rewrite lookup_drop.
    replace (Z.to_nat lo + Z.to_nat i)%nat with (Z.to_nat (lo + i)) by lia.
    by rewrite Hy.
Qed.

(** ** All views of a block *)

Lemma list_bind_cons {A B} (f : A → list B) (x : A) (l : list A) :
  (x :: l) ≫= f = f x ++ (l ≫= f).
Proof. done. Qed.

Lemma views_from_tile (b : RowBlock.t) (n : nat) (r lo : Z) :
  RowBlock.valid b → 0 <= r → r + Z.of_nat n = RowBlock.size b →
  RowBlock.offset b !! Z.to_nat r = Some lo →
  ∃ rows, views_from b r n = Done rows ∧
    Row.label <$> rows = take n (drop (Z.to_nat r) (RowBlock.label b)) ∧
    rows ≫= Row.ids
    = take (Z.to_nat (RowBlock.ndata b - lo)) (drop (Z.to_nat lo) (RowBlock.index b)) ∧
    match RowBlock.value b with
    | None => Forall (λ row, Row.value row = None) rows
    | Some v =>
        rows ≫= (λ row, default [] (Row.vals row))
        = take (Z.to_nat (RowBlock.ndata b - lo)) (drop (Z.to_nat lo) v)
    end.
Proof.
  intros Hb. revert r lo. induction n as [|n IH]; intros r lo Hr Hn Hlo.
  - exists []. split; [done|]. split; [done|].
    assert (Hnd : RowBlock.ndata b = lo).
    { unfold RowBlock.ndata. replace (RowBlock.size b) with r by lia. by rewrite Hlo. }
    rewrite Hnd, Z.sub_diag. simpl. split; [done|].
    by destruct (RowBlock.value b).
  - destruct (subscript_row b r Hb) as (lbl & lo' & hi & Hl & Hlo' & Hhi & Hlohi & Hhind & Heq);
      [lia|].
    rewrite Hlo in Hlo'. injection Hlo' as <-.
    destruct (IH (r + 1) hi) as (rows & Hrows & Hlabels & Hids & Hvals); [lia|lia| |].
    { by replace (Z.to_nat (r + 1)) with (Datatypes.S (Z.to_nat r)) by lia. }
    eexists. split.
    { cbn [views_from]. rewrite Heq. cbn [bind]. rewrite Hrows. cbn [bind]. done. }
    assert (Hsplit : ∀ (l : list Z),
      take (Z.to_nat (hi - lo)) (drop (Z.to_nat lo) l)
      ++ take (Z.to_nat (RowBlock.ndata b - hi)) (drop (Z.to_nat hi) l)
      = take (Z.to_nat (RowBlock.ndata b - lo)) (drop (Z.to_nat lo) l)).
    { intros l.
      replace (drop (Z.to_nat hi) l)
        with (drop (Z.to_nat (hi - lo)) (drop (Z.to_nat lo) l))
        by (rewrite drop_drop; f_equal; lia).
      rewrite take_take_drop. f_equal. lia. }
    split_and!.
    + rewrite fmap_cons, Hlabels. simpl.
      replace (Z.to_nat (r + 1)) with (Datatypes.S (Z.to_nat r)) by lia.
      symmetry. by apply take_drop_S.
    + rewrite (list_bind_cons Row.ids), Hids. unfold Row.ids. simpl. apply Hsplit.
    + destruct (RowBlock.value b) as [v|].
      * rewrite (list_bind_cons (λ row, default [] (Row.vals row))), Hvals. unfold Row.vals. simpl. apply Hsplit.
      * by apply Forall_cons.
Qed.

(** X2. On a block laid out as blocks are, the views [b[0]], ...,
    [b[size - 1]] all exist, and one after the other they hold the labels,
    the feature ids and the values of the block, each entry once and in
    order. *)
Theorem views_tile_block (b : RowBlock.t) :
  RowBlock.valid b →
  ∃ rows, views b = Done rows ∧
    Row.label <$> rows = take (Z.to_nat (RowBlock.size b)) (RowBlock.label b) ∧
    rows ≫= Row.ids = take (Z.to_nat (RowBlock.ndata b)) (RowBlock.index b) ∧
    match RowBlock.value b with
    | None => Forall (λ row, Row.value row = None) rows
    | Some v =>
        rows ≫= (λ row, default [] (Row.vals row)) = take (Z.to_nat (RowBlock.ndata b)) v
    end.
Proof.
  intros Hb. pose proof Hb as (Hsz & _ & H0 & _).
  destruct (views_from_tile b (Z.to_nat (RowBlock.size b)) 0 0 Hb) as (rows & H);
    [lia|lia|done|].
  rewrite Z.sub_0_r in H. change (Z.to_nat 0) with 0%nat in H.
  exists rows. destruct (RowBlock.value b); by rewrite ?drop_0 in H.
Qed.

(** ** The bound check of [SDot], and rows without values *)

(** X3. On a row with a feature id that is not below [size], [SDot] stops
    in its bound check, whether the row has values or not (the row laid out
    as rows are, and [weight] holding [size] entries). *)
Theorem SDot_bound_check {V : Type} (zero : V) (add : V → V → V) (mul : V → Z → V)
    (r : Row.t) (weight : list V) (size : Z) :
  Row.valid r → (Z.to_nat size ≤ length weight)%nat →
  Exists (λ x, size <= x) (Row.ids r) →
  Row.SDot zero add mul r weight size = Fatal OutOfRange tt.
Proof.
  intros Hr Hw Hex. unfold Row.SDot.
  by rewrite (proj2 (SDot_sum_spec zero add mul r weight size Hr Hw) Hex).
Qed.

(** [Row.SDot_sum] is [SDot_loops] for a weight type in which the product
    is computed. *)
Lemma SDot_sum_loops {V : Type} (zero : V) (add : V → V → V) (mul : V → Z → V)
    (r : Row.t) (weight : list V) (size : Z) :
  Row.SDot_sum zero add mul r weight size
  = SDot_loops zero add (λ sum w v, add sum (mul w v)) r weight size.
Proof. unfold Row.SDot_sum, SDot_loops. by destruct (Row.value r). Qed.

Lemma SDot_ones_loop {V : Type} (add : V → V → V) (add_product : V → V → Z → V)
    (idx : list Z) (weight : list V) (size : Z) (m n i : nat) (acc : V) :
  (∀ sum w, w ∈ weight → add_product sum w one_f = add sum w) → (i + n ≤ m)%nat →
  for_loop (S := unit) n i (λ i sum,
    let* x := Vec.read idx i in
    let* _ := CHECK (x <? size) OutOfRange tt in
    let* w := Vec.read weight (Z.to_nat x) in
    Done (add sum w)) acc
  = for_loop (S := unit) n i (λ i sum,
    let* x := Vec.read idx i in
    let* _ := CHECK (x <? size) OutOfRange tt in
    let* w := Vec.read weight (Z.to_nat x) in
    let* v := Vec.read (replicate m one_f) i in
    Done (add_product sum w v)) acc.
Proof.
  intros Hone. revert i acc. induction n as [|n IH]; intros i acc Hi; [done|].
  rewrite !for_loop_S.
  destruct (Vec.read idx i) as [x| |]; cbn [bind]; [|done..].
  destruct (CHECK (x <? size) OutOfRange tt) as [[]| |]; cbn [bind]; [|done..].
  destruct (Vec.read weight (Z.to_nat x)) as [w| |] eqn:Hw; cbn [bind]; [|done..].
  apply read_Done, list_elem_of_lookup_2 in Hw.
  assert (Hv : Vec.read (S := unit) (replicate m one_f) i = Done one_f)
    by (apply read_Done, lookup_replicate_2; lia).
  rewrite Hv. cbn [bind].
  rewrite (Hone _ _ Hw). apply IH. lia.
Qed.

(** X4. An absent value array stands for values that are all [1.0f]: when
    [sum += w * 1.0f] leaves in [sum] what [sum += w] leaves there, for the
    weights of the array (as it does for [float] and [double] weights, and
    does not for large integral ones), the loops of [SDot] end the same
    way, with the same [sum], on a row without values and on the row with
    [1.0f] written out at every entry. *)
Theorem SDot_absent_values_are_ones {V : Type} (zero : V) (add : V → V → V)
    (add_product : V → V → Z → V) (r : Row.t) (weight : list V) (size : Z) :
  (∀ sum w, w ∈ weight → add_product sum w one_f = add sum w) →
  Row.value r = None →
  SDot_loops zero add add_product r weight size
  = SDot_loops zero add add_product (with_ones r) weight size.
Proof.
  intros Hone Hnone. unfold SDot_loops, with_ones. rewrite Hnone. simpl.
  apply SDot_ones_loop; [done|lia].
Qed.

(** ** The size of a container, and containers that were never cleared *)

Section Sizes.
Import RowBlockContainer Result.
Context {IndexType : UnsignedType}.

Lemma Size_coherent c : coherent c → Size c = Vec.size (label c).
Proof.
  intros (Hoff & _ & _ & Hfo & _). unfold Size, Vec.size, Vec.max_size in *.
  rewrite wrap64_small by lia. lia.
Qed.

Lemma step_Size c o c' :
  coherent c → Trace.block_valid o → Trace.step c o = Done c' →
  Size c' = match o with Trace.OpClear => 0 | _ => Size c + op_rows o end.
Proof.
  intros Hc Ho Hstep.
  pose proof (step_coherent _ _ _ Hc Ho Hstep) as Hc'.
  rewrite (Size_coherent c Hc), (Size_coherent c' Hc').
  destruct o as [|row|b]; simpl in *.
  - by injection Hstep as <-.
  - apply Push_Done in Hstep as (_ & _ & _ & _ & _ & _ & ->).
    unfold Vec.size. simpl. rewrite length_app. simpl. lia.
  - apply (PushBlock_Done _ _ _ Hc Ho) in Hstep as (_ & _ & _ & _ & ->).
    destruct (block_result_lengths c b Ho) as (_ & Hl & _).
    destruct Ho as (Hsz & _). unfold Vec.size. rewrite Hl. lia.
Qed.

Lemma run_Size ops c c' :
  coherent c → Forall Trace.block_valid ops → Trace.run ops c = Done c' →
  Size c' = rows_since_clear (Size c) ops.
Proof.
  revert c. induction ops as [|o ops IH]; intros c Hc Hops.
  - by intros [= <-].
  - simpl. rewrite bind_Done. intros (c1 & Hstep & Hrun).
    apply Forall_cons in Hops as [Ho Hops].
    pose proof (step_coherent _ _ _ Hc Ho Hstep) as Hc1.
    rewrite (IH c1 Hc1 Hops Hrun), (step_Size _ _ _ Hc Ho Hstep).
    by destruct o.
Qed.

(** X5. After a sequence of [Clear], [Push(Row)] and [Push(RowBlock)] that
    has returned on a cleared container, [Size()] is the number of rows
    handed over since the last [Clear] (one for a row, [size] for a block),
    which is the number of labels held. *)
Theorem Size_counts_rows (ops : list Trace.op) (c0 c : t) :
  Forall Trace.block_valid ops →
  Trace.run ops (Clear c0) = Done c →
  Size c = rows_since_clear 0 ops ∧ Size c = Vec.size (label c).
Proof.
  intros Hops Hrun. split.
  - by rewrite (run_Size _ _ _ (coherent_Clear c0) Hops Hrun).
  - apply Size_coherent. by eapply run_coherent.
Qed.

(** X6. [Push(RowBlock)] into a container whose [offset] is empty (one that
    was never cleared) has no defined behaviour: with a block laid out as
    blocks are, the labels are copied, [index] is enlarged, and then
    [offset.back()] is taken of the empty vector. *)
Theorem PushBlock_before_Clear (c : t) (batch : RowBlock.t) :
  offset c = [] → RowBlock.valid batch → PushBlock c batch = Undefined.
Proof.
  intros Hoff (Hsz & Hboff & _). unfold PushBlock.
  assert (Hnd : is_Some (RowBlock.offset batch !! Z.to_nat (RowBlock.size batch)))
    by (apply lookup_lt_is_Some_2; lia).
  destruct (Vec.memcpy _ _ _ _ _) as [label'| |] eqn:Hcpy; cbn [bind]; [|..|done].
  - destruct Hnd as [ndata Hnd]. rewrite (proj2 (read_Done _ _ _) Hnd). cbn [bind].
    cbn [offset set_index set_label]. by rewrite Hoff.
  - unfold Vec.memcpy in Hcpy. repeat case_decide; discriminate.
Qed.

Lemma Push_lengths c row c' :
  Push c row = Done c' →
  length (offset c') = Datatypes.S (length (offset c)) ∧
  length (label c') = Datatypes.S (length (label c)) ∧
  Vec.size (label c') <= Vec.max_size.
Proof.
  rewrite Push_Done. intros (Hl & _ & _ & _ & _ & _ & ->).
  unfold Vec.size in *. simpl. rewrite !length_app. simpl. lia.
Qed.

(** X7. A container whose vectors are all empty (one that was never
    cleared) accepts rows, but holds one offset too few ever after:
    whatever rows have been pushed, [GetBlock] stops in its first
    consistency check and [Size()] is one less than the number of rows
    (it wraps around when there is none). *)
Theorem GetBlock_before_Clear (rows : list Row.t) (c c' : t) :
  offset c = [] → label c = [] →
  Trace.run (Trace.OpPush <$> rows) c = Done c' →
  GetBlock c' = Fatal Inconsistent c' ∧
  Size c' = wrap64 (Z.of_nat (length rows) - 1).
Proof.
  intros Hoff Hlab Hrun.
  assert (Hinv : length (offset c') = length rows ∧ length (label c') = length rows ∧
                 Vec.size (label c') <= Vec.max_size).
  { assert (Hgen : ∀ n, length (offset c) = n → length (label c) = n →
                        Vec.size (label c) <= Vec.max_size →
              length (offset c') = (n + length rows)%nat ∧
              length (label c') = (n + length rows)%nat ∧
              Vec.size (label c') <= Vec.max_size).
    { clear Hoff Hlab. revert c Hrun.
      induction rows as [|r rows IH]; intros c Hrun n Ho Hl Hfit.
      - injection Hrun as <-. simpl. lia.
      - simpl in Hrun. apply bind_Done in Hrun as (c1 & Hpush & Hrun).
        destruct (Push_lengths _ _ _ Hpush) as (Ho1 & Hl1 & Hfit1).
        destruct (IH c1 Hrun (Datatypes.S n)) as (? & ? & ?); [lia..|].
        simpl. split_and!; lia. }
    apply (Hgen 0%nat); [by rewrite Hoff|by rewrite Hlab|].
    rewrite Hlab. unfold Vec.size, Vec.max_size. simpl. lia. }
  destruct Hinv as (Ho & Hl & Hfit). split.
  - unfold GetBlock, CHECK, Vec.size, Vec.max_size in *. rewrite Ho, Hl in *.
    destruct (Z.eqb_spec (wrap64 (Z.of_nat (length rows) + 1)) (Z.of_nat (length rows)))
      as [Heq|]; [|done].
    exfalso. unfold wrap64 in Heq.
    destruct (decide (Z.of_nat (length rows) + 1 < 2 ^ 64)).
    + rewrite Z.mod_small in Heq by lia. lia.
    + replace (Z.of_nat (length rows) + 1) with (2 ^ 64) in Heq by lia.
      rewrite Z.mod_same in Heq by lia. lia.
  - unfold Size, Vec.size. by rewrite Ho.
Qed.
End Sizes.

(** ** What [GetBlock] answers after a run *)

Section Exporting.
Import RowBlockContainer Result.
Context {IndexType : UnsignedType}.

(** The answer of [GetBlock] on a container that the pushes left. *)
Lemma GetBlock_coherent c :
  coherent c →
  GetBlock c
  = if decide (length (value c) = length (index c) ∨ length (value c) = 0%nat)
    then Done {| RowBlock.size := Z.of_nat (length (label c));
                 RowBlock.offset := offset c;
                 RowBlock.label := label c;
                 RowBlock.index := index c;
                 RowBlock.value :=
                   if Vec.size (value c) =? 0 then None else Some (value c) |}
    else Fatal Inconsistent c.
Proof.
  intros (Hoff & Hlast & _ & Hfo & _).
  unfold GetBlock, CHECK, Vec.size, Vec.max_size in *.
  rewrite wrap64_small by lia.
  destruct (Z.eqb_spec (Z.of_nat (length (label c)) + 1) (Z.of_nat (length (offset c))));
    [|lia]. cbn [bind].
  rewrite (proj2 (back_Done _ _) Hlast). cbn [bind].
  rewrite Z.eqb_refl. cbn [bind].
  case_decide as Hv.
  - assert (Hc : (Z.of_nat (length (index c)) =? Z.of_nat (length (value c)))
                 || (Z.of_nat (length (value c)) =? 0) = true).
    { apply orb_true_iff. destruct Hv as [Hv|Hv]; [left|right]; apply Z.eqb_eq; lia. }
    rewrite Hc. cbn [bind]. rewrite wrap64_small by lia. do 2 f_equal. lia.
  - assert (Hc : (Z.of_nat (length (index c)) =? Z.of_nat (length (value c)))
                 || (Z.of_nat (length (value c)) =? 0) = false).
    { apply orb_false_iff. split; apply Z.eqb_neq; lia. }
    by rewrite Hc.
Qed.

(** X8. After every sequence of [Clear], [Push(Row)] and [Push(RowBlock)]
    that has returned on a cleared container, [GetBlock] either returns the
    block that shows the four vectors, or stops in its third consistency
    check with the container as it is; it returns exactly when [value] is
    empty or as long as [index]. *)
Theorem GetBlock_after_run (ops : list Trace.op) (c0 c : t) :
  Forall Trace.block_valid ops →
  Trace.run ops (Clear c0) = Done c →
  GetBlock c
  = if decide (length (value c) = length (index c) ∨ length (value c) = 0%nat)
    then Done {| RowBlock.size := Z.of_nat (length (label c));
                 RowBlock.offset := offset c;
                 RowBlock.label := label c;
                 RowBlock.index := index c;
                 RowBlock.value :=
                   if Vec.size (value c) =? 0 then None else Some (value c) |}
    else Fatal Inconsistent c.
Proof.
  intros Hops Hrun. apply GetBlock_coherent. by eapply run_coherent.
Qed.
End Exporting.

(** ** Where a pushed block lands *)

Section Landing.
Import RowBlockContainer Result.
Context {IndexType : UnsignedType}.

(** X9. [Push(RowBlock)] copies the values of the block to position
    [label.size()] of the enlarged [value], not to its old end. So they are
    appended when the container held as many values as rows (as a cleared
    one does); when it held more values than rows and the block has
    entries, values held before are overwritten and the last new entry of
    [value] keeps the [0.0f] of the resize. *)
Theorem PushBlock_value_position (ops : list Trace.op) (c0 c c' : t)
    (batch : RowBlock.t) (bvalue : list Z) :
  Forall Trace.block_valid ops →
  Trace.run ops (Clear c0) = Done c →
  RowBlock.valid batch →
  RowBlock.value batch = Some bvalue →
  PushBlock c batch = Done c' →
  let ndata := Z.to_nat (RowBlock.ndata batch) in
  let size := length (label c) in
  value c' = take size (value c) ++ take ndata bvalue
             ++ drop (size + ndata) (value c ++ replicate ndata zero_f) ∧
  (length (value c) = size → value c' = value c ++ take ndata bvalue) ∧
  ((size < length (value c))%nat → (0 < ndata)%nat → last (value c') = Some zero_f).
Proof.
  intros Hops Hrun Hb Hbv Hpush ndata size.
  pose proof (run_coherent _ _ _ Hops Hrun) as Hc.
  apply (PushBlock_Done _ _ _ Hc Hb) in Hpush as (_ & _ & _ & Hroom & ->).
  specialize (Hroom bvalue Hbv).
  destruct Hb as (_ & _ & _ & _ & _ & _ & _ & Hbval & _).
  specialize (Hbval bvalue Hbv).
  unfold block_result. simpl. rewrite Hbv. fold ndata size.
  assert (Hfirst : take size (value c ++ replicate ndata zero_f) = take size (value c)).
  { destruct Hroom as [Hz|Hle].
    - assert (ndata = 0%nat) as -> by (unfold ndata; lia).
      simpl. by rewrite app_nil_r.
    - by rewrite take_app_le. }
  rewrite Hfirst. split_and!; [done| |].
  - intros Hlen. rewrite <- Hlen, take_ge by lia. f_equal.
    rewrite drop_ge by (rewrite length_app, length_replicate; lia).
    by rewrite app_nil_r.
  - intros Hlt Hnd. rewrite !app_assoc, last_app.
    assert (Hdrop : drop (size + ndata) (value c ++ replicate ndata zero_f)
                    = drop (size + ndata) (value c)
                      ++ replicate (ndata - (size + ndata - length (value c))) zero_f).
    { rewrite drop_app, drop_replicate. done. }
    rewrite Hdrop, last_app.
    assert (Hrep : ∀ k, (0 < k)%nat → last (replicate k zero_f) = Some zero_f).
    { intros k Hk. rewrite last_lookup, lookup_replicate_2; [done|].
      rewrite length_replicate. lia. }
    rewrite Hrep by lia. done.
Qed.

(** X10. Pushing a block without rows changes nothing in a container that
    was built from a cleared one. *)
Theorem PushBlock_empty_block (ops : list Trace.op) (c0 c : t) (batch : RowBlock.t) :
  Forall Trace.block_valid ops →
  Trace.run ops (Clear c0) = Done c →
  RowBlock.valid batch → RowBlock.size batch = 0 →
  PushBlock c batch = Done c.
Proof.
  intros Hops Hrun Hb Hsz.
  pose proof (run_coherent _ _ _ Hops Hrun) as Hc.
  assert (Hnd : RowBlock.ndata batch = 0).
  { destruct Hb as (_ & _ & H0 & _). unfold RowBlock.ndata. rewrite Hsz.
    change (Z.to_nat 0) with 0%nat. by rewrite H0. }
  apply (PushBlock_Done _ _ _ Hc Hb). rewrite Hnd, Hsz.
  split_and!; [by rewrite take_0|by left|by left|by left|].
  unfold block_result. rewrite Hnd, Hsz. change (Z.to_nat 0) with 0%nat.
  rewrite !take_0. simpl. rewrite !app_nil_r, Nat.add_0_r.
  destruct c as [o l i v m]. simpl. f_equal.
  destruct (RowBlock.value batch); [|done]. by rewrite take_drop.
Qed.

Lemma step_prefix c o c' :
  coherent c → Trace.block_valid o → Trace.is_push o → Trace.step c o = Done c' →
  offset c `prefix_of` offset c' ∧ label c `prefix_of` label c' ∧
  index c `prefix_of` index c'.
Proof.
  intros Hc Ho Hp Hstep. destruct o as [|row|b]; [done|..]; simpl in *.
  - apply Push_Done in Hstep as (_ & _ & _ & _ & _ & _ & ->). simpl.
    split_and!; by apply prefix_app_r.
  - apply (PushBlock_Done _ _ _ Hc Ho) in Hstep as (_ & _ & _ & _ & ->). simpl.
    split_and!; by apply prefix_app_r.
Qed.

(** X11. Pushes only append to [offset], [label] and [index]: what a
    container built from a cleared one holds there stays in place, as it
    is, under every further sequence of [Push(Row)] and [Push(RowBlock)]
    that returns. *)
Theorem pushes_append_only (ops0 ops : list Trace.op) (c0 c c' : t) :
  Forall Trace.block_valid ops0 →
  Trace.run ops0 (Clear c0) = Done c →
  Forall Trace.block_valid ops → Forall Trace.is_push ops →
  Trace.run ops c = Done c' →
  offset c `prefix_of` offset c' ∧ label c `prefix_of` label c' ∧
  index c `prefix_of` index c'.
Proof.
  intros Hops0 Hrun0 Hops Hpush.
  pose proof (run_coherent _ _ _ Hops0 Hrun0) as Hc. clear Hops0 Hrun0.
  revert c Hc. induction ops as [|o ops IH]; intros c Hc.
  - by intros [= <-].
  - simpl. rewrite bind_Done. intros (c1 & Hstep & Hrun).
    apply Forall_cons in Hops as [Ho Hops]. apply Forall_cons in Hpush as [Hp Hpush].
    destruct (step_prefix _ _ _ Hc Ho Hp Hstep) as (H1 & H2 & H3).
    destruct (IH Hops Hpush c1) as (H1' & H2' & H3');
      [by eapply step_coherent|done|].
    split_and!; by etrans.
Qed.

Lemma step_holds c o c' :
  coherent c → Trace.op_valid o → Trace.step c o = Done c' →
  label c' = match o with Trace.OpClear => [] | _ => label c ++ op_labels o end ∧
  index c' = match o with Trace.OpClear => [] | _ => index c ++ Trace.op_ids o end.
Proof.
  intros Hc Ho Hstep.
  destruct o as [|row|b].
  - simpl in Hstep. by injection Hstep as <-.
  - destruct (step_max_index _ _ _ Hc Ho I Hstep) as [Hall _]. simpl in *.
    apply Push_Done in Hstep as (_ & _ & _ & _ & _ & _ & ->). simpl.
    split; [done|]. f_equal. apply narrow_ids_exact; [|done]. apply Forall_take, Ho.
  - destruct (step_max_index _ _ _ Hc Ho I Hstep) as [Hall _]. simpl in *.
    apply (PushBlock_Done _ _ _ Hc Ho) in Hstep as (_ & _ & _ & _ & ->). simpl.
    split; [done|]. f_equal. apply narrow_ids_exact; [|done]. apply Forall_take, Ho.
Qed.

Lemma run_holds ops c c' :
  coherent c → Forall Trace.op_valid ops → Trace.run ops c = Done c' →
  label c' = since_clear op_labels (label c) ops ∧
  index c' = since_clear Trace.op_ids (index c) ops.
Proof.
  revert c. induction ops as [|o ops IH]; intros c Hc Hops.
  - by intros [= <-].
  - simpl. rewrite bind_Done. intros (c1 & Hstep & Hrun).
    apply Forall_cons in Hops as [Ho Hops].
    pose proof (step_coherent _ _ _ Hc (op_valid_block _ Ho) Hstep) as Hc1.
    destruct (IH c1 Hc1 Hops Hrun) as [-> ->].
    destruct (step_holds _ _ _ Hc Ho Hstep) as [-> ->].
    by destruct o.
Qed.

(** X12. A container holds what it was handed: after a sequence of
    [Clear], [Push(Row)] and [Push(RowBlock)] that has returned on a cleared
    container, [label] is the labels and [index] the feature ids handed over
    since the last [Clear], in the order of the pushes, no id altered by the
    cast to the index type. *)
Theorem container_holds_pushed (ops : list Trace.op) (c0 c : t) :
  Forall Trace.op_valid ops →
  Trace.run ops (Clear c0) = Done c →
  label c = since_clear op_labels [] ops ∧
  index c = since_clear Trace.op_ids [] ops.
Proof.
  intros Hops Hrun.
  apply (run_holds ops (Clear c0) c); [apply coherent_Clear|done..].
Qed.
End Landing.

(** ** Rows and blocks into a container that holds rows *)

Section Compose.
Import RowBlockContainer Result.
Context {IndexType : UnsignedType}.

Lemma block_result_assemble_into hv rows c :
  Forall Row.valid rows →
  Forall (λ r, bool_decide (is_Some (Row.value r)) = hv) rows →
  hv = false ∨ length (value c) = length (label c) →
  block_result c (assemble hv rows) = pushes_result c rows.
Proof.
  intros Hrows Hu Hhv. unfold block_result, pushes_result.
  rewrite assemble_ndata by done.
  destruct (values_length hv rows Hrows Hu) as [Hv Hvlen].
  simpl. rewrite !Nat2Z.id. f_equal.
  - f_equal. rewrite drop_0, take_ge by (by rewrite offsets_from_length).
    apply offsets_from_shift.
  - by rewrite take_ge by (by rewrite length_fmap).
  - by rewrite take_ge.
  - destruct hv.
    + destruct Hhv as [?|Hlen]; [done|]. rewrite <- Hlen.
      rewrite take_app_length, take_ge by done. f_equal.
      rewrite drop_ge by (rewrite length_app, length_replicate; lia).
      by rewrite app_nil_r.
    + by rewrite Hv, app_nil_r.
  - by rewrite take_ge.
Qed.

(** X13. Rows pushed one by one and the block assembled from them pushed
    at once give the same container also when the container already holds
    rows, provided the rows have no values or the container holds as many
    values as rows: one of the two ways returns a container exactly when
    the other returns it. *)
Theorem Push_rows_as_block_into (hv : bool) (rows : list Row.t) (ops : list Trace.op)
    (c0 c : t) :
  Forall Trace.block_valid ops →
  Trace.run ops (Clear c0) = Done c →
  Forall Row.valid rows →
  Forall (λ r, bool_decide (is_Some (Row.value r)) = hv) rows →
  RowBlock.valid (assemble hv rows) →
  hv = false ∨ length (value c) = length (label c) →
  Vec.size (offset c) + Z.of_nat (length rows) <= Vec.max_size →
  Vec.size (index c) + Z.of_nat (length (rows ≫= Row.ids)) <= Vec.max_size →
  ∀ c', Trace.run (Trace.OpPush <$> rows) c = Done c' ↔
        PushBlock c (assemble hv rows) = Done c'.
Proof.
  intros Hops Hrun Hrows Hu Hb Hhv HOroom HIroom c'.
  pose proof (run_coherent _ _ _ Hops Hrun) as Hc.
  pose proof Hc as (Hoff & Hlast & Hval & Hfo & Hfl & Hfi & Hfv).
  pose proof (assemble_ndata hv rows Hrows) as Hnd.
  unfold Vec.size, Vec.max_size in *.
  rewrite run_pushes; [|done|unfold Vec.size, Vec.max_size; lia..].
  rewrite (PushBlock_Done _ _ _ Hc Hb).
  rewrite Hnd, Nat2Z.id, block_result_assemble_into by done.
  change (RowBlock.index (assemble hv rows)) with (rows ≫= Row.ids).
  rewrite take_ge by done.
  change (RowBlock.size (assemble hv rows)) with (Z.of_nat (length rows)).
  unfold Vec.size. split; [|naive_solver].
  intros [Hall ->]. split_and!; [done|right; lia|right; lia| |done].
  intros bv Hbv. right. destruct Hhv as [->|Hlen]; [done|lia].
Qed.

Lemma run_offsets_ok ops c0 c :
  Forall Trace.block_valid ops → Trace.run ops (Clear c0) = Done c → offsets_ok c.
Proof.
  intros Hops Hrun.
  eapply (run_invariant offsets_ok Trace.block_valid); [|
    split; [apply coherent_Clear|split; [done|apply nondecreasing_singleton]] |done..].
  intros. by eapply step_offsets_ok.
Qed.

Lemma step_ids_ok c o c' :
  ids_ok c → Trace.op_valid o → Trace.step c o = Done c' → ids_ok c'.
Proof.
  intros (Hc & Hall & Hmax) Ho Hstep.
  split; [by eapply step_coherent; [|apply op_valid_block|]|].
  destruct (step_holds _ _ _ Hc Ho Hstep) as [_ Hidx].
  destruct o as [|row|b].
  - simpl in Hstep. injection Hstep as <-. simpl. split; [done|]. done.
  - destruct (step_max_index _ _ _ Hc Ho I Hstep) as [Hlt ->]. rewrite Hidx.
    assert (Hpos : Forall (λ x, 0 <= x) (Trace.op_ids (Trace.OpPush row)))
      by apply Forall_take, Ho.
    split.
    + apply Forall_app. split; [done|]. apply Forall_and. by split.
    + rewrite foldl_max_id, max_id_app, Hmax; [done|]. rewrite Hmax. apply max_id_nonneg.
  - destruct (step_max_index _ _ _ Hc Ho I Hstep) as [Hlt ->]. rewrite Hidx.
    assert (Hpos : Forall (λ x, 0 <= x) (Trace.op_ids (Trace.OpPushBlock b)))
      by apply Forall_take, Ho.
    split.
    + apply Forall_app. split; [done|]. apply Forall_and. by split.
    + rewrite foldl_max_id, max_id_app, Hmax; [done|]. rewrite Hmax. apply max_id_nonneg.
Qed.

Lemma run_ids_ok ops c0 c :
  Forall Trace.op_valid ops → Trace.run ops (Clear c0) = Done c → ids_ok c.
Proof.
  intros Hops Hrun.
  eapply (run_invariant ids_ok Trace.op_valid); [|
    split; [apply coherent_Clear|split; [done|done]] |done..].
  intros. by eapply step_ids_ok.
Qed.

Lemma fmap_add_0 (l : list Z) : (λ o, 0 + o) <$> l = l.
Proof. induction l as [|x l IH]; [done|]. by rewrite fmap_cons, IH. Qed.

(** X14. What [GetBlock] exports can be pushed back: the block exported
    from a container that pushes built, pushed into another container that
    has been cleared, gives a container with the same four vectors and the
    same [max_index] (the two [real_t] arrays lying in the address
    space). *)
Theorem GetBlock_PushBlock_round_trip (ops : list Trace.op) (c0 c1 c : t)
    (b : RowBlock.t) :
  Forall Trace.op_valid ops →
  Trace.run ops (Clear c0) = Done c →
  GetBlock c = Done b →
  sizeof_real_t * Vec.size (label c) < 2 ^ 64 →
  sizeof_real_t * Vec.size (index c) < 2 ^ 64 →
  PushBlock (Clear c1) b = Done c.
Proof.
  intros Hops Hrun Hget Hs4 Hnd4.
  assert (Hbops : Forall Trace.block_valid ops).
  { eapply Forall_impl; [done|]. apply op_valid_block. }
  destruct (run_offsets_ok _ _ _ Hbops Hrun) as (Hc & H0 & Hmono).
  destruct (run_ids_ok _ _ _ Hops Hrun) as (_ & Hall & Hmax).
  rewrite (GetBlock_coherent c Hc) in Hget. case_decide as Hv; [|done].
  injection Hget as <-.
  pose proof Hc as (Hoff & Hlast & Hval & Hfo & Hfl & Hfi & Hfv).
  unfold sizeof_real_t, Vec.size, Vec.max_size in *.
  assert (Hshift : offset c !! length (label c) = Some (Z.of_nat (length (index c)))).
  { rewrite <- Hlast, last_lookup. f_equal. lia. }
  assert (Hpos : Forall (λ x, 0 <= x) (index c)).
  { eapply Forall_impl; [exact Hall|]. simpl. lia. }
  assert (Hlt : Forall (λ x, x < numeric_max IndexType) (index c)).
  { eapply Forall_impl; [exact Hall|]. simpl. lia. }
  set (b := {| RowBlock.size := Z.of_nat (length (label c)); RowBlock.offset := offset c |}).
  assert (Hnd : RowBlock.ndata b = Z.of_nat (length (index c))).
  { unfold RowBlock.ndata, b. simpl. by rewrite Nat2Z.id, Hshift. }
  assert (Hb : RowBlock.valid b).
  { unfold RowBlock.valid. rewrite Hnd. unfold b. simpl. rewrite !Nat2Z.id.
    split_and!; try done; try lia.
    intros v Hsome. destruct (Z.eqb_spec (Z.of_nat (length (value c))) 0); [done|].
    injection Hsome as <-. lia. }
  apply (PushBlock_Done _ _ _ (coherent_Clear c1) Hb).
  rewrite Hnd. unfold block_result. rewrite Hnd. unfold b. simpl. rewrite !Nat2Z.id.
  rewrite (take_ge (index c)), (take_ge (label c)) by lia.
  unfold Vec.size. simpl.
  split_and!; [done|right; lia|right; lia|intros; right; lia|].
  rewrite narrow_ids_exact by done.
  rewrite foldl_max_id, <- Hmax by done.
  rewrite Z.max_r by (rewrite Hmax; apply max_id_nonneg).
  destruct (offset c) as [|o0 os] eqn:Ho; [done|]. injection H0 as ->.
  simpl. rewrite drop_0, take_ge by (simpl in Hoff; lia). rewrite fmap_add_0.
  destruct c as [co cl ci cv cm]. simpl in *. subst co. f_equal.
  destruct (Z.eqb_spec (Z.of_nat (length cv)) 0) as [Hz|Hnz].
  - by destruct cv.
  - rewrite take_ge by lia. rewrite drop_ge by (rewrite length_replicate; lia).
    by rewrite app_nil_r.
Qed.
(** A block laid out as blocks are, with every feature id below the
    maximum, is taken by a cleared container. *)
Lemma PushBlock_cleared (c0 : t) (batch : RowBlock.t) :
  RowBlock.valid batch →
  Forall (λ x, x < numeric_max IndexType)
         (take (Z.to_nat (RowBlock.ndata batch)) (RowBlock.index batch)) →
  PushBlock (Clear c0) batch = Done (block_result (Clear c0) batch).
Proof.
  intros Hb Hall.
  pose proof (block_offsets_bound batch Hb) as Hbound.
  apply (PushBlock_Done _ _ _ (coherent_Clear c0) Hb).
  destruct Hb as (Hsz & Hboff & Hb0 & Hbmono & Hblab & Hbidx & Hbpos & Hbval & Hs4 & Hnd4).
  unfold sizeof_real_t, Vec.size in *. simpl.
  split_and!; [done|right; lia|right; lia|intros; right; lia|done].
Qed.

(** What [GetBlock] shows of a block that a cleared container has taken. *)
Lemma block_export (c0 : t) (batch : RowBlock.t) :
  RowBlock.valid batch →
  Forall (λ x, x < numeric_max IndexType)
         (take (Z.to_nat (RowBlock.ndata batch)) (RowBlock.index batch)) →
  GetBlock (block_result (Clear c0) batch)
  = Done {| RowBlock.size := RowBlock.size batch;
            RowBlock.offset := RowBlock.offset batch;
            RowBlock.label := take (Z.to_nat (RowBlock.size batch)) (RowBlock.label batch);
            RowBlock.index := take (Z.to_nat (RowBlock.ndata batch)) (RowBlock.index batch);
            RowBlock.value :=
              if RowBlock.ndata batch =? 0 then None
              else take (Z.to_nat (RowBlock.ndata batch)) <$> RowBlock.value batch |}.
Proof.
  intros Hb Hall.
  pose proof (PushBlock_coherent _ _ _ (coherent_Clear c0) Hb
                (PushBlock_cleared c0 batch Hb Hall)) as Hc.
  pose proof (block_offsets_bound batch Hb) as Hbound.
  destruct Hb as (Hsz & Hboff & Hb0 & Hbmono & Hblab & Hbidx & Hbpos & Hbval & Hs4 & Hnd4).
  assert (H0nd : 0 <= RowBlock.ndata batch).
  { apply (Forall_lookup_1 _ _ _ _ Hbound) in Hb0. lia. }
  rewrite (GetBlock_coherent _ Hc). unfold block_result. simpl.
  rewrite narrow_ids_exact by (done || by apply Forall_take).
  assert (Hoffset : 0 :: ((λ o, Vec.size (A := Z) [] + o)
                          <$> take (Z.to_nat (RowBlock.size batch))
                                   (drop 1 (RowBlock.offset batch)))
                    = RowBlock.offset batch).
  { destruct (RowBlock.offset batch) as [|o0 os]; [done|]. injection Hb0 as ->.
    simpl. rewrite drop_0, take_ge by (simpl in Hboff; lia).
    by rewrite fmap_add_0. }
  rewrite Hoffset.
  assert (Hvalue : match RowBlock.value batch with
                   | Some bvalue =>
                       take (Z.to_nat (RowBlock.ndata batch)) bvalue
                       ++ drop (Z.to_nat (RowBlock.ndata batch))
                               (replicate (Z.to_nat (RowBlock.ndata batch)) zero_f)
                   | None => []
                   end
                   = default [] (take (Z.to_nat (RowBlock.ndata batch))
                                   <$> RowBlock.value batch)).
  { destruct (RowBlock.value batch) as [bv|]; [|done]. simpl.
    rewrite drop_ge by (by rewrite length_replicate). by rewrite app_nil_r. }
  rewrite Hvalue. rewrite length_take_le by done. rewrite decide_True.
  - rewrite (length_take_le (RowBlock.label batch)) by done.
    rewrite Z2Nat.id by done. do 2 f_equal.
    unfold Vec.size.
    destruct (RowBlock.value batch) as [bv|] eqn:Hbv; simpl.
    + specialize (Hbval bv eq_refl). rewrite length_take_le by done.
      rewrite Z2Nat.id by done. by destruct (RowBlock.ndata batch =? 0).
    + by destruct (RowBlock.ndata batch =? 0).
  - destruct (RowBlock.value batch) as [bv|] eqn:Hbv; simpl; [left|by right].
    specialize (Hbval bv eq_refl). by rewrite length_take_le.
Qed.

(** X15. What is pushed as a block is exported as that block: a block
    laid out as blocks are, pushed into a cleared container, comes back
    from [GetBlock] with its size and offsets, and with its labels, feature
    ids and values cut to the entries the offsets announce (no value array
    when the block has no entry). *)
Theorem PushBlock_GetBlock_round_trip (c0 c : t) (batch : RowBlock.t) :
  RowBlock.valid batch →
  PushBlock (Clear c0) batch = Done c →
  GetBlock c
  = Done {| RowBlock.size := RowBlock.size batch;
            RowBlock.offset := RowBlock.offset batch;
            RowBlock.label := take (Z.to_nat (RowBlock.size batch)) (RowBlock.label batch);
            RowBlock.index := take (Z.to_nat (RowBlock.ndata batch)) (RowBlock.index batch);
            RowBlock.value :=
              if RowBlock.ndata batch =? 0 then None
              else take (Z.to_nat (RowBlock.ndata batch)) <$> RowBlock.value batch |}.
Proof.
  intros Hb Hpush.
  apply (PushBlock_Done _ _ _ (coherent_Clear c0) Hb) in Hpush as (Hall & _ & _ & _ & ->).
  by apply block_export.
Qed.
End Compose.

(** ** Rows pushed, exported and read back *)

Section ReadBack.
Import RowBlockContainer Result.
Context {IndexType : UnsignedType}.

Lemma subscript_at (b : RowBlock.t) (k : nat) (lbl lo hi : Z) :
  Z.of_nat k < RowBlock.size b → Z.of_nat k + 1 < 2 ^ 64 →
  RowBlock.label b !! k = Some lbl →
  RowBlock.offset b !! k = Some lo →
  RowBlock.offset b !! Datatypes.S k = Some hi →
  0 <= hi - lo < 2 ^ 64 →
  RowBlock.subscript b (Z.of_nat k)
  = Done {| Row.label := lbl;
            Row.length := hi - lo;
            Row.index := drop (Z.to_nat lo) (RowBlock.index b);
            Row.value := drop (Z.to_nat lo) <$> RowBlock.value b |}.
Proof.
  intros Hk Hk1 Hl Hlo Hhi Hlen. unfold RowBlock.subscript, CHECK.
  destruct (Z.ltb_spec (Z.of_nat k) (RowBlock.size b)); [|lia]. cbn [bind].
  rewrite Nat2Z.id, (proj2 (read_Done _ _ _) Hl). cbn [bind].
  rewrite wrap64_small by lia.
  replace (Z.to_nat (Z.of_nat k + 1)) with (Datatypes.S k) by lia.
  rewrite (proj2 (read_Done _ _ _) Hhi). cbn [bind].
  rewrite (proj2 (read_Done _ _ _) Hlo). cbn [bind].
  by rewrite wrap64_small.
Qed.

Lemma offsets_from_lookup (s : Z) (rows : list Row.t) (k : nat) :
  Forall Row.valid rows → (k ≤ length rows)%nat →
  (s :: offsets_from s rows) !! k
  = Some (s + Z.of_nat (length (take k rows ≫= Row.ids))).
Proof.
  intros Hrows. revert s k. induction Hrows as [|r rows Hr Hrows IH]; intros s k Hk.
  - destruct k; [|simpl in Hk; lia]. simpl. f_equal. lia.
  - destruct k as [|k].
    + simpl. f_equal. lia.
    + change ((s :: offsets_from s (r :: rows)) !! Datatypes.S k)
        with ((s + Row.length r :: offsets_from (s + Row.length r) rows) !! k).
      rewrite IH by (simpl in Hk; lia). f_equal.
      rewrite firstn_cons, (list_bind_cons Row.ids), length_app, Nat2Z.inj_add.
      rewrite valid_ids_length by done. lia.
Qed.

Lemma bind_middle {A B} (f : A → list B) (rows : list A) (k : nat) (r : A) :
  rows !! k = Some r →
  rows ≫= f = (take k rows ≫= f) ++ f r ++ (drop (Datatypes.S k) rows ≫= f).
Proof.
  intros Hk. rewrite <- (take_drop_middle rows k r Hk) at 1.
  by rewrite bind_app, (list_bind_cons f).
Qed.

(** Rows pushed one by one, when all the pushes return. *)
Lemma run_pushes_Done c rows c' :
  Forall Row.valid rows →
  Trace.run (Trace.OpPush <$> rows) c = Done c' →
  Forall (λ x, x < numeric_max IndexType) (rows ≫= Row.ids) ∧
  c' = pushes_result c rows.
Proof.
  intros Hrows. revert c. induction Hrows as [|r rows Hr Hrows IH]; intros c.
  - intros [= <-]. by rewrite pushes_result_nil.
  - rewrite fmap_cons. cbn [Trace.run Trace.step]. rewrite bind_Done.
    intros (c1 & Hpush & Hrun).
    apply Push_Done in Hpush as (_ & _ & Hall & _ & _ & _ & ->).
    destruct (IH _ Hrun) as [Hall' ->].
    rewrite (list_bind_cons Row.ids), Forall_app.
    by rewrite pushes_result_cons.
Qed.

(** The values of uniform rows, one list per row. *)
Lemma uniform_vals_length hv (rows : list Row.t) :
  Forall Row.valid rows →
  Forall (λ r, bool_decide (is_Some (Row.value r)) = hv) rows →
  length (rows ≫= λ r, default [] (Row.vals r))
  = if hv then length (rows ≫= Row.ids) else 0%nat.
Proof.
  induction 1 as [|r rows Hr Hrows IH]; intros Hu; [by destruct hv|].
  apply Forall_cons in Hu as [Hur Hu]. specialize (IH Hu).
  rewrite (list_bind_cons Row.ids), (list_bind_cons (λ r, default [] (Row.vals r))).
  rewrite !length_app, IH.
  destruct Hr as (Hlen & Hidx & Hpos & Hval). unfold Row.vals, Row.ids.
  destruct (Row.value r) as [v|] eqn:Hv; simpl.
  - rewrite bool_decide_eq_true_2 in Hur by done. subst hv.
    specialize (Hval v eq_refl). rewrite !length_take. lia.
  - rewrite bool_decide_eq_false_2 in Hur by (by intros [? ?]). by subst hv.
Qed.

(** X16. Rows that were pushed are read back: after rows (all with
    values, or all without) have been pushed into a cleared container and
    the container has been exported with [GetBlock], the view [b[k]] of the
    exported block has the label, the length and the feature ids of the
    [k]-th row pushed, and [get_value] answers on it what it answers on
    that row. *)
Theorem pushed_rows_read_back (hv : bool) (rows : list Row.t) (c0 c : t)
    (b : RowBlock.t) (k : nat) (r : Row.t) :
  Forall Row.valid rows →
  Forall (λ r, bool_decide (is_Some (Row.value r)) = hv) rows →
  Trace.run (Trace.OpPush <$> rows) (Clear c0) = Done c →
  GetBlock c = Done b →
  rows !! k = Some r →
  ∃ r', RowBlock.subscript b (Z.of_nat k) = Done r' ∧
    Row.label r' = Row.label r ∧
    Row.length r' = Row.length r ∧
    Row.ids r' = Row.ids r ∧
    ∀ i, 0 <= i < Row.length r → Row.get_value r' i = Row.get_value r i.
Proof.
  intros Hrows Hu Hrun Hget Hk.
  assert (Hops : Forall Trace.block_valid (Trace.OpPush <$> rows)).
  { apply Forall_fmap, Forall_true. done. }
  pose proof (run_coherent _ _ _ Hops Hrun) as Hc.
  rewrite (GetBlock_coherent c Hc) in Hget. case_decide as Hv; [|done].
  injection Hget as <-.
  destruct Hc as (Hoff & Hlast & _ & Hfo & Hfl & Hfi & Hfv).
  destruct (run_pushes_Done _ _ _ Hrows Hrun) as [Hall Hc].
  unfold Vec.size, Vec.max_size in *.
  assert (Hpos : Forall (λ x, 0 <= x) (rows ≫= Row.ids)).
  { apply Forall_bind. eapply Forall_impl; [exact Hrows|].
    intros r0 (_ & _ & Hp & _). by apply Forall_take. }
  assert (Hlabel : label c = Row.label <$> rows) by (by rewrite Hc).
  assert (Hindex : index c = rows ≫= Row.ids).
  { rewrite Hc. simpl. by apply narrow_ids_exact. }
  assert (Hoffset : offset c = 0 :: offsets_from 0 rows) by (by rewrite Hc).
  assert (Hvalue : value c = rows ≫= λ r, default [] (Row.vals r)) by (by rewrite Hc).
  pose proof (lookup_lt_Some _ _ _ Hk) as Hklt.
  pose proof (Forall_lookup_1 _ _ _ _ Hrows Hk) as Hr.
  pose proof (Forall_lookup_1 _ _ _ _ Hu Hk) as Hur. simpl in Hur.
  pose proof (valid_ids_length r Hr) as Hrlen.
  pose proof (bind_middle Row.ids rows k r Hk) as Hmid.
  set (lo := length (take k rows ≫= Row.ids)) in *.
  assert (Hlo : offset c !! k = Some (Z.of_nat lo)).
  { rewrite Hoffset, offsets_from_lookup by (done || lia). done. }
  assert (Hhi : offset c !! Datatypes.S k = Some (Z.of_nat lo + Row.length r)).
  { rewrite Hoffset, offsets_from_lookup by (done || lia). f_equal.
    rewrite (take_S_r _ _ _ Hk), bind_app, length_app. simpl.
    rewrite app_nil_r. fold lo. lia. }
  assert (Hlenidx : (lo + length (Row.ids r) ≤ length (index c))%nat).
  { rewrite Hindex, Hmid, !length_app. lia. }
  assert (Hllen : length (label c) = length rows) by (by rewrite Hlabel, length_fmap).
  eexists. split.
  { apply (subscript_at _ k (Row.label r) (Z.of_nat lo) (Z.of_nat lo + Row.length r)).
    - simpl. lia.
    - lia.
    - simpl. by rewrite Hlabel, list_lookup_fmap, Hk.
    - done.
    - done.
    - lia. }
  simpl. split_and!; [done|lia| |].
  - unfold Row.ids at 1. simpl.
    replace (Z.to_nat (Z.of_nat lo + Row.length r - Z.of_nat lo))
      with (length (Row.ids r)) by lia.
    rewrite Nat2Z.id, Hindex, Hmid. unfold lo.
    by rewrite drop_app_length, take_app_length.
  - intros i Hi. unfold Row.get_value. simpl.
    pose proof (uniform_vals_length hv rows Hrows Hu) as Hvlen.
    rewrite <- Hvalue in Hvlen.
    destruct (Row.value r) as [v|] eqn:Hrv.
    + rewrite bool_decide_eq_true_2 in Hur by done. subst hv.
      destruct (Z.eqb_spec (Z.of_nat (length (value c))) 0) as [Hz|Hnz].
      { exfalso. rewrite Hmid, !length_app in Hvlen. lia. }
      simpl. unfold Vec.read. rewrite lookup_drop, Nat2Z.id.
      pose proof (bind_middle (λ r, default [] (Row.vals r)) rows k r Hk) as Hvmid.
      pose proof (uniform_vals_length true (take k rows)) as Hpre.
      rewrite Hvalue, Hvmid.
      assert (Hprelen : length (take k rows ≫= λ r, default [] (Row.vals r)) = lo).
      { rewrite Hpre; [done|by apply Forall_take..]. }
      rewrite lookup_app_r by lia. rewrite Hprelen.
      replace (lo + Z.to_nat i - lo)%nat with (Z.to_nat i) by lia.
      destruct Hr as (_ & _ & _ & Hval). specialize (Hval v Hrv).
      unfold Row.vals. rewrite Hrv. simpl.
      rewrite lookup_app_l by (rewrite length_take; lia).
      rewrite lookup_take_lt by lia. done.
    + rewrite bool_decide_eq_false_2 in Hur by (by intros [? ?]). subst hv.
      rewrite Hvlen. simpl. done.
Qed.
End ReadBack.

(** ** The iterator after its constructor *)

Section Construct.
Import RowBlockContainer Result.
Context {IndexType : UnsignedType}.

Lemma drain_run (parser : list RowBlock.t) (data : t) :
  BasicRowIter.drain parser data = Trace.run (Trace.OpPushBlock <$> parser) data.
Proof.
  revert data. induction parser as [|b parser IH]; intros data; [done|].
  rewrite fmap_cons. cbn [BasicRowIter.drain Trace.run Trace.step].
  destruct (PushBlock data b); cbn [bind]; [apply IH|done..].
Qed.

Lemma since_clear_blocks {A} (f : Trace.op → list A) (acc : list A)
    (parser : list RowBlock.t) :
  since_clear f acc (Trace.OpPushBlock <$> parser)
  = acc ++ (parser ≫= λ b, f (Trace.OpPushBlock b)).
Proof.
  revert acc. induction parser as [|b parser IH]; intros acc.
  - by rewrite app_nil_r.
  - rewrite fmap_cons. cbn [since_clear]. rewrite IH.
    by rewrite (list_bind_cons (λ b, f (Trace.OpPushBlock b))), app_assoc.
Qed.

(** X17. After the constructor of [BasicRowIter] has returned on blocks
    laid out as blocks are, the block handed out by [Value] is the export
    of the container held; it has the rows of all blocks of the input,
    their labels and feature ids in the order of the input; and [NumCol]
    is one more than the largest feature id (1 on an input without
    entries). *)
Theorem construct_holds_input (uninit it : BasicRowIter.t) (parser : list RowBlock.t) :
  Forall RowBlock.valid parser →
  BasicRowIter.construct uninit parser = Done it →
  let labels := parser ≫= λ b, take (Z.to_nat (RowBlock.size b)) (RowBlock.label b) in
  let ids := parser ≫= λ b, take (Z.to_nat (RowBlock.ndata b)) (RowBlock.index b) in
  GetBlock (BasicRowIter.data_ it) = Done (BasicRowIter.Value it) ∧
  RowBlock.size (BasicRowIter.Value it) = Z.of_nat (length labels) ∧
  RowBlock.label (BasicRowIter.Value it) = labels ∧
  RowBlock.index (BasicRowIter.Value it) = ids ∧
  BasicRowIter.NumCol it = max_id ids + 1.
Proof.
  intros Hparser Hit labels ids.
  unfold BasicRowIter.construct, BasicRowIter.Init in Hit. simpl in Hit.
  apply bind_Done in Hit as (data & Hdrain & Hit).
  apply bind_Done in Hit as (row & Hget & [= <-]).
  rewrite drain_run in Hdrain. simpl.
  assert (Hops : Forall Trace.op_valid (Trace.OpPushBlock <$> parser)).
  { apply Forall_fmap. eapply Forall_impl; [exact Hparser|]. done. }
  destruct (run_ids_ok _ _ _ Hops Hdrain) as (Hc & Hall & Hmax).
  destruct (run_holds _ _ _ (coherent_Clear _) Hops Hdrain) as [Hl Hi].
  rewrite since_clear_blocks in Hl, Hi. simpl in Hl, Hi. fold labels in Hl. fold ids in Hi.
  pose proof Hget as Hget'.
  rewrite (GetBlock_coherent data Hc) in Hget'. case_decide; [|done].
  injection Hget' as <-. simpl.
  split_and!; [done|by rewrite Hl|done|done|].
  unfold BasicRowIter.NumCol. simpl. rewrite Hmax, Hi.
  pose proof (numeric_max_range IndexType) as Hrange.
  destruct (max_id_bound ids (numeric_max IndexType)) as [H0 Hlt]; [lia| |].
  { rewrite <- Hi. eapply Forall_impl; [exact Hall|]. simpl. lia. }
  apply wrap64_small. lia.
Qed.
(** X18. On an input of one block laid out as blocks are, with at least
    one row, with at least one entry when it has a value array, and with
    every feature id below the maximum of the index type, the constructor
    of [BasicRowIter] returns, and [Value] hands out that block: its size
    and offsets, and its labels, feature ids and values cut to the entries
    the offsets announce. *)
Theorem construct_single_block (uninit : BasicRowIter.t) (batch : RowBlock.t) :
  RowBlock.valid batch →
  0 < RowBlock.size batch →
  RowBlock.value batch = None ∨ 0 < RowBlock.ndata batch →
  Forall (λ x, x < numeric_max IndexType)
         (take (Z.to_nat (RowBlock.ndata batch)) (RowBlock.index batch)) →
  ∃ it, BasicRowIter.construct uninit [batch] = Done it ∧
    BasicRowIter.Value it
    = {| RowBlock.size := RowBlock.size batch;
         RowBlock.offset := RowBlock.offset batch;
         RowBlock.label := take (Z.to_nat (RowBlock.size batch)) (RowBlock.label batch);
         RowBlock.index := take (Z.to_nat (RowBlock.ndata batch)) (RowBlock.index batch);
         RowBlock.value := take (Z.to_nat (RowBlock.ndata batch)) <$> RowBlock.value batch |}.
Proof.
  intros Hb Hrows Hentries Hall. unfold BasicRowIter.construct, BasicRowIter.Init.
  cbn [BasicRowIter.drain BasicRowIter.data_ BasicRowIter.at_head_].
  rewrite (PushBlock_cleared _ batch Hb Hall). cbn [bind].
  rewrite (block_export _ batch Hb Hall). cbn [bind].
  eexists. split; [done|]. simpl. f_equal.
  destruct Hentries as [->|Hnd].
  - by destruct (RowBlock.ndata batch =? 0).
  - destruct (Z.eqb_spec (RowBlock.ndata batch) 0); [lia|done].
Qed.
End Construct.

(** ** What the stored format leaves out *)

(** X19. [max_index] is not part of what [Save] writes and [Load] reads:
    containers that differ in [max_index] only are saved as the same
    bytes, and a [Load] that returns leaves [max_index] as it was in the
    container that loads. *)
Theorem max_index_not_stored {IndexType : UnsignedType} :
  (∀ c m fo,
     RowBlockContainer.Save (RowBlockContainer.set_max_index c m) fo
     = RowBlockContainer.Save c fo) ∧
  (∀ c0 fi c fi',
     RowBlockContainer.Load c0 fi = Done (c, fi') →
     RowBlockContainer.max_index c = RowBlockContainer.max_index c0).
Proof.
  split; [done|].
  intros c0 fi c fi'. unfold RowBlockContainer.Load, RowBlockContainer.checked_read.
  destruct (Stream.Read _ fi) as [[v1 fi1]|]; cbn [bind]; [|done].
  destruct (Stream.Read _ fi1) as [[v2 fi2]|]; cbn [bind]; [|done].
  destruct (Stream.Read _ fi2) as [[v3 fi3]|]; cbn [bind]; [|done].
  destruct (Stream.Read _ fi3) as [[v4 fi4]|]; cbn [bind]; [|done].
  by intros [= <- _].
Qed.

(** ** The progress report *)

Section ProgressLines.
Import Progress.

Lemma ten_MB_value : ten_MB = 10485760.
Proof. reflexivity. Qed.

Lemma report_paced (st : t) (prev r : Z) :
  0 <= prev → prev <= r <= prev + ten_MB → r + ten_MB < 2 ^ 64 →
  bytes_expect st = ten_MB * (prev / ten_MB + 1) →
  Z.of_nat (length (lines st)) = prev / ten_MB →
  bytes_expect (report st r) = ten_MB * (r / ten_MB + 1) ∧
  Z.of_nat (length (lines (report st r))) = r / ten_MB.
Proof.
  rewrite ten_MB_value. intros Hprev Hr Hroom Hexp Hlines. unfold report.
  rewrite ten_MB_value, Hexp.
  pose proof (Z.div_mod prev 10485760 ltac:(lia)) as Hdp.
  pose proof (Z.mod_pos_bound prev 10485760 ltac:(lia)) as Hmp.
  pose proof (Z.div_mod r 10485760 ltac:(lia)) as Hdr.
  pose proof (Z.mod_pos_bound r 10485760 ltac:(lia)) as Hmr.
  destruct (Z.leb_spec (10485760 * (prev / 10485760 + 1)) r) as [Hle|Hlt]; simpl.
  - assert (Hq : r / 10485760 = prev / 10485760 + 1) by nia.
    rewrite wrap64_small by nia. rewrite length_app. simpl. split; nia.
  - assert (Hq : r / 10485760 = prev / 10485760) by nia.
    rewrite Hexp. split; nia.
Qed.

Lemma default_last_cons {A} (d x : A) (l : list A) :
  default d (last (x :: l)) = default x (last l).
Proof.
  revert d x. induction l as [|y l IH]; intros d x; [done|].
  by rewrite last_cons_cons, (IH d y), (IH x y).
Qed.

Lemma paced_last (prev : Z) (reads : list Z) :
  paced prev reads → prev <= default prev (last reads).
Proof.
  revert prev. induction reads as [|r reads IH]; intros prev; [simpl; lia|].
  intros [Hr Hp]. rewrite default_last_cons. specialize (IH r Hp).
  pose proof ten_MB_value. lia.
Qed.

Lemma reports_paced (reads : list Z) (st : t) (prev : Z) :
  0 <= prev → paced prev reads →
  default prev (last reads) + ten_MB < 2 ^ 64 →
  bytes_expect st = ten_MB * (prev / ten_MB + 1) →
  Z.of_nat (length (lines st)) = prev / ten_MB →
  bytes_expect (foldl report st reads)
  = ten_MB * (default prev (last reads) / ten_MB + 1) ∧
  Z.of_nat (length (lines (foldl report st reads))) = default prev (last reads) / ten_MB.
Proof.
  revert st prev. induction reads as [|r reads IH]; intros st prev Hprev Hpaced Hroom He Hl.
  - done.
  - destruct Hpaced as [Hr Hpaced].
    rewrite default_last_cons in *.
    pose proof (paced_last r reads Hpaced) as Hrle.
    destruct (report_paced st prev r Hprev Hr) as [He' Hl']; [lia|done..|].
    simpl. apply IH; [lia|done..].
Qed.

(** X20. When no block moves [bytes_read] back, or forward by more than
    10 MB, the reading loops log a line each time [bytes_read] has passed a
    further multiple of 10 MB, and no other: after any number of blocks the
    number of lines logged is the number of whole 10 MB read, and
    [bytes_expect] is the next multiple of 10 MB. *)
Theorem progress_every_ten_MB (reads : list Z) :
  paced 0 reads →
  default 0 (last reads) + ten_MB < 2 ^ 64 →
  bytes_expect (reports reads) = ten_MB * (default 0 (last reads) / ten_MB + 1) ∧
  Z.of_nat (length (lines (reports reads))) = default 0 (last reads) / ten_MB.
Proof.
  intros Hpaced Hroom. apply reports_paced; [lia|done..].
Qed.
End ProgressLines.

(** ** A pushed block that does not fit *)

Section OutOfBounds.
Import RowBlockContainer Result.
Context {IndexType : UnsignedType}.

(** X21. A block with a feature id at or above the maximum of the index
    type makes [Push(RowBlock)] stop with IndexOverflow in a container
    built from a cleared one, after the labels of the block have been
    appended and [index] has been enlarged; [offset] and [value] are as
    before. *)
Theorem PushBlock_overflow_after_run (ops : list Trace.op) (c0 c : t) (batch : RowBlock.t) :
  Forall Trace.block_valid ops →
  Trace.run ops (Clear c0) = Done c →
  RowBlock.valid batch →
  Vec.size (offset c) + RowBlock.size batch < 2 ^ 64 →
  Vec.size (index c) + RowBlock.ndata batch < 2 ^ 64 →
  Exists (λ x, numeric_max IndexType <= x)
         (take (Z.to_nat (RowBlock.ndata batch)) (RowBlock.index batch)) →
  ∃ c', PushBlock c batch = Fatal IndexOverflow c' ∧
        offset c' = offset c ∧ value c' = value c ∧
        label c' = label c ++ take (Z.to_nat (RowBlock.size batch)) (RowBlock.label batch) ∧
        length (index c') = (length (index c) + Z.to_nat (RowBlock.ndata batch))%nat.
Proof.
  intros Hops Hrun. apply PushBlock_overflow. by eapply run_coherent.
Qed.

End OutOfBounds.

(** ** The theorems at concrete rows and blocks *)

(** Layout facts about explicit rows and blocks. *)
Ltac concrete :=
  repeat match goal with
         | |- _ ∧ _ => split
         | |- Forall _ _ => constructor
         | |- True => exact I
         | |- Exists _ _ => first [apply Exists_cons_hd; by vm_compute | apply Exists_cons_tl]
         | |- nondecreasing _ =>
             intros [|[|[|[|[|i]]]]] [|[|[|[|[|j]]]]] x y; simpl; intros; simplify_eq; lia
         | |- ∀ v, _ = Some v → _ => intros ? ?; simplify_eq/=
         | |- _ = _ => reflexivity
         | |- _ =>
             progress unfold Row.valid, RowBlock.valid, RowBlock.ndata, Result.push_room,
               Trace.uniform, Trace.op_valid, Trace.block_valid, Trace.is_push,
               sizeof_real_t, Vec.size, Vec.max_size, numeric_max, digits, index_t,
               row_a, row_b, row_overflow, block_ab, blank
         | |- _ => progress simpl
         | |- _ => lia
         end.

Lemma Push_rows_as_block_witness :
  ∃ c, Trace.run (IndexType := index_t)
         (Trace.OpPush <$> [row_a; row_b])
         (RowBlockContainer.Clear blank) = Done c ∧
       RowBlockContainer.PushBlock (IndexType := index_t)
         (RowBlockContainer.Clear blank)
         (assemble true [row_a; row_b])
       = Done c.
Proof.
  refine (proj2 (Push_rows_as_block (IndexType := index_t) true
                   [row_a; row_b]
                   blank _ _ _) _).
  - concrete.
  - concrete.
  - concrete.
  - concrete.
Defined.

Lemma Push_overflow_witness :
  ∃ k x c',
    Row.ids row_overflow !! k = Some x ∧ numeric_max index_t <= x ∧
    Forall (λ y, y < numeric_max index_t) (take k (Row.ids row_overflow)) ∧
    RowBlockContainer.Push (IndexType := index_t) (RowBlockContainer.Clear blank)
      row_overflow = Fatal IndexOverflow c' ∧
    RowBlockContainer.offset c' = RowBlockContainer.offset (RowBlockContainer.Clear blank) ∧
    RowBlockContainer.value c' = RowBlockContainer.value (RowBlockContainer.Clear blank) ∧
    RowBlockContainer.label c'
    = RowBlockContainer.label (RowBlockContainer.Clear blank) ++ [Row.label row_overflow] ∧
    RowBlockContainer.index c'
    = RowBlockContainer.index (RowBlockContainer.Clear blank) ++ take k (Row.ids row_overflow) ∧
    RowBlockContainer.max_index c'
    = foldl Z.max (RowBlockContainer.max_index (RowBlockContainer.Clear blank))
        (take k (Row.ids row_overflow)).
Proof.
  refine (proj1 (Push_overflow (IndexType := index_t) (RowBlockContainer.Clear blank)
                   row_overflow _ _) _).
  - concrete.
  - concrete.
  - concrete.
Defined.

Lemma offset_invariant_witness :
  RowBlockContainer.offset container_b_ab !! 0%nat = Some 0 ∧
  nondecreasing (RowBlockContainer.offset container_b_ab) ∧
  last (RowBlockContainer.offset container_b_ab)
  = Some (Vec.size (RowBlockContainer.index container_b_ab)).
Proof.
  apply (offset_invariant (IndexType := index_t)
           [Trace.OpPush row_a; Trace.OpClear; Trace.OpPush row_b;
            Trace.OpPushBlock block_ab]
           blank container_b_ab).
  - concrete.
  - vm_compute. reflexivity.
Defined.


Lemma max_index_running_maximum_witness :
  RowBlockContainer.max_index container_b_ab
  = max_id ([Trace.OpPush row_b; Trace.OpPushBlock block_ab] ≫= Trace.op_ids).
Proof.
  apply (max_index_running_maximum (IndexType := index_t)
           [Trace.OpPush row_b; Trace.OpPushBlock block_ab] blank container_b_ab).
  - concrete.
  - concrete.
  - vm_compute. reflexivity.
Defined.

(** The same for the further rows, blocks and containers. *)
Ltac examples :=
  repeat first
    [ progress concrete
    | progress unfold container_a, container_b, container_ab, block_b,
        container_a_block_b, block_none, row_none, container_none, block_overflow,
        container_b_ab, block_b_ab ].

Lemma row_view_access_witness :
  ∃ lo x,
    RowBlock.offset block_ab !! Z.to_nat 1 = Some lo ∧
    0 <= lo ∧ lo + 0 < RowBlock.ndata block_ab ∧
    RowBlock.index block_ab !! Z.to_nat (lo + 0) = Some x ∧
    Row.get_index row_b 0 = Done x ∧
    match RowBlock.value block_ab with
    | None => Row.get_value row_b 0 = Done one_f
    | Some v => ∃ y, v !! Z.to_nat (lo + 0) = Some y ∧ Row.get_value row_b 0 = Done y
    end.
Proof.
  apply (row_view_access block_ab 1 0 row_b).
  - examples.
  - lia.
  - vm_compute. reflexivity.
  - simpl. lia.
Defined.

Lemma views_tile_block_witness :
  ∃ rows, views block_ab = Done rows ∧
    Row.label <$> rows = take (Z.to_nat (RowBlock.size block_ab)) (RowBlock.label block_ab) ∧
    rows ≫= Row.ids = take (Z.to_nat (RowBlock.ndata block_ab)) (RowBlock.index block_ab) ∧
    match RowBlock.value block_ab with
    | None => Forall (λ row, Row.value row = None) rows
    | Some v =>
        rows ≫= (λ row, default [] (Row.vals row))
        = take (Z.to_nat (RowBlock.ndata block_ab)) v
    end.
Proof.
  apply (views_tile_block block_ab). examples.
Defined.

Lemma SDot_bound_check_witness :
  Row.SDot 0 Z.add mul_Z (Row.mk one_f 1 [3] None) [1; 2] 2 = Fatal OutOfRange tt.
Proof.
  apply (SDot_bound_check 0 Z.add mul_Z (Row.mk one_f 1 [3] None) [1; 2] 2).
  - examples.
  - simpl. lia.
  - apply Exists_cons_hd. lia.
Defined.

Lemma SDot_absent_values_are_ones_witness :
  SDot_loops float_zero float_add float_add_product
    (Row.mk one_f 1 [0] None) [float_of_bits seven_f] 1
  = SDot_loops float_zero float_add float_add_product
      (with_ones (Row.mk one_f 1 [0] None)) [float_of_bits seven_f] 1.
Proof.
  apply (SDot_absent_values_are_ones float_zero float_add float_add_product
           (Row.mk one_f 1 [0] None) [float_of_bits seven_f] 1).
  - intros sum w ->%list_elem_of_singleton.
    unfold float_add_product.
    assert (Hone : float_mul (float_of_bits seven_f) (float_of_bits one_f)
                   = float_of_bits seven_f) by (vm_compute; reflexivity).
    by rewrite Hone.
  - reflexivity.
Defined.

Lemma Size_counts_rows_witness :
  RowBlockContainer.Size container_b_ab
  = rows_since_clear 0 [Trace.OpPush row_b; Trace.OpPushBlock block_ab] ∧
  RowBlockContainer.Size container_b_ab
  = Vec.size (RowBlockContainer.label container_b_ab).
Proof.
  apply (Size_counts_rows (IndexType := index_t)
           [Trace.OpPush row_b; Trace.OpPushBlock block_ab] blank container_b_ab).
  - examples.
  - vm_compute. reflexivity.
Defined.

Lemma PushBlock_before_Clear_witness :
  RowBlockContainer.PushBlock (IndexType := index_t) blank block_ab = Undefined.
Proof.
  apply (PushBlock_before_Clear (IndexType := index_t) blank block_ab).
  - reflexivity.
  - examples.
Defined.

Lemma GetBlock_before_Clear_witness :
  RowBlockContainer.GetBlock container_b_unclear = Fatal Inconsistent container_b_unclear ∧
  RowBlockContainer.Size container_b_unclear = wrap64 (Z.of_nat (length [row_b]) - 1).
Proof.
  apply (GetBlock_before_Clear (IndexType := index_t) [row_b] blank container_b_unclear).
  - reflexivity.
  - reflexivity.
  - vm_compute. reflexivity.
Defined.

Lemma GetBlock_after_run_witness :
  RowBlockContainer.GetBlock container_b_ab
  = if decide (length (RowBlockContainer.value container_b_ab)
               = length (RowBlockContainer.index container_b_ab)
               ∨ length (RowBlockContainer.value container_b_ab) = 0%nat)
    then Done {| RowBlock.size := Z.of_nat (length (RowBlockContainer.label container_b_ab));
                 RowBlock.offset := RowBlockContainer.offset container_b_ab;
                 RowBlock.label := RowBlockContainer.label container_b_ab;
                 RowBlock.index := RowBlockContainer.index container_b_ab;
                 RowBlock.value :=
                   if Vec.size (RowBlockContainer.value container_b_ab) =? 0 then None
                   else Some (RowBlockContainer.value container_b_ab) |}
    else Fatal Inconsistent container_b_ab.
Proof.
  apply (GetBlock_after_run (IndexType := index_t)
           [Trace.OpPush row_b; Trace.OpPushBlock block_ab] blank container_b_ab).
  - examples.
  - vm_compute. reflexivity.
Defined.

Lemma PushBlock_value_position_witness :
  last (RowBlockContainer.value container_a_block_b) = Some zero_f.
Proof.
  refine (proj2 (proj2 (PushBlock_value_position (IndexType := index_t)
                          [Trace.OpPush row_a] blank container_a container_a_block_b
                          block_b [9] _ _ _ _ _)) _ _).
  - examples.
  - vm_compute. reflexivity.
  - examples.
  - reflexivity.
  - vm_compute. reflexivity.
  - examples.
  - examples.
Defined.

Lemma PushBlock_empty_block_witness :
  RowBlockContainer.PushBlock (IndexType := index_t) container_b_ab block_none
  = Done container_b_ab.
Proof.
  apply (PushBlock_empty_block (IndexType := index_t)
           [Trace.OpPush row_b; Trace.OpPushBlock block_ab] blank container_b_ab block_none).
  - examples.
  - vm_compute. reflexivity.
  - examples.
  - reflexivity.
Defined.

Lemma pushes_append_only_witness :
  RowBlockContainer.offset container_b `prefix_of` RowBlockContainer.offset container_b_ab ∧
  RowBlockContainer.label container_b `prefix_of` RowBlockContainer.label container_b_ab ∧
  RowBlockContainer.index container_b `prefix_of` RowBlockContainer.index container_b_ab.
Proof.
  apply (pushes_append_only (IndexType := index_t)
           [Trace.OpPush row_b] [Trace.OpPushBlock block_ab] blank container_b container_b_ab).
  - examples.
  - vm_compute. reflexivity.
  - examples.
  - examples.
  - vm_compute. reflexivity.
Defined.

Lemma container_holds_pushed_witness :
  RowBlockContainer.label container_b_ab
  = since_clear op_labels [] [Trace.OpPush row_a; Trace.OpClear; Trace.OpPush row_b;
                             Trace.OpPushBlock block_ab] ∧
  RowBlockContainer.index container_b_ab
  = since_clear Trace.op_ids [] [Trace.OpPush row_a; Trace.OpClear; Trace.OpPush row_b;
                                 Trace.OpPushBlock block_ab].
Proof.
  apply (container_holds_pushed (IndexType := index_t)
           [Trace.OpPush row_a; Trace.OpClear; Trace.OpPush row_b;
            Trace.OpPushBlock block_ab] blank container_b_ab).
  - examples.
  - vm_compute. reflexivity.
Defined.

Lemma Push_rows_as_block_into_witness :
  Trace.run (IndexType := index_t) (Trace.OpPush <$> [row_a; row_b]) container_b
  = Done container_b_ab ↔
  RowBlockContainer.PushBlock (IndexType := index_t) container_b
    (assemble true [row_a; row_b]) = Done container_b_ab.
Proof.
  apply (Push_rows_as_block_into (IndexType := index_t) true [row_a; row_b]
           [Trace.OpPush row_b] blank container_b).
  - examples.
  - vm_compute. reflexivity.
  - examples.
  - examples.
  - examples.
  - right. reflexivity.
  - examples.
  - examples.
Defined.

Lemma GetBlock_PushBlock_round_trip_witness :
  RowBlockContainer.PushBlock (IndexType := index_t) (RowBlockContainer.Clear blank)
    block_b_ab = Done container_b_ab.
Proof.
  apply (GetBlock_PushBlock_round_trip (IndexType := index_t)
           [Trace.OpPush row_b; Trace.OpPushBlock block_ab] blank blank container_b_ab
           block_b_ab).
  - examples.
  - vm_compute. reflexivity.
  - vm_compute. reflexivity.
  - examples.
  - examples.
Defined.

Lemma PushBlock_GetBlock_round_trip_witness :
  RowBlockContainer.GetBlock container_ab
  = Done {| RowBlock.size := RowBlock.size block_ab;
            RowBlock.offset := RowBlock.offset block_ab;
            RowBlock.label :=
              take (Z.to_nat (RowBlock.size block_ab)) (RowBlock.label block_ab);
            RowBlock.index :=
              take (Z.to_nat (RowBlock.ndata block_ab)) (RowBlock.index block_ab);
            RowBlock.value :=
              if RowBlock.ndata block_ab =? 0 then None
              else take (Z.to_nat (RowBlock.ndata block_ab)) <$> RowBlock.value block_ab |}.
Proof.
  apply (PushBlock_GetBlock_round_trip (IndexType := index_t) blank container_ab block_ab).
  - examples.
  - vm_compute. reflexivity.
Defined.

Lemma pushed_rows_read_back_witness :
  ∃ r', RowBlock.subscript block_ab (Z.of_nat 1) = Done r' ∧
    Row.label r' = Row.label row_b ∧
    Row.length r' = Row.length row_b ∧
    Row.ids r' = Row.ids row_b ∧
    ∀ i, 0 <= i < Row.length row_b → Row.get_value r' i = Row.get_value row_b i.
Proof.
  apply (pushed_rows_read_back (IndexType := index_t) true [row_a; row_b] blank
           container_ab block_ab 1 row_b).
  - examples.
  - examples.
  - vm_compute. reflexivity.
  - vm_compute. reflexivity.
  - reflexivity.
Defined.

Lemma construct_holds_input_witness :
  BasicRowIter.NumCol (BasicRowIter.mk true block_ab container_ab)
  = max_id ([block_ab] ≫= λ b, take (Z.to_nat (RowBlock.ndata b)) (RowBlock.index b)) + 1.
Proof.
  refine (proj2 (proj2 (proj2 (proj2
            (construct_holds_input (IndexType := index_t)
               (BasicRowIter.mk false block_none blank)
               (BasicRowIter.mk true block_ab container_ab)
               [block_ab] _ _))))).
  - examples.
  - vm_compute. reflexivity.
Defined.

Lemma construct_single_block_witness :
  ∃ it, BasicRowIter.construct (IndexType := index_t)
          (BasicRowIter.mk false block_none blank) [block_ab] = Done it ∧
    BasicRowIter.Value it
    = {| RowBlock.size := RowBlock.size block_ab;
         RowBlock.offset := RowBlock.offset block_ab;
         RowBlock.label :=
           take (Z.to_nat (RowBlock.size block_ab)) (RowBlock.label block_ab);
         RowBlock.index :=
           take (Z.to_nat (RowBlock.ndata block_ab)) (RowBlock.index block_ab);
         RowBlock.value :=
           take (Z.to_nat (RowBlock.ndata block_ab)) <$> RowBlock.value block_ab |}.
Proof.
  apply (construct_single_block (IndexType := index_t)
           (BasicRowIter.mk false block_none blank) block_ab).
  - examples.
  - examples.
  - right. examples.
  - examples.
Defined.

Lemma max_index_not_stored_witness :
  RowBlockContainer.max_index
    (RowBlockContainer.mk [0; 2] [one_f] [half_f; two_f] [1; 3] 0)
  = RowBlockContainer.max_index (RowBlockContainer.Clear blank).
Proof.
  apply (proj2 (max_index_not_stored (IndexType := index_t))
           (RowBlockContainer.Clear blank)
           (RowBlockContainer.Save (IndexType := index_t)
              (RowBlockContainer.mk [0; 2] [one_f] [1; 3] [half_f; two_f] 3) [])
           (RowBlockContainer.mk [0; 2] [one_f] [half_f; two_f] [1; 3] 0) []).
  vm_compute. reflexivity.
Defined.

Lemma progress_every_ten_MB_witness :
  Progress.bytes_expect (Progress.reports [4000000; 12000000; 21000000])
  = Progress.ten_MB * (default 0 (last [4000000; 12000000; 21000000]) / Progress.ten_MB + 1) ∧
  Z.of_nat (length (Progress.lines (Progress.reports [4000000; 12000000; 21000000])))
  = default 0 (last [4000000; 12000000; 21000000]) / Progress.ten_MB.
Proof.
  apply (progress_every_ten_MB [4000000; 12000000; 21000000]).
  - unfold Progress.paced. rewrite ten_MB_value. lia.
  - rewrite ten_MB_value. simpl. lia.
Defined.

Lemma PushBlock_overflow_after_run_witness :
  ∃ c', RowBlockContainer.PushBlock (IndexType := index_t) (RowBlockContainer.Clear blank)
          block_overflow = Fatal IndexOverflow c' ∧
        RowBlockContainer.offset c' = RowBlockContainer.offset (RowBlockContainer.Clear blank) ∧
        RowBlockContainer.value c' = RowBlockContainer.value (RowBlockContainer.Clear blank) ∧
        RowBlockContainer.label c'
        = RowBlockContainer.label (RowBlockContainer.Clear blank)
          ++ take (Z.to_nat (RowBlock.size block_overflow)) (RowBlock.label block_overflow) ∧
        length (RowBlockContainer.index c')
        = (length (RowBlockContainer.index (RowBlockContainer.Clear blank))
           + Z.to_nat (RowBlock.ndata block_overflow))%nat.
Proof.
  apply (PushBlock_overflow_after_run (IndexType := index_t) [] blank
           (RowBlockContainer.Clear blank) block_overflow).
  - examples.
  - reflexivity.
  - examples.
  - examples.
  - examples.
  - examples.
Defined.

